(** * CC-CEDICT to Yomichan converter: the line pipeline of [main.py]

    A shallow embedding of [termbank_creator] and [create_termbanks]
    (src/main.py) together with the string and regular-expression
    primitives of Python they call, followed by the properties of the
    pipeline.

    A Python [str] is a sequence of Unicode code points; it is modelled as
    a list of code points ([N]).  String literals are written as UTF-8
    text and decoded with [py]. *)

From Stdlib Require Import Ascii String.
From Stdlib Require Import List NArith Arith Bool Lia.
From Stdlib Require DecimalN.
Import ListNotations.

Set Implicit Arguments.

(* ================================================================= *)
(** ** Python strings *)

Module Py.

Definition char := N.
Definition str := list char.

(** UTF-8 decoding of a literal: [need] continuation bytes are still
    expected for the code point accumulated in [acc]. *)
Fixpoint utf8_go (bs : list N) (need : nat) (acc : N) : str :=
  match bs with
  | [] => []
  | b :: bs' =>
      match need with
      | O =>
          if (b <? 128)%N then b :: utf8_go bs' 0 0%N
          else if (b <? 224)%N then utf8_go bs' 1 (b - 192)%N
          else if (b <? 240)%N then utf8_go bs' 2 (b - 224)%N
          else utf8_go bs' 3 (b - 240)%N
      | S O => (acc * 64 + (b - 128))%N :: utf8_go bs' 0 0%N
      | S n => utf8_go bs' n (acc * 64 + (b - 128))%N
      end
  end.

Definition py (s : string) : str :=
  utf8_go (map N_of_ascii (list_ascii_of_string s)) 0 0%N.

Definition ch (a : ascii) : char := N_of_ascii a.

Definition eqc (a b : char) : bool := (a =? b)%N.

Fixpoint eqs (a b : str) : bool :=
  match a, b with
  | [], [] => true
  | x :: a', y :: b' => eqc x y && eqs a' b'
  | _, _ => false
  end.

(** [s.startswith(p)], returning what follows the prefix. *)
Fixpoint strip_prefix (p s : str) : option str :=
  match p with
  | [] => Some s
  | x :: p' =>
      match s with
      | [] => None
      | y :: s' => if eqc x y then strip_prefix p' s' else None
      end
  end.

Definition startswith (s p : str) : bool :=
  match strip_prefix p s with Some _ => true | None => false end.

(** [s.removeprefix(p)] and [s.removesuffix(p)]. *)
Definition removeprefix (s p : str) : str :=
  match strip_prefix p s with Some r => r | None => s end.

Definition removesuffix (s p : str) : str :=
  match strip_prefix (rev p) (rev s) with
  | Some r => rev r
  | None => s
  end.

(** [str.lower] on text whose code points are at most U+00FF, ASCII and
    Latin-1: "A"-"Z" and the capital letters from U+00C0 to U+00DE (the
    sign U+00D7 apart) are moved 32 code points up, the other code
    points of that range have no lower case of their own.  The
    romanisation of CC-CEDICT is ASCII.  The case mappings of the code
    points above U+00FF are not modelled: there [lower_char] is not
    [str.lower], and what is stated of the lower case of a text is
    stated of [latin1] text. *)
Definition lower_char (c : char) : char :=
  if ((65 <=? c) && (c <=? 90))%N then (c + 32)%N
  else if ((192 <=? c) && (c <=? 222) && negb (c =? 215))%N then (c + 32)%N
  else c.

Definition lower (s : str) : str := map lower_char s.

(** The text on which [lower] is [str.lower]: every code point is at
    most U+00FF. *)
Definition latin1 (s : str) : bool := forallb (fun c => (c <? 256)%N) s.

(** [str.isspace] for one code point (the white space of [strip] and of
    [split] without argument). *)
Definition is_space (c : char) : bool :=
  (((9 <=? c) && (c <=? 13)) || ((28 <=? c) && (c <=? 32))
   || (c =? 133) || (c =? 160) || (c =? 5760)
   || ((8192 <=? c) && (c <=? 8202))
   || (c =? 8232) || (c =? 8233) || (c =? 8239) || (c =? 8287)
   || (c =? 12288))%N.

Fixpoint lstrip (s : str) : str :=
  match s with
  | [] => []
  | c :: s' => if is_space c then lstrip s' else s
  end.

Definition rstrip (s : str) : str := rev (lstrip (rev s)).

Definition strip (s : str) : str := rstrip (lstrip s).

(** [s.split()]: the maximal runs of characters that are not white
    space; [cur] is the run being read, last character first. *)
Fixpoint split_ws_go (cur : str) (s : str) : list str :=
  match s with
  | [] => match cur with [] => [] | _ => [rev cur] end
  | c :: s' =>
      if is_space c
      then match cur with
           | [] => split_ws_go [] s'
           | _ => rev cur :: split_ws_go [] s'
           end
      else split_ws_go (c :: cur) s'
  end.

Definition split_ws (s : str) : list str := split_ws_go [] s.

(** Puts a character in front of the first piece of a split. *)
Definition cons_head (c : char) (ps : list str) : list str :=
  match ps with
  | [] => [[c]]
  | p :: ps' => (c :: p) :: ps'
  end.

(** [s.split(sep)] for a separator of one character. *)
Fixpoint split_on (sep : char) (s : str) : list str :=
  match s with
  | [] => [[]]
  | c :: s' =>
      if eqc c sep then [] :: split_on sep s'
      else cons_head c (split_on sep s')
  end.

(** [s.replace(old, new)] for a non-empty [old]: occurrences are taken
    from the left and do not overlap.  [skip] counts the characters of
    the occurrence just replaced that are still to be passed over. *)
Fixpoint replace_go (old new : str) (skip : nat) (s : str) : str :=
  match s with
  | [] => []
  | c :: s' =>
      match skip with
      | S k => replace_go old new k s'
      | O =>
          if startswith s old
          then new ++ replace_go old new (pred (length old)) s'
          else c :: replace_go old new 0 s'
      end
  end.

Definition replace (s old new : str) : str := replace_go old new 0 s.

(** [p in s] *)
Fixpoint contains (s p : str) : bool :=
  startswith s p
  || match s with
     | [] => false
     | _ :: s' => contains s' p
     end.

End Py.
Import Py.

(* ================================================================= *)
(** ** The two regular expressions of [main.py]

    Both patterns of [re.sub] have the shape  literal [.+?] character:
    [\[.+?\]] and [\/CL:.+?\/]. *)

Module Re.

Definition newline : char := 10%N.

(** The lazy part after its first character: the match is extended one
    character at a time up to the first [close]; [.] refuses a line
    feed.  Returns the characters matched, [close] included, and the
    text after the match. *)
Fixpoint lazy_until (close : char) (s : str) : option (str * str) :=
  match s with
  | [] => None
  | c :: s' =>
      if eqc c close then Some ([c], s')
      else if eqc c newline then None
      else match lazy_until close s' with
           | Some (m, r) => Some (c :: m, r)
           | None => None
           end
  end.

(** A match of  [open .+? close]  at the start of [s]. *)
Definition match_at (open : str) (close : char) (s : str)
  : option (str * str) :=
  match strip_prefix open s with
  | None => None
  | Some [] => None
  | Some (c :: s') =>
      if eqc c newline then None
      else match lazy_until close s' with
           | Some (m, r) => Some (open ++ c :: m, r)
           | None => None
           end
  end.

(** [re.sub(pattern, f, s)] with a function as replacement: the matches
    are found from the left, do not overlap, and the replacement text is
    not scanned again. *)
Fixpoint sub_go (open : str) (close : char) (f : str -> str)
  (skip : nat) (s : str) : str :=
  match s with
  | [] => []
  | c :: s' =>
      match skip with
      | S k => sub_go open close f k s'
      | O =>
          match match_at open close s with
          | Some (m, _) => f m ++ sub_go open close f (pred (length m)) s'
          | None => c :: sub_go open close f 0 s'
          end
      end
  end.

Definition sub (open : str) (close : char) (f : str -> str) (s : str) : str :=
  sub_go open close f 0 s.

(** The first alternative that matches at the start of [s]. *)
Fixpoint first_alt (alts : list str) (s : str) : option str :=
  match alts with
  | [] => None
  | a :: alts' => if startswith s a then Some a else first_alt alts' s
  end.

(** [re.split(alt1|alt2|..., s, maxsplit)] for non-empty literal
    alternatives. *)
Fixpoint split_go (alts : list str) (maxsplit skip : nat) (s : str)
  : list str :=
  match s with
  | [] => [[]]
  | c :: s' =>
      match skip with
      | S k => split_go alts maxsplit k s'
      | O =>
          match maxsplit with
          | O => [s]
          | S m =>
              match first_alt alts s with
              | Some a => [] :: split_go alts m (pred (length a)) s'
              | None => cons_head c (split_go alts maxsplit 0 s')
              end
          end
      end
  end.

Definition split (alts : list str) (s : str) (maxsplit : nat) : list str :=
  split_go alts maxsplit 0 s.

End Re.

(* ================================================================= *)
(** ** The tone decoder

    [main.py] imports [decode_pinyin] from [decode_pinyin.py], which is
    not among the sources.  This module follows §4.1 of the
    specification instead. *)

Module PinyinToneDecoder.

Definition u_umlaut : char := 252%N.

Definition lit_u_colon : str := Eval vm_compute in py "u:".
Definition lit_u_umlaut : str := Eval vm_compute in py "ü".

(** Modelled from the spec: the letters of a syllable (§3, §4.1), ASCII
    letters and, once "u:" is normalised, "ü"; [decode_pinyin.py] is not
    under src/. *)
Definition is_letter (c : char) : bool :=
  (((97 <=? c) && (c <=? 122)) || ((65 <=? c) && (c <=? 90)))%N
  || eqc c u_umlaut.

(** Modelled from the spec: the tone digits "1" to "5" (§3). *)
Definition is_tone_digit (c : char) : bool := ((49 <=? c) && (c <=? 53))%N.

Definition tone_of (c : char) : N := (c - 48)%N.

(** Modelled from the spec: the vowels that can carry a tone mark, and
    the same vowels with the mark of each tone, 1 macron, 2 acute,
    3 caron, 4 grave (§4.1, step 4); the table of [decode_pinyin.py] is
    not under src/. *)
Definition vowels : str := Eval vm_compute in py "aeiouü".

Definition macron : str := Eval vm_compute in py "āēīōūǖ".
Definition acute : str := Eval vm_compute in py "áéíóúǘ".
Definition caron : str := Eval vm_compute in py "ǎěǐǒǔǚ".
Definition grave : str := Eval vm_compute in py "àèìòùǜ".

Definition marked_vowels (tone : N) : str :=
  match tone with
  | 1%N => macron
  | 2%N => acute
  | 3%N => caron
  | 4%N => grave
  | _ => vowels
  end.

(** Position of the first [c] in [s]. *)
Fixpoint index_of (c : char) (s : str) : option nat :=
  match s with
  | [] => None
  | x :: s' => if eqc x c then Some O else option_map S (index_of c s')
  end.

(** Modelled from the spec: the vowel [v] carrying tone [tone] (§4.1,
    step 4); anything that is not a vowel is left as it is. *)
Definition tone_mark (tone : N) (v : char) : char :=
  match index_of v vowels with
  | Some k => nth k (marked_vowels tone) v
  | None => v
  end.

(** Position of the "o" of the first "ou" in [s]. *)
Fixpoint index_of_ou (s : str) : option nat :=
  match s with
  | [] => None
  | x :: s' =>
      match s' with
      | y :: _ =>
          if eqc x 111%N && eqc y 117%N then Some O
          else option_map S (index_of_ou s')
      | [] => None
      end
  end.

(** Position of the last character of [s] that satisfies [p]. *)
Fixpoint last_index (p : char -> bool) (s : str) : option nat :=
  match s with
  | [] => None
  | x :: s' =>
      match last_index p s' with
      | Some i => Some (S i)
      | None => if p x then Some O else None
      end
  end.

Definition is_iou (c : char) : bool :=
  eqc c 105%N || eqc c 111%N || eqc c 117%N || eqc c u_umlaut.

(** Modelled from the spec: the vowel that carries the diacritic (§4.1,
    step 3 of the diacritic form); [decode_pinyin.py] is not under src/.
    Priority: "a", then "e", then the "o" of "ou", then the last of
    "i", "o", "u", "ü". *)
Definition select_vowel (body : str) : option nat :=
  match index_of 97%N body with
  | Some i => Some i
  | None =>
      match index_of 101%N body with
      | Some i => Some i
      | None =>
          match index_of_ou body with
          | Some i => Some i
          | None => last_index is_iou body
          end
      end
  end.

(** Replaces the character at position [i]. *)
Fixpoint set_at (i : nat) (f : char -> char) (s : str) : str :=
  match s with
  | [] => []
  | x :: s' =>
      match i with
      | O => f x :: s'
      | S j => x :: set_at j f s'
      end
  end.

(** Modelled from the spec: the shape of the input of §4.1, a non-empty
    run of letters followed by one tone digit.  The run is taken after
    "u:" has become "ü". *)
Definition syllable_shape (s : str) : bool :=
  match rev (replace s lit_u_colon lit_u_umlaut) with
  | [] => false
  | d :: body =>
      is_tone_digit d && forallb is_letter body
      && match body with [] => false | _ => true end
  end.

(** Modelled from the spec: §4.1 with [numeric_mode] false, for one
    syllable; [decode_pinyin.py] is not under src/.  Input that has not
    the shape of a syllable is returned unchanged; a syllable without
    vowel only loses its digit. *)
Definition decode_syllable (syllable : str) : str :=
  if syllable_shape syllable then
    let s := replace syllable lit_u_colon lit_u_umlaut in
    let body := removelast s in
    let tone := tone_of (last s 0%N) in
    if (tone =? 5)%N then body
    else match select_vowel body with
         | Some i => set_at i (tone_mark tone) body
         | None => body
         end
  else syllable.

(** Modelled from the spec: the scan of a text for its syllables, the
    maximal runs of letters followed by a tone digit (§4.1, input
    constraint).  [run] is the run of letters being read, last letter
    first. *)
Fixpoint decode_go (run : str) (s : str) : str :=
  match s with
  | [] => rev run
  | c :: s' =>
      if is_letter c then decode_go (c :: run) s'
      else
        match run with
        | _ :: _ =>
            if is_tone_digit c
            then decode_syllable (rev run ++ [c]) ++ decode_go [] s'
            else rev run ++ c :: decode_go [] s'
        | [] => c :: decode_go [] s'
        end
  end.

(** Modelled from the spec: [decode_pinyin] of the module
    [decode_pinyin.py], which is not under src/.  [main.py] hands it the
    text of a whole bracketed segment; every maximal run of letters that
    is followed by a tone digit is a syllable of §4.1 and is decoded,
    everything else is passed through unchanged. *)
Definition decode_pinyin (text : str) : str :=
  decode_go [] (replace text lit_u_colon lit_u_umlaut).

End PinyinToneDecoder.

(* ================================================================= *)
(** ** [main.py] *)

Module Main.

Definition TERM_BANK_SIZE : nat := 4000.

(** The two flags of [Args] that the pipeline reads.  [dict_file] is the
    iterator over the remaining lines, threaded below as a list. *)
Record Args := mkArgs { is_separate : bool; is_number : bool }.

(** One element of a term bank:
    [[match, pronunciation, "", "", 2, meanings, index, ""]]. *)
Record Entry := mkEntry {
  headword : str;
  pronunciation : str;
  part_of_speech : str;
  inflection_marker : str;
  score : N;
  glosses : list str;
  sequence_index : N;
  extra : str
}.

Definition TermBank := list Entry.

(** The exceptions the loop body can raise: [ValueError] when the three
    names of line 94 cannot be unpacked, [IndexError] at [matches[1]]. *)
Inductive exn := ValueError | IndexError.

Inductive result (A : Type) :=
| Ok (a : A)
| Raise (e : exn).
Arguments Ok {A} a.
Arguments Raise {A} e.

Definition lit_lbracket : str := Eval vm_compute in py "[".
Definition rbracket : char := Eval vm_compute in ch "]".
Definition lit_slash : str := Eval vm_compute in py "/".
Definition slash : char := Eval vm_compute in ch "/".
Definition lit_CL : str := Eval vm_compute in py "/CL:".
Definition lit_comma : str := Eval vm_compute in py ",".
Definition lit_comma_space : str := Eval vm_compute in py ", ".
Definition lit_colon : str := Eval vm_compute in py ":".
Definition lit_colon_space : str := Eval vm_compute in py ": ".
Definition lit_newline : str := [Re.newline].
Definition lit_space_lbracket : str := Eval vm_compute in py " [".
Definition lit_rbracket_space : str := Eval vm_compute in py "] ".
Definition lit_space_lparen : str := Eval vm_compute in py " (".
Definition lit_rparen_newline : str := Eval vm_compute in py ")" ++ [Re.newline].

(** [re.sub(r"\[.+?\]", f, s)] *)
Definition sub_brackets (f : str -> str) (s : str) : str :=
  Re.sub lit_lbracket rbracket f s.

(** [re.sub(r"\/CL:.+?\/", f, s)] *)
Definition sub_CL (f : str -> str) (s : str) : str :=
  Re.sub lit_CL slash f s.

Section Creator.

(** [decode_pinyin] is imported from a module that is not part of the
    sources at hand. *)
Variable decode_pinyin : str -> str.
Variable args : Args.

Definition format_pinyin (m : str) : str :=
  let pinyin := lower m in
  replace pinyin PinyinToneDecoder.lit_u_colon PinyinToneDecoder.lit_u_umlaut.

Definition to_pinyin (m : str) : str := decode_pinyin m.

Definition format_CL (m : str) : str :=
  let text := m in
  let text := replace text lit_comma_space lit_comma in
  let text := replace text lit_comma lit_comma_space in
  let text := replace text lit_colon lit_colon_space in
  text.

Definition split_CL (m : str) : str :=
  let text := format_CL m in
  lit_space_lparen
    ++ removesuffix (removeprefix text lit_slash) lit_slash
    ++ lit_rparen_newline.

(** Lines 90-92. *)
Definition convert_pinyin (line : str) : str :=
  let pinyin := sub_brackets format_pinyin (strip line) in
  if negb (is_number args) then sub_brackets to_pinyin pinyin else pinyin.

(** Lines 102-110, on the meaning without its outer slashes. *)
Definition format_glosses (meaning : str) : list str :=
  let meaning :=
    if is_separate args
    then replace (sub_CL format_CL meaning) lit_slash lit_newline
    else replace (sub_CL split_CL meaning) lit_slash lit_comma_space in
  split_on Re.newline meaning.

(** Lines 100-110. *)
Definition format_meaning (meaning : str) : list str :=
  let meaning := removesuffix (removeprefix meaning lit_slash) lit_slash in
  format_glosses meaning.

(** Lines 95-97: [chars.split()], then [del matches[1]] when the two
    first forms are equal. *)
Definition character_forms (chars : str) : result (list str) :=
  match split_ws chars with
  | m0 :: m1 :: ms => Ok (if eqs m0 m1 then m0 :: ms else m0 :: m1 :: ms)
  | _ => Raise IndexError
  end.

(** The body of the loop of [create_termbank] for one line: the
    entries appended to the term bank, or the exception raised. *)
Definition create_entries (line : str) (index : N) : result (list Entry) :=
  match Re.split [lit_space_lbracket; lit_rbracket_space]
                 (convert_pinyin line) 2 with
  | [chars; pronunciation; meaning] =>
      match character_forms chars with
      | Ok matches =>
          let meanings := format_meaning meaning in
          Ok (map (fun m => mkEntry m pronunciation [] [] 2%N
                                    meanings index [])
                  matches)
      | Raise e => Raise e
      end
  | _ => Raise ValueError
  end.

(** The loop of [create_termbank].  The [for] statement takes [line]
    from the file before the body tests the size of the term bank. *)
Fixpoint create_termbank_loop (dict_file : list str) (termbank : TermBank)
  (index : N) : result (TermBank * list str * N) :=
  match dict_file with
  | [] => Ok (termbank, [], index)
  | line :: rest =>
      if TERM_BANK_SIZE <=? length termbank
      then Ok (termbank, rest, index)
      else
        match create_entries line index with
        | Raise e => Raise e
        | Ok entries =>
            create_termbank_loop rest (termbank ++ entries) (index + 1)%N
        end
  end.

(** One call of the closure [create_termbank]: the term bank returned,
    the lines left in the file and the value of the captured [index]. *)
Definition create_termbank (dict_file : list str) (index : N)
  : result (TermBank * list str * N) :=
  create_termbank_loop dict_file [] index.

(** The generator [create_termbanks], run to its end: the term banks
    yielded, and the exception that ended it, if any.  [None] stands
    for a run that needs more than [fuel] calls of [create_termbank]. *)
Fixpoint create_termbanks_fuel (fuel : nat) (dict_file : list str)
  (index : N) : option (list TermBank * option exn) :=
  match fuel with
  | O => None
  | S fuel' =>
      match create_termbank dict_file index with
      | Raise e => Some ([], Some e)
      | Ok (term_bank, rest, index') =>
          match term_bank with
          | [] => Some ([], None)
          | _ :: _ =>
              match create_termbanks_fuel fuel' rest index' with
              | Some (banks, e) => Some (term_bank :: banks, e)
              | None => None
              end
          end
      end
  end.

(** Every call that yields takes at least one line, so one call more
    than there are lines is enough. The captured [index] starts at 1. *)
Definition create_termbanks (dict_file : list str)
  : option (list TermBank * option exn) :=
  create_termbanks_fuel (S (length dict_file)) dict_file 1%N.

End Creator.

End Main.

Import Main.

(* ================================================================= *)
(** ** Vocabulary of the properties *)

Module Props.

Definition is_digit (c : char) : bool := ((48 <=? c) && (c <=? 57))%N.

(** "ou" stands at position [j] of [body]. *)
Definition ou_at (body : str) (j : nat) : Prop :=
  nth_error body j = Some 111%N /\ nth_error body (S j) = Some 117%N.

(** The placement rule of the tone mark: the vowel [v] at position [i]
    of [body] carries the mark.  "a" comes first, then "e", then the "o"
    of "ou", then the last of "i", "o", "u", "ü". *)
Inductive placement (body : str) : nat -> char -> Prop :=
| on_a (i : nat) :
    nth_error body i = Some 97%N ->
    ~ In 97%N (firstn i body) ->
    placement body i 97%N
| on_e (i : nat) :
    ~ In 97%N body ->
    nth_error body i = Some 101%N ->
    ~ In 101%N (firstn i body) ->
    placement body i 101%N
| on_ou (i : nat) :
    ~ In 97%N body -> ~ In 101%N body ->
    ou_at body i ->
    (forall j, j < i -> ~ ou_at body j) ->
    placement body i 111%N
| on_last (i : nat) (v : char) :
    ~ In 97%N body -> ~ In 101%N body ->
    (forall j, ~ ou_at body j) ->
    nth_error body i = Some v ->
    PinyinToneDecoder.is_iou v = true ->
    (forall c, In c (skipn (S i) body) -> PinyinToneDecoder.is_iou c = false) ->
    placement body i v.

(** A text cut in pieces: plain text without "[", and bracketed
    segments, whose content is not empty and has no "]" and no line
    feed. *)
Inductive piece :=
| Plain (t : str)
| Bracket (body : str).

Definition bracketed (body : str) : str := lit_lbracket ++ body ++ [rbracket].

Definition piece_text (p : piece) : str :=
  match p with
  | Plain t => t
  | Bracket body => bracketed body
  end.

Definition segment_body (body : str) : Prop :=
  body <> [] /\ ~ In 93%N body /\ ~ In Re.newline body.

Definition piece_ok (p : piece) : Prop :=
  match p with
  | Plain t => ~ In 91%N t
  | Bracket body => segment_body body
  end.

Definition text_of (ps : list piece) : str := concat (map piece_text ps).

(** [f] applied to the bracketed segments, the plain text kept. *)
Definition on_segments (f : str -> str) (ps : list piece) : str :=
  concat (map (fun p => match p with
                        | Plain t => t
                        | Bracket body => f (bracketed body)
                        end) ps).

(** [format_pinyin] on the content of a segment. *)
Definition format_body (body : str) : str :=
  replace (lower body) PinyinToneDecoder.lit_u_colon
          PinyinToneDecoder.lit_u_umlaut.

(** The pieces after [format_pinyin]. *)
Definition format_piece (p : piece) : piece :=
  match p with
  | Plain t => Plain t
  | Bracket body => Bracket (format_body body)
  end.

(** What lines 90-92 make of one bracketed segment. *)
Definition pinyin_of_segment (decode_pinyin : str -> str) (args : Args)
  (m : str) : str :=
  if is_number args then format_pinyin m
  else decode_pinyin (format_pinyin m).

(** What lines 90-92 make of a text. *)
Definition pinyin_of_text (decode_pinyin : str -> str) (args : Args)
  (s : str) : str :=
  let pinyin := sub_brackets format_pinyin s in
  if negb (is_number args) then sub_brackets decode_pinyin pinyin else pinyin.

(** The text "CL:" that opens a classifier. *)
Definition lit_CL_text : str := Eval vm_compute in py "CL:".
Definition lit_rparen : str := Eval vm_compute in py ")".

(** The normalised text of the classifier "/CL:body/": the segment
    without its slashes, after [format_CL]. *)
Definition classifier_text (body : str) : str :=
  format_CL (lit_CL_text ++ body).

(** The content of a classifier: not empty, without slash and line
    feed. *)
Definition classifier_body (body : str) : Prop :=
  body <> [] /\ ~ In slash body /\ ~ In Re.newline body.

(** A character form: not empty, without white space and brackets. *)
Definition character_form (t : str) : Prop :=
  t <> [] /\ forall c, In c t -> is_space c = false /\ c <> 91%N /\ c <> 93%N.

(** The line  [trad simp [pron] /defs/]. *)
Definition raw_line (trad simp pron defs : str) : str :=
  trad ++ [32%N] ++ simp ++ [32%N] ++ bracketed pron
       ++ [32%N; 47%N] ++ defs ++ [47%N].

Section Vocabulary.

Variable decode_pinyin : str -> str.
Variable args : Args.

(** The entries of all the lines, in the order of the lines, the line
    at position [k] (from 0) being given the index [index + k]. *)
Fixpoint entries_from (lines : list str) (index : N)
  : result (list Entry) :=
  match lines with
  | [] => Ok []
  | line :: rest =>
      match create_entries decode_pinyin args line index with
      | Raise e => Raise e
      | Ok entries =>
          match entries_from rest (index + 1)%N with
          | Raise e => Raise e
          | Ok more => Ok (entries ++ more)
          end
      end
  end.

(** A line of the documented shape, as the loop body sees it: three
    parts around the pronunciation, the first holding exactly two
    character forms. *)
Definition well_formed (line : str) : bool :=
  match Re.split [lit_space_lbracket; lit_rbracket_space]
                 (convert_pinyin decode_pinyin args line) 2 with
  | [chars; _; _] => length (split_ws chars) =? 2
  | _ => false
  end.

End Vocabulary.

End Props.
Import Props.

(* ================================================================= *)
(** ** Sample input *)

Module Samples.

(** The default flags, and [--pinyin-numbers]. *)
Definition defaults : Args := mkArgs false false.
Definition bullets : Args := mkArgs true false.
Definition numbered : Args := mkArgs false true.

Definition decoder := PinyinToneDecoder.decode_pinyin.

(** The line quoted in the comment of [create_termbank]. *)
Definition ke_line : str :=
  py "課 课 [ke4] /subject/course/CL:門|门[men2]/class/lesson/CL:堂[tang2],節|节[jie2]/to levy/tax/form of divination/".

Definition ke_glosses : list str :=
  [ py "subject, course (CL: 門|门[mén])";
    py "class, lesson (CL: 堂[táng], 節|节[jié])";
    py "to levy, tax, form of divination" ].

Definition ke_entry (form : str) (index : N) : Entry :=
  mkEntry form (py "kè") [] [] 2%N ke_glosses index [].

(** A line with one character form, and its entry. *)
Definition yi_line : str := py "一 一 [yi1] /one/".

Definition yi_entry (index : N) : Entry :=
  mkEntry (py "一") (py "yī") [] [] 2%N [py "one"] index [].

Definition er_line : str := py "二 二 [er4] /two/".

Definition er_entry (index : N) : Entry :=
  mkEntry (py "二") (py "èr") [] [] 2%N [py "two"] index [].

(** The glosses that line would have if every definition were a gloss
    of its own and the classifier a bare suffix. *)
Definition ke_glosses_by_definition : list str :=
  [ py "subject"; py "course (門|门[mén])"; py "class";
    py "lesson (堂[táng], 節|节[jié])"; py "to levy"; py "tax";
    py "form of divination" ].

(** A line whose meaning is not delimited by slashes. *)
Definition no_slash_line : str := py "課 课 [ke4] subject".

(** A line without pronunciation. *)
Definition no_bracket_line : str := py "課 课 /subject/".

(** A line whose classifier is the last segment of the meaning. *)
Definition shu_line : str := py "書 书 [shu1] /book/CL:本[ben3],冊|册[ce4]/".

Definition shu_gloss_default : list str :=
  [ py "book, CL:本[běn],冊|册[cè]" ].

Definition shu_glosses_bullets : list str :=
  [ py "book"; py "CL:本[běn],冊|册[cè]" ].

(** A capitalised syllable. *)
Definition bei_segment : str := py "[Bei3]".

(** The line of the comment, cut at its brackets. *)
Definition ke_pieces : list piece :=
  [ Plain (py "課 课 "); Bracket (py "ke4");
    Plain (py " /subject/course/CL:門|门"); Bracket (py "men2");
    Plain (py "/class/lesson/CL:堂"); Bracket (py "tang2");
    Plain (py ",節|节"); Bracket (py "jie2");
    Plain (py "/to levy/tax/form of divination/") ].

(** The indices 1, 2, ..., [n]. *)
Definition indices (n : nat) : list N := map N.of_nat (seq 1 n).

End Samples.
Import Samples.

(* ================================================================= *)
(** ** [json.dumps] as [format_obj] calls it *)

Module Json.

(** The objects that [main.py] serialises: strings, integers, [True],
    lists, and a dictionary with string keys, kept in insertion order. *)
Inductive json :=
| JStr (s : str)
| JInt (n : N)
| JBool (b : bool)
| JList (l : list json)
| JDict (l : list (str * json)).

(** [str(n)] for a natural number. *)
Fixpoint uint_chars (d : Decimal.uint) : str :=
  match d with
  | Decimal.Nil => []
  | Decimal.D0 d' => 48%N :: uint_chars d'
  | Decimal.D1 d' => 49%N :: uint_chars d'
  | Decimal.D2 d' => 50%N :: uint_chars d'
  | Decimal.D3 d' => 51%N :: uint_chars d'
  | Decimal.D4 d' => 52%N :: uint_chars d'
  | Decimal.D5 d' => 53%N :: uint_chars d'
  | Decimal.D6 d' => 54%N :: uint_chars d'
  | Decimal.D7 d' => 55%N :: uint_chars d'
  | Decimal.D8 d' => 56%N :: uint_chars d'
  | Decimal.D9 d' => 57%N :: uint_chars d'
  end.

Definition str_of_N (n : N) : str := uint_chars (N.to_uint n).

(** One hexadecimal digit, in lower case. *)
Definition hex_digit (n : N) : char :=
  if (n <? 10)%N then (48 + n)%N else (87 + n)%N.

(** [ESCAPE_DCT] of [json.encoder]: the backslash, the quote and the
    control characters are escaped, everything else is kept, since
    [ensure_ascii] is false. *)
Definition escape_char (c : char) : str :=
  if eqc c 92%N then [92; 92]%N
  else if eqc c 34%N then [92; 34]%N
  else if eqc c 8%N then [92; 98]%N
  else if eqc c 12%N then [92; 102]%N
  else if eqc c 10%N then [92; 110]%N
  else if eqc c 13%N then [92; 114]%N
  else if eqc c 9%N then [92; 116]%N
  else if (c <? 32)%N
       then [92; 117; 48; 48; hex_digit (c / 16); hex_digit (c mod 16)]%N
  else [c].

(** [encode_basestring] *)
Definition encode_basestring (s : str) : str :=
  34%N :: flat_map escape_char s ++ [34%N].

(** [sep.join(l)] *)
Fixpoint join (sep : str) (l : list str) : str :=
  match l with
  | [] => []
  | x :: l' =>
      match l' with
      | [] => x
      | _ :: _ => x ++ sep ++ join sep l'
      end
  end.

Definition lit_true : str := Eval vm_compute in py "true".
Definition lit_false : str := Eval vm_compute in py "false".

(** [json.dumps(obj, ensure_ascii=False, separators=(',', ':'))] *)
Fixpoint dumps (j : json) : str :=
  match j with
  | JStr s => encode_basestring s
  | JInt n => str_of_N n
  | JBool b => if b then lit_true else lit_false
  | JList l => [91%N] ++ join [44%N] (map dumps l) ++ [93%N]
  | JDict l =>
      [123%N]
        ++ join [44%N]
             (map (fun kv => encode_basestring (fst kv) ++ [58%N]
                               ++ dumps (snd kv)) l)
        ++ [125%N]
  end.

Definition format_obj (obj : json) : str := dumps obj.

(** An entry as the list
    [[match, pronunciation, "", "", 2, meanings, index, ""]]. *)
Definition entry_obj (e : Entry) : json :=
  JList [ JStr (headword e); JStr (pronunciation e);
          JStr (part_of_speech e); JStr (inflection_marker e);
          JInt (score e); JList (map JStr (glosses e));
          JInt (sequence_index e); JStr (extra e) ].

Definition term_bank_obj (term_bank : TermBank) : json :=
  JList (map entry_obj term_bank).

End Json.
Import Json.

(* ================================================================= *)
(** ** [get_date], [create_index] and [main] *)

Module Program.

(** What can end [main]: an exception of the loop body, the [TypeError]
    of [None[0]] in [get_date], the [StopIteration] of
    [next(args.dict_file)] on an exhausted file. *)
Inductive error :=
| LineError (e : exn)
| TypeError
| StopIteration.

Inductive outcome (A : Type) :=
| Returns (a : A)
| Raises (e : error).
Arguments Returns {A} a.
Arguments Raises {A} e.

Definition lit_date_prefix : str := Eval vm_compute in py "#! date=".
Definition lit_None : str := Eval vm_compute in py "None".
Definition lit_cc_cedict : str := Eval vm_compute in py "cc_cedict_".
Definition lit_CC_CEDICT_dash : str := Eval vm_compute in py "CC-CEDICT-".
Definition lit_bullets : str := Eval vm_compute in py "-bullets".
Definition lit_numberedpinyin : str := Eval vm_compute in py "-numberedpinyin".
Definition lit_zip : str := Eval vm_compute in py ".zip".
Definition lit_index_json : str := Eval vm_compute in py "index.json".
Definition lit_term_bank : str := Eval vm_compute in py "term_bank_".
Definition lit_json : str := Eval vm_compute in py ".json".
Definition lit_set_output : str :=
  Eval vm_compute in py "::set-output name=date::".
Definition lit_Done : str := Eval vm_compute in py "Done".
Definition lit_title : str := Eval vm_compute in py "title".
Definition lit_title_value : str := Eval vm_compute in py "CC-CEDICT".
Definition lit_format : str := Eval vm_compute in py "format".
Definition lit_revision : str := Eval vm_compute in py "revision".
Definition lit_sequenced : str := Eval vm_compute in py "sequenced".

(** [f"{date}"]: the date, or the text of [None]. *)
Definition format_date (date : option str) : str :=
  match date with
  | Some d => d
  | None => lit_None
  end.

Definition create_index (date : option str) : json :=
  JDict [ (lit_title, JStr lit_title_value);
          (lit_format, JInt 3%N);
          (lit_revision, JStr (lit_cc_cedict ++ format_date date));
          (lit_sequenced, JBool true) ].

(** The name of the archive, lines 139-142. *)
Definition archive_name (args : Args) (date : option str) : str :=
  let filename := lit_CC_CEDICT_dash ++ format_date date in
  let filename := filename ++ (if is_separate args then lit_bullets else []) in
  let filename :=
    filename ++ (if is_number args then lit_numberedpinyin else []) in
  filename ++ lit_zip.

(** The members written for the term banks, [i] being the count of
    [enumerate]: the name [term_bank_{i+1}.json] and the text. *)
Fixpoint term_bank_members (i : N) (banks : list TermBank)
  : list (str * str) :=
  match banks with
  | [] => []
  | term_bank :: rest =>
      (lit_term_bank ++ str_of_N (i + 1)%N ++ lit_json,
       format_obj (term_bank_obj term_bank))
        :: term_bank_members (i + 1)%N rest
  end.

(** A run of [main]: the archive created, if any, with its members in
    the order they were written; the lines printed; the exception that
    ended the run, if any.  The archive is closed by the [with]
    statement also when an exception passes through it. *)
Record run := mkRun {
  archive : option (str * list (str * str));
  printed : list str;
  raised : option error
}.

Section Main.

(** The characters that [\d] matches: the decimal digits of the
    Unicode tables of the interpreter. *)
Variable is_decimal : char -> bool.
Variable decode_pinyin : str -> str.
Variable args : Args.

(** [n] characters matched by [\d] at the start of [s]; what follows
    them. *)
Fixpoint digits (n : nat) (s : str) : option str :=
  match n with
  | O => Some s
  | S k =>
      match s with
      | [] => None
      | c :: s' => if is_decimal c then digits k s' else None
      end
  end.

(** A hyphen at the start of [s]; what follows it. *)
Definition hyphen (s : str) : option str :=
  match s with
  | c :: s' => if eqc c 45%N then Some s' else None
  | [] => None
  end.

(** A match of [(\d{4})-(\d{2})-(\d{2})] at the start of [s]: the text
    matched. *)
Definition match_date (s : str) : option str :=
  match digits 4 s with
  | None => None
  | Some s1 =>
      match hyphen s1 with
      | None => None
      | Some s2 =>
          match digits 2 s2 with
          | None => None
          | Some s3 =>
              match hyphen s3 with
              | None => None
              | Some s4 =>
                  match digits 2 s4 with
                  | None => None
                  | Some _ => Some (firstn 10 s)
                  end
              end
          end
      end
  end.

(** [re.search(r"(\d{4})-(\d{2})-(\d{2})", s)]: the leftmost match. *)
Fixpoint search_date (s : str) : option str :=
  match match_date s with
  | Some m => Some m
  | None =>
      match s with
      | [] => None
      | _ :: s' => search_date s'
      end
  end.

(** [get_date]: the value returned or the exception raised, and the
    lines left in the file.  Without a line that starts with
    "#! date=" the loop ends and the function returns [None]. *)
Fixpoint get_date (dict_file : list str) : outcome (option str) * list str :=
  match dict_file with
  | [] => (Returns None, [])
  | line :: rest =>
      if startswith line lit_date_prefix
      then match search_date line with
           | Some date => (Returns (Some date), rest)
           | None => (Raises TypeError, rest)
           end
      else get_date rest
  end.

(** [main], after [parse_file]: [dict_file] holds the lines of the
    file.  [None] stands for a run of the generator that is cut short,
    which does not happen. *)
Definition main (dict_file : list str) : option run :=
  match get_date dict_file with
  | (Raises e, _) => Some (mkRun None [] (Some e))
  | (Returns date, rest) =>
      let filename := archive_name args date in
      let index := (lit_index_json, format_obj (create_index date)) in
      match rest with
      | [] => Some (mkRun (Some (filename, [index])) [] (Some StopIteration))
      | _ :: rest' =>
          match create_termbanks decode_pinyin args rest' with
          | None => None
          | Some (banks, Some e) =>
              Some (mkRun (Some (filename,
                                 index :: term_bank_members 0%N banks))
                          [] (Some (LineError e)))
          | Some (banks, None) =>
              Some (mkRun (Some (filename,
                                 index :: term_bank_members 0%N banks))
                          [lit_set_output ++ format_date date; lit_Done]
                          None)
          end
      end
  end.

End Main.

End Program.
Import Program.

(* ================================================================= *)
(** ** Further vocabulary and sample input *)

Module More.

(** [\d] on ASCII alone, to run the examples. *)
Definition ascii_decimal (c : char) : bool := is_digit c.

(** The head of a dictionary file: comments, the line of the date and
    the comment line that [main] passes over. *)
Definition header : list str :=
  [ py "# CC-CEDICT" ++ [Re.newline];
    py "#! version=1" ++ [Re.newline];
    py "#! date=2024-05-20T05:46:25Z" ++ [Re.newline];
    py "#! charset=UTF-8" ++ [Re.newline] ].

(** The line  [form [pron] /defs/]  with one character form. *)
Definition one_form_line (form pron defs : str) : str :=
  form ++ [32%N] ++ bracketed pron ++ [32%N; 47%N] ++ defs ++ [47%N].

(** The line  [trad simp [pron]]  without meaning. *)
Definition no_meaning_line (trad simp pron : str) : str :=
  trad ++ [32%N] ++ simp ++ [32%N] ++ bracketed pron.

(** In [s], every [c] is followed by a space. *)
Fixpoint spaced_after (c : char) (s : str) : bool :=
  match s with
  | [] => true
  | x :: s' =>
      (negb (eqc x c)
       || match s' with
          | y :: _ => eqc y 32%N
          | [] => false
          end)
      && spaced_after c s'
  end.

Definition not_space (c : char) : bool := negb (eqc c 32%N).

Definition is_upper (c : char) : bool := ((65 <=? c) && (c <=? 90))%N.

(** [l] is made of non-empty runs of [i], [i + 1], ..., [j - 1], in this
    order: the sequence numbers of the entries of consecutive lines. *)
Inductive runs : N -> list N -> N -> Prop :=
| runs_nil (i : N) : runs i [] i
| runs_cons (i j : N) (k : nat) (l : list N) :
    0 < k -> runs (i + 1)%N l j -> runs i (repeat i k ++ l) j.

(** The character that follows the backslash of an escape. *)
Definition escaped (e : char) : char :=
  if eqc e 98%N then 8%N
  else if eqc e 102%N then 12%N
  else if eqc e 110%N then 10%N
  else if eqc e 114%N then 13%N
  else if eqc e 116%N then 9%N
  else e.

Definition hex_value (c : char) : N :=
  if (c <? 58)%N then (c - 48)%N else (c - 87)%N.

(** Reads back the text between the quotes of a JSON string. *)
Fixpoint unescape (s : str) : str :=
  match s with
  | [] => []
  | c :: s' =>
      if eqc c 92%N
      then match s' with
           | [] => []
           | e :: s'' =>
               if eqc e 117%N
               then match s'' with
                    | _ :: _ :: h :: l :: s3 =>
                        (hex_value h * 16 + hex_value l)%N :: unescape s3
                    | _ => []
                    end
               else escaped e :: unescape s''
           end
      else c :: unescape s'
  end.

(** A date as the pattern of [get_date] matches it: four, two and two
    characters of [\d], with a hyphen between them. *)
Definition date_shape (is_decimal : char -> bool) (m : str) : Prop :=
  exists y mo d,
    m = y ++ [45%N] ++ mo ++ [45%N] ++ d
    /\ length y = 4 /\ length mo = 2 /\ length d = 2
    /\ forallb is_decimal (y ++ mo ++ d) = true.

(** A line that is not the line of the date. *)
Definition not_date_line (line : str) : Prop :=
  startswith line lit_date_prefix = false.

(** A text between quotes. *)
Definition quoted (s : str) : str := 34%N :: s ++ [34%N].

(** No control character, line feed included. *)
Definition printable (s : str) : bool := forallb (fun c => (32 <=? c)%N) s.

(** A character that [json.dumps] writes as it is. *)
Definition plain_char (c : char) : bool :=
  (32 <=? c)%N && negb (eqc c 34%N) && negb (eqc c 92%N).

(** The bracketed segments of the pieces are [latin1] text; the plain
    text, which holds the Chinese characters, is free. *)
Definition latin1_segments (ps : list piece) : Prop :=
  Forall (fun p => match p with
                   | Plain _ => True
                   | Bracket body => latin1 body = true
                   end) ps.

End More.
Import More.

Unset Implicit Arguments.

(* ================================================================= *)
(** ** Python strings: basic facts *)

Example py_literal :
  py "課 [kè]" = [35506; 32; 91; 107; 232; 93]%N.
Proof. reflexivity. Qed.

Example replace_ex :
  replace (py "a, b,c") (py ", ") (py ",") = py "a,b,c".
Proof. reflexivity. Qed.

Example sub_ex :
  Re.sub (py "[") (ch "]") (fun m => lower m) (py "X [Ke4] Y [] Z []] [A")
  = py "X [ke4] Y [] z []] [A".
Proof. reflexivity. Qed.

Example split_ex :
  Re.split [py " ["; py "] "] (py "a b [c d] /x [y] z/") 2
  = [py "a b"; py "c d"; py "/x [y] z/"].
Proof. reflexivity. Qed.

Example split_ws_ex : split_ws (py "  a  bc ") = [py "a"; py "bc"].
Proof. reflexivity. Qed.

Example split_on_ex :
  split_on (ch "/") (py "a//b/") = [py "a"; []; py "b"; []].
Proof. reflexivity. Qed.

Example decode_ex :
  PinyinToneDecoder.decode_pinyin (py "[lu:4 hao3 liu2 lüe4 dou4 r5 m2 a1]")
  = py "[lǜ hǎo liú lüè dòu r m ā]".
Proof. vm_compute. reflexivity. Qed.

Lemma eqc_true (a b : char) : eqc a b = true <-> a = b.
Proof. unfold eqc. apply N.eqb_eq. Qed.

Lemma eqc_false (a b : char) : eqc a b = false <-> a <> b.
Proof. unfold eqc. apply N.eqb_neq. Qed.

Lemma eqc_refl (a : char) : eqc a a = true.
Proof. apply eqc_true. reflexivity. Qed.

Lemma eqs_true (a b : str) : eqs a b = true <-> a = b.
Proof.
  revert b. induction a as [|x a IH]; intros [|y b]; simpl;
    try (split; [discriminate | discriminate]); try tauto.
  rewrite andb_true_iff, eqc_true, IH. split.
  - intros [-> ->]. reflexivity.
  - intros H. injection H as -> ->. split; reflexivity.
Qed.

Lemma eqs_false (a b : str) : eqs a b = false <-> a <> b.
Proof.
  rewrite <- eqs_true. destruct (eqs a b); split; congruence.
Qed.

(* ================================================================= *)
(** ** The loop body: entries of one line *)

Section EntriesOfALine.

Variable decode_pinyin : str -> str.
Variable args : Args.

Local Abbreviation create_entries := (create_entries decode_pinyin args).
Local Abbreviation well_formed := (well_formed decode_pinyin args).

Lemma character_forms_nonempty (chars : str) (ms : list str) :
  character_forms chars = Ok ms -> ms <> [].
Proof.
  unfold character_forms.
  destruct (split_ws chars) as [|m0 [|m1 rest]]; try discriminate.
  destruct (eqs m0 m1); intros H; injection H as <-; discriminate.
Qed.

(** What [create_entries] returns is read off the three parts of the
    split and the character forms. *)
Lemma create_entries_inv (line : str) (index : N) (es : list Entry) :
  create_entries line index = Ok es ->
  exists chars pron meaning ms,
    Re.split [lit_space_lbracket; lit_rbracket_space]
             (convert_pinyin decode_pinyin args line) 2
    = [chars; pron; meaning]
    /\ character_forms chars = Ok ms
    /\ es = map (fun m => mkEntry m pron [] [] 2%N
                             (format_meaning args meaning) index [])
                ms.
Proof.
  unfold Main.create_entries.
  destruct (Re.split _ _ _) as [|chars [|pron [|meaning [|x l]]]];
    try discriminate.
  destruct (character_forms chars) as [ms|e] eqn:Hms; try discriminate.
  intros H. injection H as <-.
  exists chars, pron, meaning, ms. auto.
Qed.

Lemma create_entries_nonempty (line : str) (index : N) (es : list Entry) :
  create_entries line index = Ok es -> es <> [].
Proof.
  intros H. apply create_entries_inv in H.
  destruct H as (chars & pron & meaning & ms & _ & Hms & ->).
  apply character_forms_nonempty in Hms.
  destruct ms; [congruence | discriminate].
Qed.

(** The entries of one line differ in their headword only. *)
Lemma create_entries_shared (line : str) (index : N) (es : list Entry) :
  create_entries line index = Ok es ->
  exists pron meanings,
    Forall (fun e => pronunciation e = pron /\ glosses e = meanings
                     /\ sequence_index e = index /\ score e = 2%N
                     /\ part_of_speech e = [] /\ inflection_marker e = []
                     /\ extra e = []) es.
Proof.
  intros H. apply create_entries_inv in H.
  destruct H as (chars & pron & meaning & ms & _ & _ & ->).
  exists pron, (format_meaning args meaning).
  apply Forall_forall. intros e He. apply in_map_iff in He.
  destruct He as (m & <- & _). simpl. repeat split.
Qed.

(** The index given to a line does not decide whether it is accepted. *)
Lemma create_entries_length (line : str) (i j : N) (es : list Entry) :
  create_entries line i = Ok es ->
  exists es', create_entries line j = Ok es' /\ length es' = length es.
Proof.
  unfold Main.create_entries.
  destruct (Re.split _ _ _) as [|chars [|pron [|meaning [|x l]]]];
    try discriminate.
  destruct (character_forms chars) as [ms|e]; try discriminate.
  intros H. injection H as <-. eexists. split; [reflexivity|].
  now rewrite !length_map.
Qed.

Lemma well_formed_entries (line : str) (index : N) :
  well_formed line = true ->
  exists es, create_entries line index = Ok es
             /\ 1 <= length es <= 2.
Proof.
  unfold Props.well_formed, Main.create_entries.
  destruct (Re.split _ _ _) as [|chars [|pron [|meaning [|x l]]]];
    try discriminate.
  unfold character_forms.
  destruct (split_ws chars) as [|m0 [|m1 [|m2 ms]]]; try discriminate.
  intros _. destruct (eqs m0 m1); eexists; (split; [reflexivity|]);
    simpl; lia.
Qed.

End EntriesOfALine.

(* ================================================================= *)
(** ** The batcher *)

Section Batcher.

Variable decode_pinyin : str -> str.
Variable args : Args.

Local Abbreviation create_entries := (create_entries decode_pinyin args).
Local Abbreviation create_termbank_loop := (create_termbank_loop decode_pinyin args).
Local Abbreviation create_termbank := (create_termbank decode_pinyin args).
Local Abbreviation create_termbanks_fuel := (create_termbanks_fuel decode_pinyin args).
Local Abbreviation create_termbanks := (create_termbanks decode_pinyin args).
Local Abbreviation entries_from := (entries_from decode_pinyin args).
Local Abbreviation well_formed := (well_formed decode_pinyin args).

Lemma TERM_BANK_SIZE_pos : 0 < TERM_BANK_SIZE.
Proof. unfold TERM_BANK_SIZE. apply Nat.lt_0_succ. Qed.

Local Opaque TERM_BANK_SIZE.

(** A call of [create_termbank] leaves a suffix of the file, and takes
    at least one line when there is one. *)
Lemma loop_rest (lines : list str) :
  forall tb index tb' rest index',
    create_termbank_loop lines tb index = Ok (tb', rest, index') ->
    length rest <= length lines
    /\ (lines <> [] -> length rest < length lines).
Proof.
  induction lines as [|line lines IH]; simpl; intros tb index tb' rest index' H.
  - injection H as <- <- <-. split; [simpl; lia | congruence].
  - destruct (TERM_BANK_SIZE <=? length tb).
    + injection H as <- <- <-. simpl. split; intros; lia.
    + destruct (create_entries line index) as [es|e]; try discriminate.
      apply IH in H. simpl. split; intros; lia.
Qed.

(** The term bank only grows during a call. *)
Lemma loop_grows (lines : list str) :
  forall tb index tb' rest index',
    create_termbank_loop lines tb index = Ok (tb', rest, index') ->
    length tb <= length tb'.
Proof.
  induction lines as [|line lines IH]; simpl; intros tb index tb' rest index' H.
  - injection H as <- <- <-. lia.
  - destruct (TERM_BANK_SIZE <=? length tb).
    + injection H as <- <- <-. lia.
    + destruct (create_entries line index) as [es|e]; try discriminate.
      apply IH in H. rewrite length_app in H. lia.
Qed.

(** The generator always comes to an end: with more fuel than lines the
    run is never cut short. *)
Lemma create_termbanks_fuel_total (fuel : nat) :
  forall lines index,
    length lines < fuel ->
    exists banks e, create_termbanks_fuel fuel lines index = Some (banks, e).
Proof.
  induction fuel as [|fuel IH]; intros lines index Hlen; [lia|].
  simpl. destruct (create_termbank lines index) as [[[tb rest] index']|e] eqn:Hc.
  - destruct tb as [|x tb].
    + eauto.
    + assert (Hrest : length rest < fuel).
      { unfold Main.create_termbank in Hc.
        destruct lines as [|l lines].
        - simpl in Hc. discriminate.
        - apply loop_rest in Hc. destruct Hc as [_ Hc].
          specialize (Hc ltac:(discriminate)). lia. }
      destruct (IH rest index' Hrest) as (banks & e & ->). eauto.
  - eauto.
Qed.

Lemma create_termbanks_total (lines : list str) :
  exists banks e, create_termbanks lines = Some (banks, e).
Proof. apply create_termbanks_fuel_total. lia. Qed.

(** More fuel does not change a finished run. *)
Lemma create_termbanks_fuel_mono (fuel : nat) :
  forall lines index r,
    create_termbanks_fuel fuel lines index = Some r ->
    create_termbanks_fuel (S fuel) lines index = Some r.
Proof.
  induction fuel as [|fuel IH]; intros lines index r H; [discriminate|].
  simpl in H. cbn [Main.create_termbanks_fuel].
  destruct (create_termbank lines index) as [[[tb rest] index']|e]; auto.
  destruct tb as [|x tb]; auto.
  destruct (create_termbanks_fuel fuel rest index') as [[banks e]|] eqn:Hr;
    try discriminate.
  apply IH in Hr. cbn [Main.create_termbanks_fuel] in Hr. rewrite Hr. exact H.
Qed.

(** *** Size of the term banks *)

Lemma loop_bound (lines : list str) :
  forall tb index tb' rest index',
    Forall (fun l => well_formed l = true) lines ->
    length tb <= S TERM_BANK_SIZE ->
    create_termbank_loop lines tb index = Ok (tb', rest, index') ->
    length tb' <= S TERM_BANK_SIZE
    /\ Forall (fun l => well_formed l = true) rest.
Proof.
  induction lines as [|line lines IH]; simpl;
    intros tb index tb' rest index' Hwf Htb H.
  - injection H as <- <- <-. auto.
  - inversion Hwf as [|? ? Hl Hls]; subst.
    destruct (TERM_BANK_SIZE <=? length tb) eqn:Hfull.
    + injection H as <- <- <-. auto.
    + apply Nat.leb_gt in Hfull.
      destruct (well_formed_entries decode_pinyin args line index Hl)
        as (es & Hes & Hlen).
      rewrite Hes in H. apply IH in H; auto.
      rewrite length_app. lia.
Qed.

Lemma create_termbanks_fuel_bound (fuel : nat) :
  forall lines index banks e,
    Forall (fun l => well_formed l = true) lines ->
    create_termbanks_fuel fuel lines index = Some (banks, e) ->
    Forall (fun b => 1 <= length b <= S TERM_BANK_SIZE) banks.
Proof.
  induction fuel as [|fuel IH]; intros lines index banks e Hwf H;
    [discriminate|].
  simpl in H.
  destruct (create_termbank lines index) as [[[tb rest] index']|e'] eqn:Hc.
  - destruct tb as [|x tb].
    + injection H as <- <-. constructor.
    + destruct (create_termbanks_fuel fuel rest index') as [[bs e'']|] eqn:Hr;
        try discriminate.
      injection H as <- <-.
      unfold Main.create_termbank in Hc.
      apply loop_bound in Hc; auto; [|simpl; lia].
      destruct Hc as [Hb Hrest]. constructor.
      * simpl in *. lia.
      * eapply IH; eauto.
  - injection H as <- <-. constructor.
Qed.

(** *** Input that fits in one term bank *)

Lemma entries_from_length (lines : list str) :
  forall index es,
    entries_from lines index = Ok es -> length lines <= length es.
Proof.
  induction lines as [|line lines IH]; simpl; intros index es H.
  - lia.
  - destruct (create_entries line index) as [e1|] eqn:H1; try discriminate.
    destruct (entries_from lines (index + 1)) as [more|] eqn:H2;
      try discriminate.
    injection H as <-. apply IH in H2.
    apply create_entries_nonempty in H1. rewrite length_app.
    destruct e1; [congruence | simpl; lia].
Qed.

Lemma loop_small (lines : list str) :
  forall tb index es,
    entries_from lines index = Ok es ->
    length tb + length es <= TERM_BANK_SIZE ->
    create_termbank_loop lines tb index
    = Ok (tb ++ es, [], (index + N.of_nat (length lines))%N).
Proof.
  induction lines as [|line lines IH]; simpl; intros tb index es H Hlen.
  - injection H as <-. rewrite app_nil_r, N.add_0_r. reflexivity.
  - destruct (create_entries line index) as [e1|] eqn:H1; try discriminate.
    destruct (entries_from lines (index + 1)) as [more|] eqn:H2;
      try discriminate.
    injection H as <-.
    pose proof (create_entries_nonempty _ _ _ _ _ H1) as Hne.
    rewrite length_app in Hlen.
    assert (0 < length e1) by (destruct e1; [congruence | simpl; lia]).
    replace (TERM_BANK_SIZE <=? length tb) with false
      by (symmetry; apply Nat.leb_gt; lia).
    rewrite (IH (tb ++ e1) (index + 1)%N more H2)
      by (rewrite length_app; lia).
    rewrite <- app_assoc.
    change (N.pos (Pos.of_succ_nat (length lines)))
      with (N.of_nat (S (length lines))).
    rewrite Nat2N.inj_succ.
    replace (index + 1 + N.of_nat (length lines))%N
      with (index + N.succ (N.of_nat (length lines)))%N by lia.
    reflexivity.
Qed.

(** A line that raises, met before the term bank is full, ends the
    call with its exception. *)
Lemma loop_raises (pre : list str) :
  forall tb index es line post e,
    entries_from pre index = Ok es ->
    length tb + length es < TERM_BANK_SIZE ->
    create_entries line (index + N.of_nat (length pre))%N = Raise e ->
    create_termbank_loop (pre ++ line :: post) tb index = Raise e.
Proof.
  induction pre as [|l pre IH]; simpl; intros tb index es line post e H Hlen Hr.
  - injection H as <-. simpl in Hlen. rewrite N.add_0_r in Hr.
    replace (TERM_BANK_SIZE <=? length tb) with false
      by (symmetry; apply Nat.leb_gt; lia).
    now rewrite Hr.
  - destruct (create_entries l index) as [e1|] eqn:H1; try discriminate.
    destruct (entries_from pre (index + 1)) as [more|] eqn:H2;
      try discriminate.
    injection H as <-. rewrite length_app in Hlen.
    replace (TERM_BANK_SIZE <=? length tb) with false
      by (symmetry; apply Nat.leb_gt; lia).
    eapply IH; eauto.
    + rewrite length_app. lia.
    + rewrite <- Hr. f_equal. lia.
Qed.

(** Input whose entries fit in one term bank is handed over whole, in
    one term bank. *)
Lemma create_termbanks_small (lines : list str) (es : list Entry) :
  lines <> [] ->
  entries_from lines 1%N = Ok es ->
  length es <= TERM_BANK_SIZE ->
  create_termbanks lines = Some ([es], None).
Proof.
  intros Hne H Hlen. unfold Main.create_termbanks.
  cbn [Main.create_termbanks_fuel]. unfold Main.create_termbank.
  rewrite (loop_small lines [] 1%N es H) by (simpl; lia). simpl.
  pose proof (entries_from_length _ _ _ H) as Hl.
  destruct es as [|x es].
  - destruct lines; [congruence | simpl in Hl; lia].
  - destruct lines as [|l lines]; [congruence|]. reflexivity.
Qed.

Lemma create_termbanks_raises (pre post : list str) (line : str)
  (es : list Entry) (e : exn) :
  entries_from pre 1%N = Ok es ->
  length es < TERM_BANK_SIZE ->
  create_entries line (1 + N.of_nat (length pre))%N = Raise e ->
  create_termbanks (pre ++ line :: post) = Some ([], Some e).
Proof.
  intros H Hlen Hr. unfold Main.create_termbanks.
  cbn [Main.create_termbanks_fuel]. unfold Main.create_termbank.
  now rewrite (loop_raises pre [] 1%N es line post e H Hlen Hr).
Qed.

(** *** The line read when the term bank is full *)

Lemma N_of_nat_succ (index : N) (n : nat) :
  (index + 1 + N.of_nat n)%N = (index + N.of_nat (S n))%N.
Proof. rewrite Nat2N.inj_succ. lia. Qed.

(** Lines whose entries leave room in the term bank are all
    processed. *)
Lemma loop_prefix (pre : list str) :
  forall tb index es post,
    entries_from pre index = Ok es ->
    length tb + length es < TERM_BANK_SIZE ->
    create_termbank_loop (pre ++ post) tb index
    = create_termbank_loop post (tb ++ es)
                           (index + N.of_nat (length pre))%N.
Proof.
  induction pre as [|l pre IH]; intros tb index es post H Hlen.
  - injection H as <-. cbn [app length N.of_nat].
    now rewrite app_nil_r, N.add_0_r.
  - cbn [entries_from] in H.
    destruct (create_entries l index) as [e1|] eqn:H1; try discriminate.
    destruct (entries_from pre (index + 1)) as [more|] eqn:H2;
      try discriminate.
    injection H as <-. rewrite length_app in Hlen.
    cbn [app Main.create_termbank_loop].
    replace (TERM_BANK_SIZE <=? length tb) with false
      by (symmetry; apply Nat.leb_gt; lia).
    rewrite H1, (IH (tb ++ e1) (index + 1)%N more post H2)
      by (rewrite length_app; lia).
    cbn [length]. now rewrite <- app_assoc, N_of_nat_succ.
Qed.

(** The defect of the loop: when the entries of [last] fill the term
    bank, the next line is taken from the file and dropped, whatever it
    holds; the index is not advanced for it. *)
Lemma loop_drops_line (pre rest : list str) (last line : str)
  (tb es el : list Entry) (index : N) :
  entries_from pre index = Ok es ->
  length tb + length es < TERM_BANK_SIZE ->
  create_entries last (index + N.of_nat (length pre))%N = Ok el ->
  TERM_BANK_SIZE <= length tb + length es + length el ->
  create_termbank_loop (pre ++ last :: line :: rest) tb index
  = Ok ((tb ++ es) ++ el, rest, (index + N.of_nat (length pre) + 1)%N).
Proof.
  intros Hpre Hlen Hlast Hfull.
  rewrite (loop_prefix pre tb index es _ Hpre Hlen).
  cbn [Main.create_termbank_loop].
  replace (TERM_BANK_SIZE <=? length (tb ++ es)) with false
    by (symmetry; apply Nat.leb_gt; rewrite length_app; lia).
  rewrite Hlast.
  replace (TERM_BANK_SIZE <=? length ((tb ++ es) ++ el)) with true
    by (symmetry; apply Nat.leb_le; rewrite !length_app; lia).
  reflexivity.
Qed.

(** *** Well-formed input never raises, and fills the term banks *)

Lemma loop_ok (lines : list str) :
  forall tb index,
    Forall (fun l => well_formed l = true) lines ->
    exists r, create_termbank_loop lines tb index = Ok r.
Proof.
  induction lines as [|line lines IH]; simpl; intros tb index Hwf.
  - eauto.
  - inversion Hwf as [|? ? Hl Hls]; subst.
    destruct (TERM_BANK_SIZE <=? length tb); eauto.
    destruct (well_formed_entries decode_pinyin args line index Hl)
      as (es & -> & _).
    auto.
Qed.

(** A call that leaves lines in the file returns a full term bank. *)
Lemma loop_full (lines : list str) :
  forall tb index tb' rest index',
    create_termbank_loop lines tb index = Ok (tb', rest, index') ->
    rest <> [] ->
    TERM_BANK_SIZE <= length tb'.
Proof.
  induction lines as [|line lines IH]; simpl;
    intros tb index tb' rest index' H Hrest.
  - injection H as <- <- <-. congruence.
  - destruct (TERM_BANK_SIZE <=? length tb) eqn:Hfull.
    + injection H as <- <- <-. now apply Nat.leb_le.
    + destruct (create_entries line index) as [es|e]; try discriminate.
      eapply IH; eauto.
Qed.

Lemma create_termbanks_fuel_wf (fuel : nat) :
  forall lines index banks e,
    Forall (fun l => well_formed l = true) lines ->
    create_termbanks_fuel fuel lines index = Some (banks, e) ->
    e = None
    /\ Forall (fun b => TERM_BANK_SIZE <= length b) (removelast banks).
Proof.
  induction fuel as [|fuel IH]; intros lines index banks e Hwf H;
    [discriminate|].
  cbn [Main.create_termbanks_fuel] in H.
  destruct (loop_ok lines [] index Hwf) as ([[tb rest] index'] & Hc).
  unfold Main.create_termbank in H. rewrite Hc in H.
  destruct tb as [|x tb].
  - injection H as <- <-. split; [reflexivity | constructor].
  - destruct (create_termbanks_fuel fuel rest index') as [[bs e'']|] eqn:Hr;
      try discriminate.
    injection H as <- <-.
    assert (Hb0 : length (@nil Entry) <= S TERM_BANK_SIZE) by (simpl; lia).
    pose proof (loop_bound _ _ _ _ _ _ Hwf Hb0 Hc) as [_ Hrest].
    destruct (IH _ _ _ _ Hrest Hr) as [-> Hbs]. split; [reflexivity|].
    destruct bs as [|b bs]; [constructor|].
    change (removelast ((x :: tb) :: b :: bs))
      with ((x :: tb) :: removelast (b :: bs)).
    constructor; [|exact Hbs].
    eapply loop_full; eauto.
    intros ->. destruct fuel; [discriminate|].
    cbn in Hr. discriminate.
Qed.

End Batcher.

(* ================================================================= *)
(** ** Lines without brackets *)

Lemma In_lstrip (c : char) (s : str) : In c (lstrip s) -> In c s.
Proof.
  induction s as [|x s IH]; simpl; auto.
  destruct (is_space x); simpl; auto.
Qed.

Lemma In_strip (c : char) (s : str) : In c (strip s) -> In c s.
Proof.
  unfold strip, rstrip. intros H.
  apply In_lstrip. apply in_rev. apply In_lstrip. now apply in_rev in H.
Qed.

(** A prefix of [s] only has characters of [s]. *)
Lemma strip_prefix_In (p : str) :
  forall s r c, strip_prefix p s = Some r -> In c p -> In c s.
Proof.
  induction p as [|x p IH]; simpl; intros s r c H Hc; [contradiction|].
  destruct s as [|y s]; try discriminate.
  destruct (eqc x y) eqn:Hxy; try discriminate.
  apply eqc_true in Hxy. subst y. destruct Hc as [<-|Hc].
  - now left.
  - right. eauto.
Qed.

Lemma startswith_In (s p : str) (c : char) :
  startswith s p = true -> In c p -> In c s.
Proof.
  unfold startswith. destruct (strip_prefix p s) eqn:H; try discriminate.
  intros _. eapply strip_prefix_In; eauto.
Qed.

Lemma match_at_In (open : str) (close : char) (s : str) (c : char) :
  Re.match_at open close s <> None -> In c open -> In c s.
Proof.
  unfold Re.match_at. destruct (strip_prefix open s) eqn:H; [|congruence].
  intros _. eapply strip_prefix_In; eauto.
Qed.

(** Without the first character of the opening literal there is nothing
    to substitute. *)
Lemma sub_go_absent (open : str) (close : char) (f : str -> str) (c : char) :
  In c open ->
  forall s, ~ In c s -> Re.sub_go open close f 0 s = s.
Proof.
  intros Hc. induction s as [|x s IH]; intros Hs; [reflexivity|].
  cbn [Re.sub_go].
  destruct (Re.match_at open close (x :: s)) as [[m r]|] eqn:Hm.
  - exfalso. apply Hs.
    apply (@match_at_In open close (x :: s) c); [rewrite Hm; discriminate|].
    exact Hc.
  - f_equal. apply IH. intros H. apply Hs. now right.
Qed.

Lemma first_alt_Some (alts : list str) (s a : str) :
  Re.first_alt alts s = Some a -> In a alts /\ startswith s a = true.
Proof.
  induction alts as [|b alts IH]; simpl; [discriminate|].
  destruct (startswith s b) eqn:Hb.
  - intros H. injection H as <-. auto.
  - intros H. apply IH in H. tauto.
Qed.

(** When every alternative has a character that the text lacks, the text
    is not split. *)
Lemma split_go_absent (alts : list str) :
  forall s maxsplit,
    (forall a, In a alts -> exists c, In c a /\ ~ In c s) ->
    Re.split_go alts maxsplit 0 s = [s].
Proof.
  induction s as [|x s IH]; intros maxsplit Habs; [reflexivity|].
  cbn [Re.split_go].
  destruct maxsplit as [|m]; [reflexivity|].
  destruct (Re.first_alt alts (x :: s)) as [a|] eqn:Ha.
  - exfalso. apply first_alt_Some in Ha. destruct Ha as [Hin Hst].
    destruct (Habs a Hin) as (c & Hc & Hn). apply Hn.
    eapply startswith_In; eauto.
  - rewrite IH; [reflexivity|].
    intros a Hin. destruct (Habs a Hin) as (c & Hc & Hn).
    exists c. split; auto. intros H. apply Hn. now right.
Qed.

Section NoBrackets.

Variable decode_pinyin : str -> str.
Variable args : Args.

Lemma convert_pinyin_no_bracket (line : str) :
  ~ In 91%N line ->
  convert_pinyin decode_pinyin args line = strip line.
Proof.
  intros H. unfold convert_pinyin, sub_brackets, Re.sub.
  assert (Hs : ~ In 91%N (strip line)) by (intros Hc; apply H, In_strip, Hc).
  assert (Ho : In 91%N lit_lbracket) by (simpl; auto).
  rewrite (@sub_go_absent lit_lbracket rbracket _ 91%N Ho _ Hs).
  destruct (negb (is_number args)); [|reflexivity].
  now rewrite (@sub_go_absent lit_lbracket rbracket _ 91%N Ho _ Hs).
Qed.

Lemma create_entries_no_bracket (line : str) (index : N) :
  ~ In 91%N line -> ~ In 93%N line ->
  create_entries decode_pinyin args line index = Raise ValueError.
Proof.
  intros Hl Hr. unfold create_entries.
  rewrite convert_pinyin_no_bracket by assumption.
  unfold Re.split. rewrite split_go_absent; [reflexivity|].
  intros a [<-|[<-|[]]].
  - exists 91%N. split; [simpl; auto|]. intros Hc. apply Hl, In_strip, Hc.
  - exists 93%N. split; [simpl; auto|]. intros Hc. apply Hr, In_strip, Hc.
Qed.

End NoBrackets.

(* ================================================================= *)
(** ** A line that raises, in any term bank *)

Section Propagation.

Variable decode_pinyin : str -> str.
Variable args : Args.

Local Abbreviation create_entries := (create_entries decode_pinyin args).
Local Abbreviation create_termbank_loop := (create_termbank_loop decode_pinyin args).
Local Abbreviation create_termbank := (create_termbank decode_pinyin args).
Local Abbreviation create_termbanks_fuel := (create_termbanks_fuel decode_pinyin args).
Local Abbreviation create_termbanks := (create_termbanks decode_pinyin args).

Local Opaque TERM_BANK_SIZE.

(** A call that returned before the end of the file returns the same
    term bank when lines are added at the end of the file. *)
Lemma loop_more_lines (pre : list str) :
  forall tb index tb' rest index' extra,
    create_termbank_loop pre tb index = Ok (tb', rest, index') ->
    rest <> [] ->
    create_termbank_loop (pre ++ extra) tb index
    = Ok (tb', rest ++ extra, index').
Proof.
  induction pre as [|l pre IH]; cbn [app Main.create_termbank_loop];
    intros tb index tb' rest index' extra H Hrest.
  - injection H as <- <- <-. congruence.
  - destruct (TERM_BANK_SIZE <=? length tb).
    + now injection H as <- <- <-.
    + destruct (create_entries l index) as [es|e]; [|discriminate].
      now apply IH.
Qed.

(** A call that came to the end of the file with a term bank that is not
    full goes on with the lines added at the end of the file. *)
Lemma loop_goes_on (pre : list str) :
  forall tb index tb' index' extra,
    create_termbank_loop pre tb index = Ok (tb', [], index') ->
    length tb' < TERM_BANK_SIZE ->
    create_termbank_loop (pre ++ extra) tb index
    = create_termbank_loop extra tb' index'.
Proof.
  induction pre as [|l pre IH]; cbn [app Main.create_termbank_loop];
    intros tb index tb' index' extra H Hlen.
  - now injection H as <- <-.
  - destruct (TERM_BANK_SIZE <=? length tb) eqn:Hfull.
    + injection H as <- -> <-. apply Nat.leb_le in Hfull. lia.
    + destruct (create_entries l index) as [es|e]; [|discriminate].
      now apply IH.
Qed.

(** The loop raises at a line that raises, when the term bank is not
    full. *)
Lemma loop_raises_at (line : str) (rest : list str) (tb : TermBank)
  (index : N) (e : exn) :
  length tb < TERM_BANK_SIZE ->
  create_entries line index = Raise e ->
  create_termbank_loop (line :: rest) tb index = Raise e.
Proof.
  intros Hlen Hr. cbn [Main.create_termbank_loop].
  replace (TERM_BANK_SIZE <=? length tb) with false
    by (symmetry; apply Nat.leb_gt; exact Hlen).
  now rewrite Hr.
Qed.

Lemma create_termbanks_fuel_more (k fuel : nat) (lines : list str)
  (index : N) (r : list TermBank * option exn) :
  create_termbanks_fuel fuel lines index = Some r ->
  create_termbanks_fuel (k + fuel) lines index = Some r.
Proof.
  intros H. induction k as [|k IH]; [exact H|].
  now apply create_termbanks_fuel_mono.
Qed.

(** The run over a file that goes on with a line that raises: the term
    banks but the last are yielded as before, then the exception ends
    the run. *)
Lemma create_termbanks_fuel_raises (line : str) (post : list str) (e : exn) :
  (forall index, create_entries line index = Raise e) ->
  forall fuel pre index banks,
    create_termbanks_fuel fuel pre index = Some (banks, None) ->
    length (last banks []) < TERM_BANK_SIZE ->
    exists fuel',
      create_termbanks_fuel fuel' (pre ++ line :: post) index
      = Some (removelast banks, Some e).
Proof.
  intros Hline. induction fuel as [|fuel IH];
    intros pre index banks H Hlast; [discriminate|].
  cbn [Main.create_termbanks_fuel] in H.
  destruct (create_termbank pre index) as [[[tb rest] index']|e0] eqn:Hc;
    [|discriminate].
  unfold Main.create_termbank in Hc.
  destruct rest as [|r rest].
  - (* the call came to the end of the file *)
    assert (Hb : banks = [] /\ tb = [] \/ banks = [tb]).
    { destruct tb as [|x tb]; [left; now injection H as <-|]. right.
      destruct fuel as [|fuel]; [discriminate|].
      cbn [Main.create_termbanks_fuel] in H. unfold Main.create_termbank in H.
      cbn [Main.create_termbank_loop] in H. now injection H as <-. }
    assert (Htb : length tb < TERM_BANK_SIZE).
    { destruct Hb as [[_ ->]| ->]; [apply TERM_BANK_SIZE_pos | exact Hlast]. }
    exists 1. cbn [Main.create_termbanks_fuel]. unfold Main.create_termbank.
    rewrite (loop_goes_on pre [] index tb index' (line :: post) Hc Htb).
    rewrite (loop_raises_at line post tb index' e Htb (Hline index')).
    destruct Hb as [[-> _]| ->]; reflexivity.
  - (* the call returned a full term bank *)
    assert (Hfull : TERM_BANK_SIZE <= length tb)
      by (eapply loop_full; [exact Hc | discriminate]).
    destruct tb as [|x tb].
    { pose proof TERM_BANK_SIZE_pos. simpl in Hfull. lia. }
    destruct (create_termbanks_fuel fuel (r :: rest) index')
      as [[bs e']|] eqn:Hrun; [|discriminate].
    injection H as <- ->.
    destruct bs as [|b bs]; [cbn [last] in Hlast; lia|].
    destruct (IH (r :: rest) index' (b :: bs) Hrun Hlast) as [fuel' Hext].
    exists (S fuel'). cbn [Main.create_termbanks_fuel].
    unfold Main.create_termbank.
    rewrite (loop_more_lines pre [] index (x :: tb) (r :: rest) index'
               (line :: post) Hc) by discriminate.
    now rewrite Hext.
Qed.

Lemma create_termbanks_raises_later (pre post : list str) (line : str)
  (banks : list TermBank) (e : exn) :
  (forall index, create_entries line index = Raise e) ->
  create_termbanks pre = Some (banks, None) ->
  length (last banks []) < TERM_BANK_SIZE ->
  create_termbanks (pre ++ line :: post) = Some (removelast banks, Some e).
Proof.
  intros Hline Hpre Hlast.
  destruct (create_termbanks_fuel_raises line post e Hline _ pre 1%N banks
              Hpre Hlast) as [fuel' Hext].
  destruct (create_termbanks_total decode_pinyin args (pre ++ line :: post))
    as (b2 & e2 & Htot).
  rewrite Htot. unfold Main.create_termbanks in Htot.
  apply (create_termbanks_fuel_more fuel') in Htot.
  apply (create_termbanks_fuel_more (S (length (pre ++ line :: post)))) in Hext.
  rewrite Nat.add_comm in Hext. congruence.
Qed.

End Propagation.

(* ================================================================= *)
(** ** The claims on the batcher and on the loop body *)

(** C1.  The concatenation of the term banks is the sequence of the
    entries of all lines: this fails on the code.  The line that the
    [for] statement takes from the file when the term bank is full is
    not processed and is lost.  Here the file has 4000 lines with one
    entry each and a last line, whose entry is in no term bank. *)
Theorem C1_line_read_at_full_bank_is_lost :
  entries_from decoder defaults (repeat yi_line 4000 ++ [er_line]) 1%N
  = Ok (map yi_entry (indices 4000) ++ [er_entry 4001%N])
  /\ create_termbanks decoder defaults (repeat yi_line 4000 ++ [er_line])
     = Some ([map yi_entry (indices 4000)], None).
Proof. split; vm_compute; reflexivity. Qed.

(** C2, as stated, fails: 3999 lines with one entry each followed by a
    line with two entries give a term bank of 4001 entries. *)
Lemma C2_counterexample :
  create_termbanks decoder defaults (repeat yi_line 3999 ++ [ke_line])
  = Some ([map yi_entry (indices 3999)
           ++ [ke_entry (py "課") 4000%N; ke_entry (py "课") 4000%N]], None)
  /\ length (map yi_entry (indices 3999)
             ++ [ke_entry (py "課") 4000%N; ke_entry (py "课") 4000%N])
     = S TERM_BANK_SIZE.
Proof. split; vm_compute; reflexivity. Qed.

(** C2, amended.  On well-formed lines the generator ends without
    exception, every term bank it yields has at least one and at most
    [TERM_BANK_SIZE + 1] entries, and every term bank but the last has at
    least [TERM_BANK_SIZE]: the size is tested before a line is
    processed, and a line adds up to two entries. *)
Theorem C2_term_bank_size (decode_pinyin : str -> str) (args : Args)
  (lines : list str) :
  Forall (fun l => well_formed decode_pinyin args l = true) lines ->
  exists banks,
    create_termbanks decode_pinyin args lines = Some (banks, None)
    /\ Forall (fun b => 1 <= length b <= S TERM_BANK_SIZE) banks
    /\ Forall (fun b => TERM_BANK_SIZE <= length b) (removelast banks).
Proof.
  intros Hwf.
  destruct (create_termbanks_total decode_pinyin args lines) as (banks & e & H).
  pose proof H as H'. unfold create_termbanks in H'.
  destruct (create_termbanks_fuel_wf _ _ _ _ _ _ _ Hwf H') as [-> Hfull].
  exists banks. split; [exact H|]. split; [|exact Hfull].
  eapply create_termbanks_fuel_bound; eauto.
Qed.

Lemma C2_term_bank_size_witness :
  exists banks,
    create_termbanks decoder defaults [ke_line; yi_line] = Some (banks, None)
    /\ Forall (fun b => 1 <= length b <= S TERM_BANK_SIZE) banks
    /\ Forall (fun b => TERM_BANK_SIZE <= length b) (removelast banks).
Proof.
  apply (@C2_term_bank_size decoder defaults [ke_line; yi_line]).
  repeat constructor.
Defined.

(** C3, as stated, fails: the line does give two entries, for "課" and
    "课", read "kè", with one index, but their glosses are not the seven
    definitions. *)
Lemma C3_counterexample :
  exists e1 e2,
    create_entries decoder defaults ke_line 1%N = Ok [e1; e2]
    /\ headword e1 = py "課" /\ headword e2 = py "课"
    /\ glosses e1 = ke_glosses /\ glosses e2 = ke_glosses
    /\ ke_glosses <> ke_glosses_by_definition.
Proof.
  exists (ke_entry (py "課") 1%N), (ke_entry (py "课") 1%N).
  repeat split; try (vm_compute; reflexivity).
  vm_compute. discriminate.
Qed.

(** C3, amended.  With the default flags the line of the comment gives
    two entries, for "課" and "课", both read "kè", both with the index of
    the line and both with three glosses: the definitions between two
    classifiers are joined by ", " into one gloss, which ends with the
    classifier in parentheses, "CL: " included. *)
Theorem C3_ke_line_entries (index : N) :
  create_entries decoder defaults ke_line index
  = Ok [ mkEntry (py "課") (py "kè") [] [] 2%N
           [ py "subject, course (CL: 門|门[mén])";
             py "class, lesson (CL: 堂[táng], 節|节[jié])";
             py "to levy, tax, form of divination" ] index [];
         mkEntry (py "课") (py "kè") [] [] 2%N
           [ py "subject, course (CL: 門|门[mén])";
             py "class, lesson (CL: 堂[táng], 節|节[jié])";
             py "to levy, tax, form of divination" ] index [] ].
Proof. vm_compute. reflexivity. Qed.

(** C4.  The index of an entry is the position of its line in the
    input: this fails on the code, by the defect of C1.  The line lost at
    a full term bank does not advance the index, so every later line is
    numbered one too low.  Here the last line is the 4002nd and its entry
    has the index 4001. *)
Theorem C4_index_after_lost_line :
  nth_error (repeat yi_line 4001 ++ [er_line]) 4001 = Some er_line
  /\ create_termbanks decoder defaults (repeat yi_line 4001 ++ [er_line])
     = Some ([map yi_entry (indices 4000); [er_entry 4001%N]], None).
Proof. split; vm_compute; reflexivity. Qed.

(** C8, as stated, fails: a line whose meaning is not delimited by
    slashes is accepted, the meaning is taken as it is. *)
Lemma C8_counterexample :
  create_entries decoder defaults no_slash_line 1%N
  = Ok [ mkEntry (py "課") (py "kè") [] [] 2%N [py "subject"] 1%N [];
         mkEntry (py "课") (py "kè") [] [] 2%N [py "subject"] 1%N [] ].
Proof. vm_compute. reflexivity. Qed.

(** C8, amended.  A line without any bracket cannot be split in three:
    whenever the loop body processes it, it raises [ValueError] (the code
    has no error of its own).  The loop processes the line whenever it
    reaches it with a term bank that is not full, and the call of
    [create_termbank] ends with the exception.  When the line follows
    lines [pre] whose run ends with a term bank that is not full, the
    exception ends the generator: the term banks yielded before stay,
    the term bank being filled is not yielded, nothing follows.  No
    test is made on the slashes of the meaning. *)
Theorem C8_line_without_brackets_raises (decode_pinyin : str -> str)
  (args : Args) (pre post : list str) (line : str) (banks : list TermBank) :
  ~ In 91%N line -> ~ In 93%N line ->
  create_termbanks decode_pinyin args pre = Some (banks, None) ->
  length (last banks []) < TERM_BANK_SIZE ->
  (forall index,
      create_entries decode_pinyin args line index = Raise ValueError)
  /\ (forall rest termbank index,
         length termbank < TERM_BANK_SIZE ->
         create_termbank_loop decode_pinyin args (line :: rest) termbank index
         = Raise ValueError)
  /\ create_termbanks decode_pinyin args (pre ++ line :: post)
     = Some (removelast banks, Some ValueError).
Proof.
  intros Hl Hr Hpre Hlast.
  assert (Hline : forall index,
             create_entries decode_pinyin args line index = Raise ValueError)
    by (intros index; now apply create_entries_no_bracket).
  split; [exact Hline|]. split.
  - intros rest termbank index Hlen. now apply loop_raises_at.
  - now apply create_termbanks_raises_later.
Qed.

Lemma C8_line_without_brackets_raises_witness :
  (forall index,
      create_entries decoder defaults no_bracket_line index = Raise ValueError)
  /\ (forall rest termbank index,
         length termbank < TERM_BANK_SIZE ->
         create_termbank_loop decoder defaults (no_bracket_line :: rest)
                              termbank index
         = Raise ValueError)
  /\ create_termbanks decoder defaults
       ((repeat yi_line 4001 ++ [er_line]) ++ no_bracket_line :: [yi_line])
     = Some ([map yi_entry (indices 4000)], Some ValueError).
Proof.
  apply (C8_line_without_brackets_raises decoder defaults
           (repeat yi_line 4001 ++ [er_line]) [yi_line] no_bracket_line
           [map yi_entry (indices 4000); [er_entry 4001%N]]).
  - vm_compute. intuition discriminate.
  - vm_compute. intuition discriminate.
  - vm_compute. reflexivity.
  - vm_compute. lia.
Defined.

(* ================================================================= *)
(** ** Prefixes *)

Lemma strip_prefix_Some (p : str) :
  forall s r, strip_prefix p s = Some r <-> s = p ++ r.
Proof.
  induction p as [|x p IH]; simpl; intros s r.
  - split; [intros H; now injection H | intros ->; reflexivity].
  - destruct s as [|y s].
    + split; discriminate.
    + destruct (eqc x y) eqn:Hxy.
      * apply eqc_true in Hxy. subst y. rewrite IH. split.
        -- intros ->. reflexivity.
        -- intros H. now injection H.
      * apply eqc_false in Hxy. split; [discriminate|].
        intros H. injection H as -> _. congruence.
Qed.

Lemma startswith_app (p r : str) : startswith (p ++ r) p = true.
Proof.
  unfold startswith.
  now rewrite (proj2 (strip_prefix_Some p (p ++ r) r) eq_refl).
Qed.

Lemma startswith_true (s p : str) :
  startswith s p = true -> exists r, s = p ++ r.
Proof.
  unfold startswith. destruct (strip_prefix p s) as [r|] eqn:H;
    [|discriminate].
  intros _. exists r. now apply strip_prefix_Some.
Qed.

(* ================================================================= *)
(** ** [re.sub], one match at a time *)

Lemma lazy_until_Some (close : char) (s : str) :
  forall m r, Re.lazy_until close s = Some (m, r) ->
              s = m ++ r /\ m <> [].
Proof.
  induction s as [|c s IH]; simpl; intros m r H; [discriminate|].
  destruct (eqc c close).
  - injection H as <- <-. split; [reflexivity | discriminate].
  - destruct (eqc c Re.newline); [discriminate|].
    destruct (Re.lazy_until close s) as [[m' r']|]; [|discriminate].
    injection H as <- <-. destruct (IH m' r' eq_refl) as [-> _].
    split; [reflexivity | discriminate].
Qed.

(** The lazy part stops at the first [close]. *)
Lemma lazy_until_app (close : char) (body rest : str) :
  ~ In close body -> ~ In Re.newline body ->
  Re.lazy_until close (body ++ close :: rest) = Some (body ++ [close], rest).
Proof.
  induction body as [|c body IH]; intros Hc Hn.
  - simpl. now rewrite eqc_refl.
  - cbn [app Re.lazy_until].
    replace (eqc c close) with false
      by (symmetry; apply eqc_false; intros ->; apply Hc; now left).
    replace (eqc c Re.newline) with false
      by (symmetry; apply eqc_false; intros ->; apply Hn; now left).
    rewrite IH; [reflexivity | |]; intros H; [apply Hc | apply Hn]; now right.
Qed.

Lemma match_at_Some (open : str) (close : char) (s m r : str) :
  Re.match_at open close s = Some (m, r) -> s = m ++ r /\ m <> [].
Proof.
  unfold Re.match_at.
  destruct (strip_prefix open s) as [[|c s']|] eqn:Hp; try discriminate.
  destruct (eqc c Re.newline); [discriminate|].
  destruct (Re.lazy_until close s') as [[m' r']|] eqn:Hl; [|discriminate].
  intros H. injection H as <- <-.
  apply strip_prefix_Some in Hp. apply lazy_until_Some in Hl.
  destruct Hl as [-> _]. split.
  - rewrite Hp, <- app_assoc. reflexivity.
  - destruct open; discriminate.
Qed.

Lemma sub_go_skip (open : str) (close : char) (f : str -> str) (a : str) :
  forall r, Re.sub_go open close f (length a) (a ++ r)
            = Re.sub_go open close f 0 r.
Proof.
  induction a as [|x a IH]; intros r; simpl.
  - destruct r; reflexivity.
  - apply IH.
Qed.

Lemma sub_match (open : str) (close : char) (f : str -> str) (s m r : str) :
  Re.match_at open close s = Some (m, r) ->
  Re.sub open close f s = f m ++ Re.sub open close f r.
Proof.
  intros H. destruct (match_at_Some _ _ _ _ _ H) as [Hs Hm].
  destruct m as [|x m]; [congruence|]. unfold Re.sub.
  destruct s as [|c s]; [discriminate|]. cbn [Re.sub_go]. rewrite H.
  injection Hs as -> ->. cbn [length pred]. now rewrite sub_go_skip.
Qed.

Lemma sub_no_match (open : str) (close : char) (f : str -> str)
  (c : char) (s : str) :
  Re.match_at open close (c :: s) = None ->
  Re.sub open close f (c :: s) = c :: Re.sub open close f s.
Proof. unfold Re.sub. cbn [Re.sub_go]. now intros ->. Qed.

(** Text without the first character of the opening literal is kept. *)
Lemma sub_plain (x : char) (open : str) (close : char) (f : str -> str)
  (t rest : str) :
  ~ In x t ->
  Re.sub (x :: open) close f (t ++ rest)
  = t ++ Re.sub (x :: open) close f rest.
Proof.
  induction t as [|c t IH]; intros Hx; [reflexivity|].
  cbn [app]. rewrite sub_no_match.
  - f_equal. apply IH. intros H. apply Hx. now right.
  - unfold Re.match_at. cbn [strip_prefix].
    replace (eqc x c) with false; [reflexivity|].
    symmetry. apply eqc_false. intros ->. apply Hx. now left.
Qed.

(** A segment is matched whole and replaced. *)
Lemma sub_segment (open : str) (close : char) (f : str -> str)
  (body rest : str) :
  open <> [] ->
  body <> [] -> ~ In close body -> ~ In Re.newline body ->
  Re.sub open close f (open ++ body ++ close :: rest)
  = f (open ++ body ++ [close]) ++ Re.sub open close f rest.
Proof.
  intros Ho Hb Hc Hn. apply sub_match. unfold Re.match_at.
  rewrite (proj2 (strip_prefix_Some open _ (body ++ close :: rest)) eq_refl).
  destruct body as [|c body]; [congruence|]. cbn [app].
  replace (eqc c Re.newline) with false
    by (symmetry; apply eqc_false; intros ->; apply Hn; now left).
  rewrite lazy_until_app; [reflexivity | |]; intros H;
    [apply Hc | apply Hn]; now right.
Qed.

(* ================================================================= *)
(** ** [replace], one occurrence at a time *)

(** The characters counted by [skip] are passed over. *)
Lemma replace_go_skip (old new : str) (a : str) :
  forall r, replace_go old new (length a) (a ++ r) = replace_go old new 0 r.
Proof.
  induction a as [|x a IH]; intros r; simpl.
  - destruct r; reflexivity.
  - apply IH.
Qed.

Lemma replace_match (x : char) (old new r : str) :
  replace ((x :: old) ++ r) (x :: old) new = new ++ replace r (x :: old) new.
Proof.
  unfold replace. change ((x :: old) ++ r) with (x :: (old ++ r)).
  cbn [replace_go].
  change (x :: old ++ r) with ((x :: old) ++ r).
  rewrite startswith_app. cbn [length pred].
  now rewrite replace_go_skip.
Qed.

Lemma replace_no_match (c : char) (s old new : str) :
  startswith (c :: s) old = false ->
  replace (c :: s) old new = c :: replace s old new.
Proof. unfold replace. cbn [replace_go]. now intros ->. Qed.

(** Induction along the occurrences that [replace] finds. *)
Lemma replace_ind (x : char) (old new : str) (P : str -> str -> Prop) :
  P [] [] ->
  (forall r out, P r out -> P ((x :: old) ++ r) (new ++ out)) ->
  (forall c s out,
      startswith (c :: s) (x :: old) = false -> P s out ->
      P (c :: s) (c :: out)) ->
  forall s, P s (replace s (x :: old) new).
Proof.
  intros Hnil Hmatch Hstep s.
  remember (length s) as n eqn:Hn. revert s Hn.
  induction n as [n IH] using lt_wf_ind. intros [|c s] Hn.
  - exact Hnil.
  - destruct (startswith (c :: s) (x :: old)) eqn:Hst.
    + apply startswith_true in Hst. destruct Hst as [r Hr].
      rewrite Hr, replace_match. apply Hmatch.
      apply (IH (length r)); [|reflexivity].
      subst n. rewrite Hr. simpl. rewrite length_app. lia.
    + rewrite replace_no_match by assumption. apply Hstep; [assumption|].
      apply (IH (length s)); [subst n; simpl; lia | reflexivity].
Qed.

(** The characters of the result come from the text or from [new]. *)
Lemma replace_In (x : char) (old new s : str) (c : char) :
  In c (replace s (x :: old) new) -> In c s \/ In c new.
Proof.
  pattern s, (replace s (x :: old) new). apply replace_ind.
  - intros [].
  - intros r out IH H. apply in_app_or in H. destruct H as [H|H]; auto.
    destruct (IH H) as [H'|H']; auto. left. apply in_or_app. now right.
  - intros c' s' out _ IH [<-|H]; [left; now left|].
    destruct (IH H) as [H'|H']; auto. left. now right.
Qed.

(** What [old] and [new] both lack is kept in place. *)
Lemma replace_filter (x : char) (old new s : str) (p : char -> bool) :
  filter p (x :: old) = [] -> filter p new = [] ->
  filter p (replace s (x :: old) new) = filter p s.
Proof.
  intros Ho Hn. pattern s, (replace s (x :: old) new). apply replace_ind.
  - reflexivity.
  - intros r out IH. rewrite !filter_app, Ho, Hn, IH. reflexivity.
  - intros c s' out _ IH. simpl. rewrite IH. reflexivity.
Qed.

Lemma replace_nonempty (x : char) (old new s : str) :
  s <> [] -> new <> [] -> replace s (x :: old) new <> [].
Proof.
  intros Hs Hn. destruct s as [|c s]; [congruence|].
  destruct (startswith (c :: s) (x :: old)) eqn:Hst.
  - apply startswith_true in Hst. destruct Hst as [r ->].
    rewrite replace_match. destruct new; [congruence | discriminate].
  - rewrite replace_no_match by assumption. discriminate.
Qed.

Lemma startswith_absent (s old : str) (c : char) :
  In c old -> ~ In c s -> startswith s old = false.
Proof.
  intros Ho Hs. destruct (startswith s old) eqn:H; [|reflexivity].
  exfalso. apply Hs. eapply startswith_In; eauto.
Qed.

(** Nothing is replaced in a text that lacks a character of [old]. *)
Lemma replace_absent (old new : str) (c : char) :
  In c old -> forall s, ~ In c s -> replace s old new = s.
Proof.
  intros Ho. unfold replace. induction s as [|x s IH]; intros Hs;
    [reflexivity|].
  cbn [replace_go]. rewrite (@startswith_absent (x :: s) old c Ho Hs).
  f_equal. apply IH. intros H. apply Hs. now right.
Qed.

Lemma startswith_snoc (old : str) (z : char) :
  ~ In z old ->
  forall s, startswith (s ++ [z]) old = startswith s old.
Proof.
  unfold startswith. induction old as [|o old IH]; intros Hz s;
    [reflexivity|].
  destruct s as [|y s]; simpl.
  - replace (eqc o z) with false; [reflexivity|].
    symmetry. apply eqc_false. intros ->. apply Hz. now left.
  - destruct (eqc o y); [|reflexivity].
    apply IH. intros H. apply Hz. now right.
Qed.

(** A final character foreign to [old] stays where it is. *)
Lemma replace_snoc (x : char) (old new s : str) (z : char) :
  ~ In z (x :: old) ->
  replace (s ++ [z]) (x :: old) new = replace s (x :: old) new ++ [z].
Proof.
  intros Hz. pattern s, (replace s (x :: old) new). apply replace_ind.
  - simpl. rewrite replace_no_match; [reflexivity|].
    exact (startswith_snoc (x :: old) z Hz []).
  - intros r out IH. rewrite <- !app_assoc, replace_match, IH. reflexivity.
  - intros c s' out Hst IH. cbn [app]. rewrite replace_no_match.
    + now rewrite IH.
    + change (c :: s' ++ [z]) with ((c :: s') ++ [z]).
      now rewrite startswith_snoc.
Qed.

(* ================================================================= *)
(** ** Lower case *)

Lemma lower_app (a b : str) : lower (a ++ b) = lower a ++ lower b.
Proof. apply map_app. Qed.

(** Only letters are the lower case of another character. *)
Lemma lower_char_inv (c z : char) :
  lower_char c = z -> (z < 97)%N -> c = z.
Proof.
  unfold lower_char.
  destruct ((65 <=? c) && (c <=? 90))%N eqn:H.
  { apply andb_true_iff in H. rewrite !N.leb_le in H. lia. }
  destruct ((192 <=? c) && (c <=? 222) && negb (c =? 215))%N eqn:H'; [|auto].
  rewrite !andb_true_iff, !N.leb_le in H'. lia.
Qed.

Lemma lower_In (z : char) (s : str) :
  (z < 97)%N -> In z (lower s) -> In z s.
Proof.
  intros Hz H. apply in_map_iff in H. destruct H as (c & Hc & Hin).
  now rewrite <- (lower_char_inv c z Hc Hz).
Qed.

(* ================================================================= *)
(** ** The pinyin of the bracketed segments *)

Section Segments.

Variable decode_pinyin : str -> str.

Lemma format_pinyin_bracketed (body : str) :
  format_pinyin (bracketed body) = bracketed (format_body body).
Proof.
  unfold format_pinyin, bracketed, format_body, lit_lbracket, rbracket,
    PinyinToneDecoder.lit_u_colon.
  rewrite !lower_app. change (lower [91%N]) with [91%N].
  change (lower [93%N]) with [93%N]. cbn [app].
  rewrite replace_no_match by reflexivity. f_equal.
  apply replace_snoc. simpl. intros [H|[H|[]]]; discriminate.
Qed.

Lemma format_body_ok (body : str) :
  segment_body body -> segment_body (format_body body).
Proof.
  intros (Hne & Hc & Hn). unfold format_body,
    PinyinToneDecoder.lit_u_colon, PinyinToneDecoder.lit_u_umlaut.
  split; [|split].
  - apply replace_nonempty; [|discriminate].
    destruct body; [congruence | discriminate].
  - intros H. apply replace_In in H. destruct H as [H|[H|[]]];
      [|discriminate].
    apply Hc. apply lower_In; [lia | exact H].
  - intros H. apply replace_In in H. destruct H as [H|[H|[]]];
      [|discriminate].
    apply Hn. apply lower_In; [unfold Re.newline; lia | exact H].
Qed.

Lemma text_of_cons (p : piece) (ps : list piece) :
  text_of (p :: ps) = piece_text p ++ text_of ps.
Proof. reflexivity. Qed.

(** [re.sub] on a text in pieces works on each segment. *)
Lemma sub_brackets_pieces (f : str -> str) (ps : list piece) :
  Forall piece_ok ps ->
  sub_brackets f (text_of ps) = on_segments f ps.
Proof.
  unfold sub_brackets, lit_lbracket.
  induction ps as [|p ps IH]; intros Hok; [reflexivity|].
  inversion Hok as [|? ? Hp Hps]; subst.
  rewrite text_of_cons. unfold on_segments. cbn [map concat].
  fold (on_segments f ps). rewrite <- (IH Hps).
  destruct p as [t|body]; cbn [piece_text].
  - now apply sub_plain.
  - destruct Hp as (Hne & Hc & Hn).
    unfold bracketed, lit_lbracket. rewrite <- !app_assoc. cbn [app].
    change (91%N :: body ++ rbracket :: text_of ps)
      with ([91%N] ++ body ++ rbracket :: text_of ps).
    rewrite sub_segment; try assumption; [reflexivity | discriminate].
Qed.

Lemma on_segments_format (ps : list piece) :
  on_segments format_pinyin ps = text_of (map format_piece ps).
Proof.
  unfold on_segments, text_of. rewrite map_map. f_equal.
  apply map_ext. intros [t|body]; [reflexivity|].
  apply format_pinyin_bracketed.
Qed.

Lemma format_piece_ok (ps : list piece) :
  Forall piece_ok ps -> Forall piece_ok (map format_piece ps).
Proof.
  intros H. apply Forall_map. revert H. apply Forall_impl.
  intros [t|body]; simpl; [auto | apply format_body_ok].
Qed.

(** What [convert_pinyin] does to a line whose text is cut in pieces. *)
Lemma convert_pinyin_pieces (args : Args) (line : str) (ps : list piece) :
  Forall piece_ok ps ->
  strip line = text_of ps ->
  convert_pinyin decode_pinyin args line
  = on_segments (pinyin_of_segment decode_pinyin args) ps.
Proof.
  intros Hok Hline. unfold convert_pinyin, pinyin_of_segment. rewrite Hline.
  rewrite sub_brackets_pieces by assumption.
  destruct (is_number args); cbn [negb]; [reflexivity|].
  rewrite on_segments_format.
  rewrite sub_brackets_pieces by now apply format_piece_ok.
  unfold on_segments, to_pinyin. rewrite map_map. f_equal.
  apply map_ext. intros [t|body]; [reflexivity|]. cbn [format_piece].
  now rewrite format_pinyin_bracketed.
Qed.

End Segments.

(* ================================================================= *)
(** ** A line of the documented shape *)

Section RawLine.

Variable decode_pinyin : str -> str.
Variable args : Args.

Local Abbreviation alts := [lit_space_lbracket; lit_rbracket_space].

Lemma first_alt_plain (c : char) (s : str) :
  c <> 93%N -> (forall y s', s = y :: s' -> y <> 91%N) ->
  Re.first_alt alts (c :: s) = None.
Proof.
  intros Hc Hs. unfold Re.first_alt, startswith, lit_space_lbracket,
    lit_rbracket_space. cbn [strip_prefix].
  replace (eqc 93%N c) with false
    by (symmetry; apply eqc_false; congruence).
  destruct (eqc 32%N c); [|reflexivity].
  destruct s as [|y s']; [reflexivity|].
  replace (eqc 91%N y) with false; [reflexivity|].
  symmetry. apply eqc_false. intros E. now apply (Hs y s' eq_refl).
Qed.

(** Text without brackets is one part, up to the separator. *)
Lemma split_go_part (sep : str) (a rest : str) (m : nat) :
  sep = lit_space_lbracket \/ sep = lit_rbracket_space ->
  ~ In 91%N a -> ~ In 93%N a ->
  Re.split_go alts (S m) 0 (a ++ sep ++ rest)
  = a :: Re.split_go alts m 0 rest.
Proof.
  intros Hsep. induction a as [|c a IH]; intros Hl Hr.
  - destruct Hsep as [-> | ->]; cbn; destruct rest; reflexivity.
  - cbn [app Re.split_go]. rewrite first_alt_plain.
    + rewrite IH; [reflexivity | |]; intros H; [apply Hl | apply Hr];
        now right.
    + intros ->. apply Hr. now left.
    + intros y s' E. destruct a as [|z a].
      * destruct Hsep as [-> | ->]; cbn in E; injection E as <- _;
          discriminate.
      * cbn in E. injection E as <- _. intros ->. apply Hl. right. now left.
Qed.

Lemma split_go_last (s : str) : Re.split_go alts 0 0 s = [s].
Proof. destruct s; reflexivity. Qed.

(** [split] without argument on a run of characters, then on a space. *)
Lemma split_ws_go_run (t : str) :
  (forall c, In c t -> is_space c = false) ->
  forall cur rest, split_ws_go cur (t ++ rest) = split_ws_go (rev t ++ cur) rest.
Proof.
  induction t as [|c t IH]; intros Ht cur rest; [reflexivity|].
  cbn [app split_ws_go]. rewrite (Ht c) by now left.
  rewrite IH by (intros x Hx; apply Ht; now right).
  cbn [rev]. now rewrite <- app_assoc.
Qed.

Lemma split_ws_two (trad simp : str) :
  character_form trad -> character_form simp ->
  split_ws (trad ++ [32%N] ++ simp) = [trad; simp].
Proof.
  intros [Ht1 Ht2] [Hs1 Hs2]. unfold split_ws.
  rewrite split_ws_go_run by (intros c Hc; now apply Ht2).
  rewrite app_nil_r. cbn [app split_ws_go].
  change (is_space 32%N) with true. cbn match.
  destruct (rev trad) eqn:Hrev.
  - apply (f_equal (@rev char)) in Hrev. rewrite rev_involutive in Hrev.
    simpl in Hrev. congruence.
  - rewrite <- Hrev, rev_involutive. f_equal.
    rewrite <- (app_nil_r simp) at 1.
    rewrite split_ws_go_run by (intros x Hx; now apply Hs2).
    rewrite app_nil_r. cbn [split_ws_go].
    destruct (rev simp) eqn:Hrev'.
    + apply (f_equal (@rev char)) in Hrev'. rewrite rev_involutive in Hrev'.
      simpl in Hrev'. congruence.
    + now rewrite <- Hrev', rev_involutive.
Qed.

Lemma lstrip_head (c : char) (s : str) :
  is_space c = false -> lstrip (c :: s) = c :: s.
Proof. intros H. simpl. now rewrite H. Qed.

(** Text that starts and ends with something else than white space is
    left as it is by [strip]. *)
Lemma strip_ends (c z : char) (a b : str) :
  is_space c = false -> is_space z = false ->
  strip ((c :: a) ++ b ++ [z]) = (c :: a) ++ b ++ [z].
Proof.
  intros Hc Hz. unfold strip, rstrip. cbn [app].
  rewrite lstrip_head by assumption.
  change (c :: a ++ b ++ [z]) with ((c :: a) ++ b ++ [z]).
  rewrite app_assoc, rev_unit, lstrip_head by assumption.
  generalize ((c :: a) ++ b). intros l. cbn [rev].
  now rewrite rev_involutive.
Qed.

Lemma strip_raw_line (trad simp pron defs : str) :
  character_form trad ->
  strip (raw_line trad simp pron defs) = raw_line trad simp pron defs.
Proof.
  intros [Hne Ht]. unfold raw_line.
  destruct trad as [|c trad]; [congruence|].
  replace ([32%N] ++ simp ++ [32%N] ++ bracketed pron
             ++ [32%N; 47%N] ++ defs ++ [47%N])
    with (([32%N] ++ simp ++ [32%N] ++ bracketed pron
             ++ [32%N; 47%N] ++ defs) ++ [47%N])
    by (now rewrite <- !app_assoc).
  apply strip_ends; [|reflexivity]. apply Ht. now left.
Qed.

(** The pinyin of the line: the segment of the pronunciation is
    converted, what comes before it is kept. *)
Lemma pinyin_of_text_segment (a pron rest : str) :
  ~ In 91%N a -> segment_body pron ->
  pinyin_of_text decode_pinyin args (a ++ bracketed pron ++ rest)
  = a ++ pinyin_of_segment decode_pinyin args (bracketed pron)
      ++ pinyin_of_text decode_pinyin args rest.
Proof.
  intros Ha Hp. pose proof (format_body_ok pron Hp) as Hf.
  destruct Hp as (Hne & Hc & Hn). destruct Hf as (Hne' & Hc' & Hn').
  assert (Hsub : forall f body r,
             body <> [] -> ~ In 93%N body -> ~ In Re.newline body ->
             sub_brackets f (a ++ bracketed body ++ r)
             = a ++ f (bracketed body) ++ sub_brackets f r).
  { intros f body r H1 H2 H3. unfold sub_brackets, lit_lbracket.
    rewrite sub_plain by assumption. f_equal.
    unfold bracketed, lit_lbracket. rewrite <- !app_assoc.
    cbn [app].
    change (91%N :: body ++ rbracket :: r)
      with ([91%N] ++ body ++ rbracket :: r).
    rewrite sub_segment; try assumption; [reflexivity | discriminate]. }
  unfold pinyin_of_text, pinyin_of_segment.
  rewrite Hsub by assumption.
  destruct (is_number args); cbn [negb]; [reflexivity|].
  rewrite format_pinyin_bracketed. now rewrite Hsub by assumption.
Qed.

Lemma pinyin_of_text_plain (t rest : str) :
  ~ In 91%N t ->
  pinyin_of_text decode_pinyin args (t ++ rest)
  = t ++ pinyin_of_text decode_pinyin args rest.
Proof.
  intros Ht. unfold pinyin_of_text, sub_brackets, lit_lbracket.
  rewrite sub_plain by assumption.
  destruct (is_number args); cbn [negb]; [reflexivity|].
  now rewrite sub_plain by assumption.
Qed.

Lemma character_form_plain (t : str) (c : char) :
  character_form t -> (c = 91%N \/ c = 93%N) -> ~ In c t.
Proof.
  intros [_ Ht] Hc H. destruct (Ht c H) as (_ & H1 & H2).
  destruct Hc; congruence.
Qed.

(** The three parts of a line of the documented shape: the two
    character forms, the content of the converted segment, and the
    converted meaning. *)
Lemma split_raw_line (trad simp pron defs q : str) :
  character_form trad -> character_form simp -> segment_body pron ->
  pinyin_of_segment decode_pinyin args (bracketed pron) = bracketed q ->
  ~ In 91%N q -> ~ In 93%N q ->
  Re.split alts (convert_pinyin decode_pinyin args
                   (raw_line trad simp pron defs)) 2
  = [ trad ++ [32%N] ++ simp; q;
      47%N :: pinyin_of_text decode_pinyin args (defs ++ [47%N]) ].
Proof.
  intros Ht Hs Hp Hq Hq1 Hq2.
  change (convert_pinyin decode_pinyin args (raw_line trad simp pron defs))
    with (pinyin_of_text decode_pinyin args
            (strip (raw_line trad simp pron defs))).
  rewrite strip_raw_line by assumption. unfold raw_line.
  assert (Hforms : forall c, c = 91%N \/ c = 93%N ->
                             ~ In c (trad ++ [32%N] ++ simp)).
  { intros c Hc H. apply in_app_or in H. destruct H as [H|H].
    - now apply (character_form_plain trad c Ht Hc).
    - apply in_app_or in H. destruct H as [[H|[]]|H].
      + destruct Hc; subst; discriminate.
      + now apply (character_form_plain simp c Hs Hc). }
  replace (trad ++ [32%N] ++ simp ++ [32%N] ++ bracketed pron
             ++ [32%N; 47%N] ++ defs ++ [47%N])
    with (((trad ++ [32%N] ++ simp) ++ [32%N]) ++ bracketed pron
             ++ [32%N; 47%N] ++ defs ++ [47%N])
    by (now rewrite <- !app_assoc).
  rewrite pinyin_of_text_segment; [|
    intros H; apply in_app_or in H; destruct H as [H|[H|[]]];
    [exact (Hforms 91%N (or_introl eq_refl) H) | discriminate] | assumption].
  rewrite Hq, pinyin_of_text_plain
    by (intros [H|[H|[]]]; discriminate).
  unfold Re.split, bracketed, lit_lbracket. rewrite <- !app_assoc.
  change ([32%N] ++ [91%N] ++ q ++ [rbracket] ++ [32%N; 47%N]
            ++ pinyin_of_text decode_pinyin args (defs ++ [47%N]))
    with (lit_space_lbracket ++ q ++ lit_rbracket_space
            ++ 47%N :: pinyin_of_text decode_pinyin args (defs ++ [47%N])).
  rewrite (app_assoc [32%N] simp), (app_assoc trad).
  rewrite split_go_part; auto.
  rewrite split_go_part; auto.
Qed.


(** The entries of a line of the documented shape. *)
Lemma create_entries_raw_line (trad simp pron defs q : str) (index : N) :
  character_form trad -> character_form simp -> segment_body pron ->
  pinyin_of_segment decode_pinyin args (bracketed pron) = bracketed q ->
  ~ In 91%N q -> ~ In 93%N q ->
  create_entries decode_pinyin args (raw_line trad simp pron defs) index
  = Ok (map (fun m =>
               mkEntry m q [] [] 2%N
                 (format_meaning args
                    (47%N :: pinyin_of_text decode_pinyin args
                                            (defs ++ [47%N])))
                 index [])
            (if eqs trad simp then [trad] else [trad; simp])).
Proof.
  intros Ht Hs Hp Hq Hq1 Hq2. unfold create_entries.
  rewrite (split_raw_line trad simp pron defs q) by assumption.
  unfold character_forms. rewrite split_ws_two by assumption.
  destruct (eqs trad simp); reflexivity.
Qed.

Lemma well_formed_raw_line (trad simp pron defs q : str) :
  character_form trad -> character_form simp -> segment_body pron ->
  pinyin_of_segment decode_pinyin args (bracketed pron) = bracketed q ->
  ~ In 91%N q -> ~ In 93%N q ->
  well_formed decode_pinyin args (raw_line trad simp pron defs) = true.
Proof.
  intros Ht Hs Hp Hq Hq1 Hq2. unfold well_formed.
  rewrite (split_raw_line trad simp pron defs q) by assumption.
  now rewrite split_ws_two by assumption.
Qed.

(** With tone numbers the converted segment is a segment again,
    whatever the decoder. *)
Lemma pinyin_of_segment_numbered (pron : str) :
  is_number args = true -> segment_body pron -> ~ In 91%N pron ->
  pinyin_of_segment decode_pinyin args (bracketed pron)
  = bracketed (format_body pron)
  /\ ~ In 91%N (format_body pron) /\ ~ In 93%N (format_body pron).
Proof.
  intros Hn Hp Hl. unfold pinyin_of_segment. rewrite Hn.
  split; [apply format_pinyin_bracketed|].
  destruct (format_body_ok pron Hp) as (_ & Hr & _). split; [|exact Hr].
  unfold format_body, PinyinToneDecoder.lit_u_colon,
    PinyinToneDecoder.lit_u_umlaut.
  intros H. apply replace_In in H. destruct H as [H|[H|[]]]; [|discriminate].
  apply Hl. apply lower_In; [lia | exact H].
Qed.

End RawLine.

(* ================================================================= *)
(** ** The tone decoder *)

Module DecoderFacts.

Import PinyinToneDecoder.

Lemma is_letter_not_colon (c : char) : is_letter c = true -> c <> 58%N.
Proof. intros H ->. vm_compute in H. discriminate. Qed.

Lemma is_tone_digit_cases (d : char) :
  is_tone_digit d = true ->
  d = 49%N \/ d = 50%N \/ d = 51%N \/ d = 52%N \/ d = 53%N.
Proof.
  unfold is_tone_digit. rewrite andb_true_iff, !N.leb_le. lia.
Qed.

Lemma index_of_Some (c : char) (s : str) :
  forall i, index_of c s = Some i ->
            nth_error s i = Some c /\ ~ In c (firstn i s).
Proof.
  induction s as [|x s IH]; simpl; intros i H; [discriminate|].
  destruct (eqc x c) eqn:Hx.
  - injection H as <-. apply eqc_true in Hx. subst. simpl. auto.
  - destruct (index_of c s) as [j|]; simpl in H; try discriminate.
    injection H as <-. destruct (IH j eq_refl) as [Hn Hf].
    simpl. split; [exact Hn|]. apply eqc_false in Hx. intros [E|E]; auto.
Qed.

Lemma index_of_None (c : char) (s : str) :
  index_of c s = None -> ~ In c s.
Proof.
  induction s as [|x s IH]; simpl; intros H; [tauto|].
  destruct (eqc x c) eqn:Hx; try discriminate.
  destruct (index_of c s); simpl in H; try discriminate.
  apply eqc_false in Hx. intros [E|E]; [auto | now apply IH].
Qed.

Lemma ou_at_cons (x : char) (s : str) (j : nat) :
  ou_at (x :: s) (S j) <-> ou_at s j.
Proof. unfold ou_at. simpl. tauto. Qed.

Lemma ou_at_head (x : char) (s : str) :
  ou_at (x :: s) 0 <-> x = 111%N /\ nth_error s 0 = Some 117%N.
Proof.
  unfold ou_at. simpl. split.
  - intros [H1 H2]. injection H1 as ->. auto.
  - intros [-> H]. auto.
Qed.

Lemma head_is_ou (x y : char) :
  eqc x 111%N && eqc y 117%N = true <-> x = 111%N /\ y = 117%N.
Proof. now rewrite andb_true_iff, !eqc_true. Qed.

Lemma index_of_ou_Some (s : str) :
  forall i, index_of_ou s = Some i ->
            ou_at s i /\ (forall j, j < i -> ~ ou_at s j).
Proof.
  induction s as [|x s IH]; intros i H; [discriminate|].
  cbn [index_of_ou] in H. destruct s as [|y s]; [discriminate|].
  destruct (eqc x 111%N && eqc y 117%N) eqn:Hxy.
  - injection H as <-. apply head_is_ou in Hxy. destruct Hxy as [-> ->].
    split; [apply ou_at_head; auto | intros j Hj; lia].
  - destruct (index_of_ou (y :: s)) as [k|]; simpl in H; try discriminate.
    injection H as <-. destruct (IH k eq_refl) as [Hk Hmin].
    split; [now apply ou_at_cons|].
    intros [|j] Hj.
    + rewrite ou_at_head. simpl. intros [-> E]. injection E as ->.
      rewrite !eqc_refl in Hxy. discriminate.
    + rewrite ou_at_cons. apply Hmin. lia.
Qed.

Lemma index_of_ou_None (s : str) :
  index_of_ou s = None -> forall j, ~ ou_at s j.
Proof.
  induction s as [|x s IH]; intros H j.
  - unfold ou_at. destruct j; simpl; intros [E _]; discriminate.
  - cbn [index_of_ou] in H. destruct s as [|y s].
    + unfold ou_at. destruct j as [|[|j]]; simpl; intros [E1 E2]; discriminate.
    + destruct (eqc x 111%N && eqc y 117%N) eqn:Hxy; try discriminate.
      destruct (index_of_ou (y :: s)) as [k|] eqn:Hk; simpl in H;
        try discriminate.
      destruct j as [|j].
      * rewrite ou_at_head. simpl. intros [-> E]. injection E as ->.
        rewrite !eqc_refl in Hxy. discriminate.
      * rewrite ou_at_cons. now apply IH.
Qed.

Lemma last_index_None (p : char -> bool) (s : str) :
  last_index p s = None -> forall c, In c s -> p c = false.
Proof.
  induction s as [|x s IH]; simpl; intros H c Hc; [contradiction|].
  destruct (last_index p s) as [i|]; try discriminate.
  destruct (p x) eqn:Hx; try discriminate.
  destruct Hc as [<-|Hc]; auto.
Qed.

Lemma last_index_Some (p : char -> bool) (s : str) :
  forall i, last_index p s = Some i ->
            exists v, nth_error s i = Some v /\ p v = true
                      /\ (forall c, In c (skipn (S i) s) -> p c = false).
Proof.
  induction s as [|x s IH]; simpl; intros i H; [discriminate|].
  destruct (last_index p s) as [j|] eqn:Hj.
  - injection H as <-. destruct (IH j eq_refl) as (v & Hv & Hp & Hafter).
    exists v. simpl. auto.
  - destruct (p x) eqn:Hx; try discriminate. injection H as <-.
    exists x. simpl. repeat split; auto.
    intros c Hc. eapply last_index_None; eauto.
Qed.

Lemma set_at_nth (f : char -> char) (s : str) :
  forall i v, nth_error s i = Some v ->
              set_at i f s = firstn i s ++ f v :: skipn (S i) s.
Proof.
  induction s as [|x s IH]; intros [|i] v H; simpl in *; try discriminate.
  - injection H as ->. reflexivity.
  - f_equal. now apply IH.
Qed.

(** [select_vowel] follows the placement rule. *)
Lemma select_vowel_Some (body : str) (i : nat) :
  select_vowel body = Some i -> exists v, placement body i v.
Proof.
  unfold select_vowel.
  destruct (index_of 97%N body) as [a|] eqn:Ha.
  { intros H. injection H as <-. exists 97%N.
    apply index_of_Some in Ha. now apply on_a. }
  apply index_of_None in Ha.
  destruct (index_of 101%N body) as [e|] eqn:He.
  { intros H. injection H as <-. exists 101%N.
    apply index_of_Some in He. now apply on_e. }
  apply index_of_None in He.
  destruct (index_of_ou body) as [o|] eqn:Ho.
  { intros H. injection H as <-. exists 111%N.
    apply index_of_ou_Some in Ho. now apply on_ou. }
  pose proof (index_of_ou_None _ Ho) as Hno.
  intros H. apply last_index_Some in H. destruct H as (v & Hv & Hp & Hafter).
  exists v. now apply on_last.
Qed.

(** Without any of the six vowels there is no position. *)
Lemma select_vowel_None (body : str) :
  select_vowel body = None -> forall c, In c body -> ~ In c vowels.
Proof.
  unfold select_vowel.
  destruct (index_of 97%N body) eqn:Ha; try discriminate.
  destruct (index_of 101%N body) eqn:He; try discriminate.
  destruct (index_of_ou body) eqn:Ho; try discriminate.
  intros H c Hc Hv.
  apply index_of_None in Ha, He.
  pose proof (last_index_None _ _ H c Hc) as Hiou.
  simpl in Hv. unfold is_iou, u_umlaut in Hiou.
  rewrite !orb_false_iff, !eqc_false in Hiou.
  destruct Hv as [<-|[<-|[<-|[<-|[<-|[<-|[]]]]]]]; tauto.
Qed.

Lemma select_vowel_vowel (body : str) (c : char) :
  In c body -> In c vowels -> select_vowel body <> None.
Proof. intros Hc Hv H. eapply select_vowel_None; eauto. Qed.

Lemma forallb_rev (p : char -> bool) (s : str) :
  forallb p (rev s) = forallb p s.
Proof.
  induction s as [|x s IH]; simpl; [reflexivity|].
  rewrite forallb_app, IH. simpl. rewrite andb_true_r. apply andb_comm.
Qed.

(** The text of a syllable: letters and a tone digit. *)
Lemma syllable_normal (body : str) (d : char) :
  forallb is_letter body = true -> is_tone_digit d = true ->
  replace (body ++ [d]) lit_u_colon lit_u_umlaut = body ++ [d].
Proof.
  intros Hb Hd. apply replace_absent with (c := 58%N); [simpl; auto|].
  intros H. apply in_app_or in H. destruct H as [H|[->|[]]].
  - rewrite forallb_forall in Hb. now apply (is_letter_not_colon _ (Hb _ H)).
  - vm_compute in Hd. discriminate.
Qed.

Lemma syllable_shape_true (body : str) (d : char) :
  forallb is_letter body = true -> body <> [] -> is_tone_digit d = true ->
  syllable_shape (body ++ [d]) = true.
Proof.
  intros Hb Hne Hd. unfold syllable_shape.
  rewrite syllable_normal by assumption.
  rewrite rev_app_distr. simpl. rewrite Hd, forallb_rev, Hb. simpl.
  destruct (rev body) eqn:Hr; [|reflexivity].
  apply (f_equal (@rev char)) in Hr. rewrite rev_involutive in Hr.
  simpl in Hr. congruence.
Qed.

(** What [decode_syllable] does on a syllable. *)
Lemma decode_syllable_eq (body : str) (d : char) :
  forallb is_letter body = true -> body <> [] -> is_tone_digit d = true ->
  decode_syllable (body ++ [d])
  = if (tone_of d =? 5)%N then body
    else match select_vowel body with
         | Some i => set_at i (tone_mark (tone_of d)) body
         | None => body
         end.
Proof.
  intros Hb Hne Hd. unfold decode_syllable.
  rewrite syllable_shape_true, syllable_normal by assumption.
  now rewrite removelast_last, last_last.
Qed.

Lemma placement_nth (body : str) (i : nat) (v : char) :
  placement body i v -> nth_error body i = Some v.
Proof. intros [| | j _ _ [H _] _ |]; assumption. Qed.

Lemma set_at_length (f : char -> char) (s : str) :
  forall i, length (set_at i f s) = length s.
Proof.
  induction s as [|x s IH]; intros [|i]; simpl; auto.
Qed.

Lemma set_at_forallb (p : char -> bool) (f : char -> char) (s : str) :
  (forall v, p v = true -> p (f v) = true) ->
  forall i, forallb p s = true -> forallb p (set_at i f s) = true.
Proof.
  intros Hf. induction s as [|x s IH]; intros [|i]; simpl; auto;
    rewrite !andb_true_iff; intros [Hx Hs]; auto.
Qed.

(** A marked vowel is no digit. *)
Lemma tone_mark_not_digit (d v : char) :
  is_tone_digit d = true ->
  negb (is_digit v) = true -> negb (is_digit (tone_mark (tone_of d) v)) = true.
Proof.
  intros Hd Hv. unfold tone_mark.
  destruct (index_of v vowels) as [k|]; [|exact Hv].
  destruct (nth_in_or_default k (marked_vowels (tone_of d)) v) as [H| ->];
    [|exact Hv].
  revert H. generalize (nth k (marked_vowels (tone_of d)) v). intros c Hc.
  assert (Hall : forallb (fun c => negb (is_digit c))
                         (marked_vowels (tone_of d)) = true).
  { destruct (is_tone_digit_cases d Hd) as [->|[->|[->|[->| ->]]]];
      vm_compute; reflexivity. }
  rewrite forallb_forall in Hall. now apply Hall.
Qed.

Lemma is_letter_not_digit (c : char) :
  is_letter c = true -> negb (is_digit c) = true.
Proof.
  unfold is_letter, is_digit, eqc, u_umlaut.
  rewrite !orb_true_iff, !andb_true_iff, negb_true_iff, andb_false_iff,
    !N.leb_le, !N.leb_gt, N.eqb_eq.
  lia.
Qed.

(** [lower] keeps the digits, and makes none. *)
Lemma lower_char_small (c : char) : (c < 65)%N -> lower_char c = c.
Proof.
  intros H. unfold lower_char.
  replace (65 <=? c)%N with false by (symmetry; apply N.leb_gt; lia).
  replace (192 <=? c)%N with false by (symmetry; apply N.leb_gt; lia).
  reflexivity.
Qed.

Lemma lower_char_large (c : char) : (65 <= c)%N -> (65 <= lower_char c)%N.
Proof.
  intros H. unfold lower_char.
  destruct ((65 <=? c) && (c <=? 90))%N; [lia|].
  destruct ((192 <=? c) && (c <=? 222) && negb (c =? 215))%N; lia.
Qed.

Lemma lower_char_digit (c : char) : is_digit (lower_char c) = is_digit c.
Proof.
  destruct (N.lt_ge_cases c 65) as [H|H].
  - now rewrite lower_char_small.
  - pose proof (lower_char_large c H) as H'. unfold is_digit.
    transitivity false; [|symmetry]; apply andb_false_iff;
      rewrite !N.leb_gt; lia.
Qed.

Lemma lower_filter_digit (s : str) :
  filter is_digit (lower s) = filter is_digit s.
Proof.
  induction s as [|c s IH]; simpl; [reflexivity|].
  rewrite lower_char_digit, IH.
  destruct (is_digit c) eqn:Hc; [|reflexivity].
  f_equal. apply lower_char_small. unfold is_digit in Hc.
  apply andb_true_iff in Hc. rewrite !N.leb_le in Hc. lia.
Qed.

Lemma is_tone_digit_not_letter (d : char) :
  is_tone_digit d = true -> is_letter d = false.
Proof.
  intros H. destruct (is_tone_digit_cases d H) as [->|[->|[->|[->| ->]]]];
    reflexivity.
Qed.

(** The decoder reads a run of letters up to its end. *)
Lemma decode_go_run (body : str) :
  forallb is_letter body = true ->
  forall run rest,
    decode_go run (body ++ rest) = decode_go (rev body ++ run) rest.
Proof.
  induction body as [|c body IH]; intros Hb run rest; [reflexivity|].
  cbn [forallb] in Hb. apply andb_true_iff in Hb. destruct Hb as [Hc Hb].
  cbn [app decode_go]. rewrite Hc, IH by assumption.
  cbn [rev]. now rewrite <- app_assoc.
Qed.

(** A syllable in a text is decoded as a syllable. *)
Lemma decode_go_syllable (body rest : str) (d : char) :
  forallb is_letter body = true -> body <> [] -> is_tone_digit d = true ->
  decode_go [] (body ++ d :: rest)
  = decode_syllable (body ++ [d]) ++ decode_go [] rest.
Proof.
  intros Hb Hne Hd. rewrite decode_go_run by assumption.
  rewrite app_nil_r. cbn [decode_go].
  rewrite (is_tone_digit_not_letter d Hd), Hd.
  destruct (rev body) eqn:Hrev.
  - apply (f_equal (@rev char)) in Hrev. rewrite rev_involutive in Hrev.
    simpl in Hrev. congruence.
  - now rewrite <- Hrev, rev_involutive.
Qed.

(** The decoder on a bracketed segment that holds one syllable. *)
Lemma decode_pinyin_segment (body : str) (d : char) :
  forallb is_letter body = true -> body <> [] -> is_tone_digit d = true ->
  decode_pinyin (bracketed (body ++ [d]))
  = bracketed (decode_syllable (body ++ [d])).
Proof.
  intros Hb Hne Hd. unfold decode_pinyin.
  rewrite replace_absent with (c := 58%N); [|simpl; auto|].
  - unfold bracketed, lit_lbracket, rbracket. cbn [app decode_go].
    change (is_letter 91%N) with false. cbn match. f_equal.
    rewrite <- app_assoc. cbn [app].
    now rewrite decode_go_syllable by assumption.
  - unfold bracketed, lit_lbracket, rbracket. intros H.
    apply in_app_or in H. destruct H as [[H|[]]|H]; [discriminate|].
    apply in_app_or in H. destruct H as [H|[H|[]]]; [|discriminate].
    apply in_app_or in H. destruct H as [H|[H|[]]].
    + rewrite forallb_forall in Hb. now apply (is_letter_not_colon _ (Hb _ H)).
    + subst d. vm_compute in Hd. discriminate.
Qed.

End DecoderFacts.

(* ================================================================= *)
(** ** The claims on the pinyin of a segment *)

Import PinyinToneDecoder.

Example decode_hao : decode_syllable (py "hao3") = py "hǎo".
Proof. vm_compute. reflexivity. Qed.

Example decode_lian : decode_syllable (py "lian2") = py "lián".
Proof. vm_compute. reflexivity. Qed.

Example decode_dou : decode_syllable (py "dou4") = py "dòu".
Proof. vm_compute. reflexivity. Qed.

Example decode_liu : decode_syllable (py "liu2") = py "liú".
Proof. vm_compute. reflexivity. Qed.

Example decode_lu : decode_syllable (py "lu:4") = py "lǜ".
Proof. vm_compute. reflexivity. Qed.

Example decode_lue : decode_syllable (py "lüe4") = py "lüè".
Proof. vm_compute. reflexivity. Qed.

Example decode_ma : decode_syllable (py "ma5") = py "ma".
Proof. vm_compute. reflexivity. Qed.

(** C5.  For a syllable, letters followed by a tone digit: with the
    digit 5 the result is the letters alone; with a digit from 1 to 4 and
    a vowel among the letters, the result is the letters with the vowel
    at the position given by the placement rule ("a", then "e", then the
    "o" of "ou", then the last of "i", "o", "u", "ü") replaced by that
    vowel with the mark of the tone, and the digit is gone; the marks are
    the macron, the acute, the caron and the grave. *)
Theorem C5_tone_mark_placement (body : str) (d : char) :
  forallb is_letter body = true -> body <> [] -> is_tone_digit d = true ->
  (d = 53%N -> decode_syllable (body ++ [d]) = body)
  /\ (d <> 53%N -> (exists c, In c body /\ In c vowels) ->
      exists i v,
        placement body i v
        /\ decode_syllable (body ++ [d])
           = firstn i body ++ tone_mark (tone_of d) v :: skipn (S i) body)
  /\ (d <> 53%N -> (forall c, In c body -> ~ In c vowels) ->
      decode_syllable (body ++ [d]) = body)
  /\ to_pinyin decode_pinyin (bracketed (body ++ [d]))
     = bracketed (decode_syllable (body ++ [d]))
  /\ map (tone_mark 1%N) (py "aeiouü") = py "āēīōūǖ"
  /\ map (tone_mark 2%N) (py "aeiouü") = py "áéíóúǘ"
  /\ map (tone_mark 3%N) (py "aeiouü") = py "ǎěǐǒǔǚ"
  /\ map (tone_mark 4%N) (py "aeiouü") = py "àèìòùǜ".
Proof.
  intros Hb Hne Hd.
  pose proof (DecoderFacts.decode_syllable_eq body d Hb Hne Hd) as Heq.
  assert (H5 : (tone_of d =? 5)%N = true <-> d = 53%N).
  { unfold tone_of. rewrite N.eqb_eq.
    destruct (DecoderFacts.is_tone_digit_cases d Hd)
      as [->|[->|[->|[->| ->]]]]; split; intros H; try reflexivity;
      try discriminate; vm_compute in H; discriminate. }
  split; [|split; [|split; [|split]]].
  - intros E. apply H5 in E. now rewrite Heq, E.
  - intros Hn (c & Hc & Hv).
    destruct (tone_of d =? 5)%N eqn:E;
      [exfalso; apply Hn, H5; reflexivity|].
    destruct (select_vowel body) as [i|] eqn:Hs.
    + destruct (DecoderFacts.select_vowel_Some body i Hs) as [v Hp].
      exists i, v. split; [exact Hp|].
      rewrite Heq. apply DecoderFacts.set_at_nth.
      now apply DecoderFacts.placement_nth.
    + exfalso. eapply DecoderFacts.select_vowel_None; eauto.
  - intros Hn Hnone.
    destruct (tone_of d =? 5)%N eqn:E;
      [exfalso; apply Hn, H5; reflexivity|].
    destruct (select_vowel body) as [i|] eqn:Hs; [|exact Heq].
    exfalso. destruct (DecoderFacts.select_vowel_Some body i Hs) as [v Hp].
    pose proof (DecoderFacts.placement_nth _ _ _ Hp) as Hnth.
    apply (Hnone v); [eapply nth_error_In; eauto|].
    inversion Hp; subst; try (simpl; tauto).
    match goal with
    | H : is_iou v = true |- _ =>
        unfold is_iou, eqc, u_umlaut in H;
        rewrite !orb_true_iff, !N.eqb_eq in H
    end.
    simpl. intuition auto.
  - now apply DecoderFacts.decode_pinyin_segment.
  - repeat split; vm_compute; reflexivity.
Qed.

Lemma C5_tone_mark_placement_witness :
  (51%N = 53%N -> decode_syllable (py "hao" ++ [51%N]) = py "hao")
  /\ (51%N <> 53%N -> (exists c, In c (py "hao") /\ In c vowels) ->
      exists i v,
        placement (py "hao") i v
        /\ decode_syllable (py "hao" ++ [51%N])
           = firstn i (py "hao") ++ tone_mark (tone_of 51%N) v
                                  :: skipn (S i) (py "hao"))
  /\ (51%N <> 53%N -> (forall c, In c (py "hao") -> ~ In c vowels) ->
      decode_syllable (py "hao" ++ [51%N]) = py "hao")
  /\ to_pinyin decode_pinyin (bracketed (py "hao" ++ [51%N]))
     = bracketed (decode_syllable (py "hao" ++ [51%N]))
  /\ map (tone_mark 1%N) (py "aeiouü") = py "āēīōūǖ"
  /\ map (tone_mark 2%N) (py "aeiouü") = py "áéíóúǘ"
  /\ map (tone_mark 3%N) (py "aeiouü") = py "ǎěǐǒǔǚ"
  /\ map (tone_mark 4%N) (py "aeiouü") = py "àèìòùǜ".
Proof.
  apply (C5_tone_mark_placement (py "hao") 51%N).
  - vm_compute. reflexivity.
  - vm_compute. discriminate.
  - vm_compute. reflexivity.
Defined.

Lemma lower_char_latin1 (c : char) : (c <? 256)%N = true ->
  (lower_char c <? 256)%N = true.
Proof.
  rewrite !N.ltb_lt. intros H. unfold lower_char.
  destruct ((65 <=? c) && (c <=? 90))%N eqn:E1.
  - apply andb_true_iff in E1. destruct E1 as [_ E1].
    apply N.leb_le in E1. lia.
  - destruct ((192 <=? c) && (c <=? 222) && negb (c =? 215))%N eqn:E2;
      [|exact H].
    rewrite !andb_true_iff in E2. destruct E2 as [[_ E2] _].
    apply N.leb_le in E2. lia.
Qed.

(** [format_pinyin] keeps [latin1] text [latin1]. *)
Lemma format_pinyin_latin1 (m : str) :
  latin1 m = true -> latin1 (format_pinyin m) = true.
Proof.
  unfold latin1. rewrite !forallb_forall. intros H c Hc.
  unfold format_pinyin, lit_u_colon in Hc.
  apply replace_In in Hc. destruct Hc as [Hc|[<-|[]]]; [|reflexivity].
  apply in_map_iff in Hc. destruct Hc as (x & <- & Hx).
  apply lower_char_latin1. now apply H.
Qed.

(** C7, as stated, fails for a capital letter: with tone numbers the
    segment is also put in lower case. *)
Lemma C7_counterexample :
  format_pinyin bei_segment = py "[bei3]"
  /\ replace bei_segment lit_u_colon lit_u_umlaut = py "[Bei3]"
  /\ convert_pinyin decoder numbered (py "北京 北京 [Bei3 jing1] /Beijing/")
     = py "北京 北京 [bei3 jing1] /Beijing/".
Proof. repeat split; vm_compute; reflexivity. Qed.

(** C7, amended.  With tone numbers the decoder is not called: when the
    stripped line is cut in plain text and bracketed segments of
    [latin1] text, every segment goes through [format_pinyin] and
    nothing else.  On a [latin1] segment [format_pinyin] puts the text in
    lower case and replaces "u:" by "ü": the digits of the segment are
    kept, in their order, and every character of the result is "ü" or a
    lower-case character of the segment.  Without tone numbers, the
    decoded syllable has no digit: one character stands for each
    letter. *)
Theorem C7_numbered_keeps_digits (decode_pinyin : str -> str)
  (separate : bool) (line : str) (ps : list piece) (m body : str) (d : char) :
  Forall piece_ok ps -> latin1_segments ps -> strip line = text_of ps ->
  latin1 m = true ->
  forallb is_letter body = true -> body <> [] -> is_tone_digit d = true ->
  convert_pinyin decode_pinyin (mkArgs separate true) line
  = on_segments format_pinyin ps
  /\ format_pinyin m = replace (lower m) (py "u:") (py "ü")
  /\ filter is_digit (format_pinyin m) = filter is_digit m
  /\ (forall c, In c (format_pinyin m) -> c = u_umlaut \/ In c (lower m))
  /\ latin1 (format_pinyin m) = true
  /\ forallb (fun c => negb (is_digit c)) (decode_syllable (body ++ [d]))
     = true
  /\ length (decode_syllable (body ++ [d])) = length body.
Proof.
  intros Hok _ Hline Hm Hb Hne Hd. split.
  { rewrite (convert_pinyin_pieces decode_pinyin (mkArgs separate true)
               line ps Hok Hline).
    reflexivity. }
  split; [reflexivity|].
  split; [|split; [|split; [|split]]].
  - unfold format_pinyin, lit_u_colon, lit_u_umlaut.
    rewrite replace_filter by reflexivity.
    apply DecoderFacts.lower_filter_digit.
  - intros c Hc. unfold format_pinyin, lit_u_colon in Hc.
    apply replace_In in Hc. destruct Hc as [Hc|[<-|[]]]; auto.
  - now apply format_pinyin_latin1.
  - assert (Hbody : forallb (fun c => negb (is_digit c)) body = true).
    { apply forallb_forall. intros c Hc.
      apply DecoderFacts.is_letter_not_digit.
      rewrite forallb_forall in Hb. now apply Hb. }
    rewrite DecoderFacts.decode_syllable_eq by assumption.
    destruct (tone_of d =? 5)%N; [exact Hbody|].
    destruct (select_vowel body); [|exact Hbody].
    apply DecoderFacts.set_at_forallb; [|exact Hbody].
    intros v. now apply DecoderFacts.tone_mark_not_digit.
  - rewrite DecoderFacts.decode_syllable_eq by assumption.
    destruct (tone_of d =? 5)%N; [reflexivity|].
    destruct (select_vowel body); [|reflexivity].
    apply DecoderFacts.set_at_length.
Qed.

Lemma C7_numbered_keeps_digits_witness :
  convert_pinyin decoder (mkArgs false true) ke_line
  = on_segments format_pinyin ke_pieces
  /\ format_pinyin (py "[LU:4]") = replace (lower (py "[LU:4]")) (py "u:") (py "ü")
  /\ filter is_digit (format_pinyin (py "[LU:4]")) = filter is_digit (py "[LU:4]")
  /\ (forall c, In c (format_pinyin (py "[LU:4]")) ->
                c = u_umlaut \/ In c (lower (py "[LU:4]")))
  /\ latin1 (format_pinyin (py "[LU:4]")) = true
  /\ forallb (fun c => negb (is_digit c)) (decode_syllable (py "lü" ++ [52%N]))
     = true
  /\ length (decode_syllable (py "lü" ++ [52%N])) = length (py "lü").
Proof.
  apply (C7_numbered_keeps_digits decoder false ke_line ke_pieces
           (py "[LU:4]") (py "lü") 52%N).
  - repeat constructor; vm_compute; intuition discriminate.
  - repeat constructor.
  - vm_compute. reflexivity.
  - vm_compute. reflexivity.
  - vm_compute. reflexivity.
  - vm_compute. discriminate.
  - vm_compute. reflexivity.
Defined.

(* ================================================================= *)
(** ** The claims on the character forms and on the segments *)

(** C9.  For a line of the documented shape, [trad simp [pron] /defs/],
    whose pronunciation is converted into a segment without further
    brackets: when the two character forms are the same text the loop
    body makes one entry, with that form as headword; when they differ
    it makes two entries, the traditional form first, then the
    simplified one. *)
Theorem C9_one_entry_per_distinct_form (decode_pinyin : str -> str)
  (args : Args) (trad simp pron defs q : str) (index : N) :
  character_form trad -> character_form simp -> segment_body pron ->
  pinyin_of_segment decode_pinyin args (bracketed pron) = bracketed q ->
  ~ In 91%N q -> ~ In 93%N q ->
  exists meanings,
    (trad = simp ->
     create_entries decode_pinyin args (raw_line trad simp pron defs) index
     = Ok [mkEntry trad q [] [] 2%N meanings index []])
    /\ (trad <> simp ->
        create_entries decode_pinyin args (raw_line trad simp pron defs) index
        = Ok [ mkEntry trad q [] [] 2%N meanings index [];
               mkEntry simp q [] [] 2%N meanings index [] ]).
Proof.
  intros Ht Hs Hp Hq Hq1 Hq2.
  eexists. rewrite (create_entries_raw_line decode_pinyin args
                      trad simp pron defs q index) by assumption.
  split; intros H.
  - apply eqs_true in H. rewrite H. reflexivity.
  - apply eqs_false in H. rewrite H. reflexivity.
Qed.

Lemma C9_one_entry_per_distinct_form_witness :
  exists meanings,
    (py "課" = py "课" ->
     create_entries decoder defaults
       (raw_line (py "課") (py "课") (py "ke4") (py "subject/tax")) 7%N
     = Ok [mkEntry (py "課") (py "kè") [] [] 2%N meanings 7%N []])
    /\ (py "課" <> py "课" ->
        create_entries decoder defaults
          (raw_line (py "課") (py "课") (py "ke4") (py "subject/tax")) 7%N
        = Ok [ mkEntry (py "課") (py "kè") [] [] 2%N meanings 7%N [];
               mkEntry (py "课") (py "kè") [] [] 2%N meanings 7%N [] ]).
Proof.
  apply (C9_one_entry_per_distinct_form decoder defaults
           (py "課") (py "课") (py "ke4") (py "subject/tax") (py "kè") 7%N).
  - split; [vm_compute; discriminate|].
    intros c [<-|[]]. vm_compute. repeat split; discriminate.
  - split; [vm_compute; discriminate|].
    intros c [<-|[]]. vm_compute. repeat split; discriminate.
  - vm_compute. repeat split; [discriminate | |]; intuition discriminate.
  - vm_compute. reflexivity.
  - vm_compute. intuition discriminate.
  - vm_compute. intuition discriminate.
Defined.



Example ke_line_pinyin :
  convert_pinyin decoder defaults ke_line
  = py "課 课 [kè] /subject/course/CL:門|门[mén]/class/lesson/CL:堂[táng],節|节[jié]/to levy/tax/form of divination/"
  /\ convert_pinyin decoder numbered (py "綠 绿 [LU:4] /green/CL:種|种[Zhong3]/x/")
     = py "綠 绿 [lü4] /green/CL:種|种[zhong3]/x/".
Proof. split; vm_compute; reflexivity. Qed.

(* ================================================================= *)
(** ** Classifiers *)

Section Classifiers.

Lemma replace_char (x : char) (new s : str) :
  replace s [x] new = flat_map (fun c => if eqc x c then new else [c]) s.
Proof.
  unfold replace. induction s as [|c s IH]; [reflexivity|].
  cbn [replace_go flat_map]. unfold startswith. cbn [strip_prefix].
  destruct (eqc x c); cbn [length pred app]; now rewrite IH.
Qed.

Lemma replace_char_app (x : char) (new a b : str) :
  replace (a ++ b) [x] new = replace a [x] new ++ replace b [x] new.
Proof. rewrite !replace_char. apply flat_map_app. Qed.

Lemma replace_char_absent (x : char) (new s : str) :
  ~ In x s -> replace s [x] new = s.
Proof. intros H. apply replace_absent with (c := x); simpl; auto. Qed.

Lemma split_on_nonempty (sep : char) (s : str) : split_on sep s <> [].
Proof.
  induction s as [|c s IH]; simpl; [discriminate|].
  destruct (eqc c sep); [discriminate|].
  destruct (split_on sep s); [congruence | discriminate].
Qed.

(** Splitting at a separator splits the two sides apart. *)
Lemma split_on_app (sep : char) (a b : str) :
  split_on sep (a ++ sep :: b) = split_on sep a ++ split_on sep b.
Proof.
  induction a as [|c a IH]; cbn [app split_on].
  - now rewrite eqc_refl.
  - rewrite IH. destruct (eqc c sep); [reflexivity|].
    pose proof (split_on_nonempty sep a) as Hne.
    destruct (split_on sep a); [congruence | reflexivity].
Qed.

Lemma split_on_absent (sep : char) (s : str) :
  ~ In sep s -> split_on sep s = [s].
Proof.
  induction s as [|c s IH]; intros H; [reflexivity|].
  cbn [split_on].
  replace (eqc c sep) with false
    by (symmetry; apply eqc_false; intros ->; apply H; now left).
  rewrite IH by (intros H'; apply H; now right). reflexivity.
Qed.

(** Replacing a separator by another one and splitting at the new one is
    splitting at the old one. *)
Lemma split_on_replace (x y : char) (s : str) :
  ~ In y s -> split_on y (replace s [x] [y]) = split_on x s.
Proof.
  rewrite replace_char. induction s as [|c s IH]; intros H; [reflexivity|].
  cbn [flat_map split_on].
  assert (Hs : ~ In y s) by (intros H'; apply H; now right).
  assert (Hc : c <> y) by (intros ->; apply H; now left).
  destruct (eqc x c) eqn:Hxc.
  - apply eqc_true in Hxc. subst c. cbn [app split_on].
    rewrite !eqc_refl. now rewrite IH.
  - cbn [app split_on].
    replace (eqc c y) with false by (symmetry; now apply eqc_false).
    replace (eqc c x) with false
      by (symmetry; apply eqc_false; apply eqc_false in Hxc; congruence).
    now rewrite IH.
Qed.

(** No classifier starts in a text that has no "/CL:", even when one
    follows. *)
Lemma no_match_before_CL (t rest : str) :
  t <> [] -> startswith t lit_CL = false ->
  Re.match_at lit_CL slash (t ++ lit_CL ++ rest) = None.
Proof.
  intros Hne Hst. unfold Re.match_at.
  replace (strip_prefix lit_CL (t ++ lit_CL ++ rest)) with (@None str);
    [reflexivity|].
  symmetry. unfold startswith, lit_CL in *.
  destruct t as [|c [|d1 [|d2 [|d3 t]]]]; [congruence| | | |];
    cbn [app strip_prefix] in *;
    repeat match goal with
           | |- context [eqc ?a ?b] =>
               let E := fresh "E" in
               destruct (eqc a b) eqn:E;
               try reflexivity; try discriminate
           end;
    try (rewrite E, E0, E1, E2 in Hst; discriminate).
Qed.

Lemma contains_cons (c : char) (s p : str) :
  contains (c :: s) p = false ->
  startswith (c :: s) p = false /\ contains s p = false.
Proof. cbn [contains]. apply orb_false_iff. Qed.

(** The first classifier of a meaning: what comes before it is kept,
    the segment is replaced, the scan goes on after its closing slash. *)
Lemma sub_CL_first (f : str -> str) (defs body post : str) :
  contains defs lit_CL = false ->
  body <> [] -> ~ In slash body -> ~ In Re.newline body ->
  sub_CL f (defs ++ lit_CL ++ body ++ slash :: post)
  = defs ++ f (lit_CL ++ body ++ [slash]) ++ sub_CL f post.
Proof.
  intros Hdefs Hne Hs Hn. unfold sub_CL.
  induction defs as [|c defs IH].
  - cbn [app]. apply sub_segment; try assumption. discriminate.
  - apply contains_cons in Hdefs. destruct Hdefs as [Hst Hrest].
    change ((c :: defs) ++ lit_CL ++ body ++ slash :: post)
      with (c :: (defs ++ lit_CL ++ body ++ slash :: post)).
    rewrite sub_no_match.
    + cbn [app]. f_equal. now apply IH.
    + change (c :: defs ++ lit_CL ++ body ++ slash :: post)
        with ((c :: defs) ++ lit_CL ++ body ++ slash :: post).
      apply no_match_before_CL; [discriminate | assumption].
Qed.

(** [format_CL] does not touch the slashes around the segment. *)
Lemma format_CL_slashes (x : str) :
  format_CL (slash :: x ++ [slash]) = slash :: format_CL x ++ [slash].
Proof.
  unfold format_CL, slash, lit_comma_space, lit_comma, lit_colon,
    lit_colon_space.
  assert (H : forall x0 old new s,
             x0 <> 47%N -> ~ In 47%N old ->
             replace (47%N :: s ++ [47%N]) (x0 :: old) new
             = 47%N :: replace s (x0 :: old) new ++ [47%N]).
  { intros x0 old new s Hx Hold. rewrite replace_no_match.
    - f_equal. apply replace_snoc. intros [E|E]; [congruence | auto].
    - unfold startswith. cbn [strip_prefix].
      replace (eqc x0 47%N) with false; [reflexivity|].
      symmetry. now apply eqc_false. }
  rewrite !H; try discriminate; try (intros [E|E]; [discriminate | exact E]);
    auto.
Qed.

Lemma format_CL_In (c : char) (x : str) :
  In c (format_CL x) -> In c x \/ c = 44%N \/ c = 32%N \/ c = 58%N.
Proof.
  unfold format_CL, lit_comma_space, lit_comma, lit_colon, lit_colon_space.
  intros H.
  apply replace_In in H. destruct H as [H|[<-|[<-|[]]]]; auto.
  apply replace_In in H. destruct H as [H|[<-|[<-|[]]]]; auto.
  apply replace_In in H. destruct H as [H|[<-|[]]]; auto.
Qed.

Lemma format_CL_segment (body : str) :
  format_CL (lit_CL ++ body ++ [slash])
  = slash :: classifier_text body ++ [slash].
Proof.
  change (lit_CL ++ body ++ [slash])
    with (slash :: (lit_CL_text ++ body) ++ [slash]).
  apply format_CL_slashes.
Qed.

Lemma split_CL_segment (body : str) :
  split_CL (lit_CL ++ body ++ [slash])
  = lit_space_lparen ++ classifier_text body ++ lit_rparen_newline.
Proof.
  unfold split_CL. rewrite format_CL_segment. f_equal. f_equal.
  unfold removeprefix, removesuffix, lit_slash, slash.
  cbn [strip_prefix]. rewrite eqc_refl.
  rewrite rev_unit. cbn [rev app strip_prefix]. rewrite eqc_refl.
  apply rev_involutive.
Qed.

Lemma classifier_text_In (c : char) (body : str) :
  classifier_body body -> (c = slash \/ c = Re.newline) ->
  ~ In c (classifier_text body).
Proof.
  intros (_ & Hs & Hn) Hc H. unfold classifier_text in H.
  apply format_CL_In in H.
  destruct H as [H|H].
  - apply in_app_or in H. destruct H as [H|H].
    + destruct Hc as [-> | ->]; simpl in H; intuition discriminate.
    + destruct Hc as [-> | ->]; auto.
  - destruct Hc as [-> | ->]; intuition discriminate.
Qed.

Lemma split_on_closed (sep : char) (a b c d rest : str) :
  ~ In sep (a ++ b ++ c ++ d) ->
  split_on sep (a ++ (b ++ c ++ d ++ [sep]) ++ rest)
  = (a ++ b ++ c ++ d) :: split_on sep rest.
Proof.
  intros H.
  replace (a ++ (b ++ c ++ d ++ [sep]) ++ rest)
    with ((a ++ b ++ c ++ d) ++ sep :: rest)
    by (now rewrite <- !app_assoc).
  now rewrite split_on_app, split_on_absent.
Qed.

(** Default mode: the classifier closes, in parentheses, the gloss made
    of the definitions before it, and the glosses of the rest follow. *)
Lemma format_glosses_default (number : bool) (defs body post : str) :
  contains defs lit_CL = false -> ~ In Re.newline defs ->
  classifier_body body ->
  format_glosses (mkArgs false number)
                 (defs ++ lit_CL ++ body ++ slash :: post)
  = (replace defs lit_slash lit_comma_space
       ++ lit_space_lparen ++ classifier_text body ++ lit_rparen)
      :: format_glosses (mkArgs false number) post.
Proof.
  intros Hdefs Hnl Hbody. pose proof Hbody as (Hne & Hs & Hn).
  unfold format_glosses. cbn [is_separate].
  rewrite sub_CL_first, split_CL_segment by assumption.
  unfold lit_slash.
  change lit_rparen_newline with (lit_rparen ++ [Re.newline]).
  rewrite !replace_char_app.
  rewrite (replace_char_absent 47%N _ lit_space_lparen)
    by (intros [H|[H|[]]]; discriminate).
  rewrite (replace_char_absent 47%N _ (classifier_text body))
    by (apply classifier_text_In; [assumption | now left]).
  rewrite (replace_char_absent 47%N _ lit_rparen)
    by (intros [H|[]]; discriminate).
  rewrite (replace_char_absent 47%N _ [Re.newline])
    by (intros [H|[]]; discriminate).
  apply split_on_closed. intros H.
  apply in_app_or in H. destruct H as [H|H].
  - rewrite replace_char in H. apply in_flat_map in H.
    destruct H as (c & Hc & H). destruct (eqc 47%N c).
    + simpl in H. intuition discriminate.
    + destruct H as [->|[]]. auto.
  - apply in_app_or in H. destruct H as [[H|[H|[]]]|H]; try discriminate.
    apply in_app_or in H. destruct H as [H|[H|[]]]; try discriminate.
    revert H. apply classifier_text_In; [assumption | now right].
Qed.

(** Bullet mode: the definitions before the classifier are glosses of
    their own, then comes the classifier, then the glosses of the rest. *)
Lemma format_glosses_separate (number : bool) (defs body post : str) :
  contains defs lit_CL = false -> ~ In Re.newline defs ->
  classifier_body body ->
  format_glosses (mkArgs true number)
                 (defs ++ lit_CL ++ body ++ slash :: post)
  = split_on slash defs
      ++ classifier_text body :: format_glosses (mkArgs true number) post.
Proof.
  intros Hdefs Hnl Hbody. pose proof Hbody as (Hne & Hs & Hn).
  unfold format_glosses. cbn [is_separate].
  rewrite sub_CL_first, format_CL_segment by assumption.
  unfold lit_slash, lit_newline.
  change (slash :: classifier_text body ++ [slash])
    with ([47%N] ++ classifier_text body ++ [47%N]).
  rewrite !replace_char_app.
  rewrite (replace_char_absent 47%N _ (classifier_text body))
    by (apply classifier_text_In; [assumption | now left]).
  change (replace [47%N] [47%N] [Re.newline]) with [Re.newline].
  set (rest := replace (sub_CL format_CL post) [47%N] [Re.newline]).
  rewrite <- !app_assoc. cbn [app].
  rewrite split_on_app, split_on_app.
  rewrite (split_on_absent Re.newline (classifier_text body))
    by (apply classifier_text_In; [assumption | now right]).
  now rewrite split_on_replace by assumption.
Qed.

End Classifiers.

(* ================================================================= *)
(** ** The claim on the classifiers *)

Example ke_meaning_default :
  format_meaning defaults
    (py "/subject/course/CL:門|门[mén]/class/lesson/CL:堂[táng],節|节[jié]/to levy/tax/")
  = [ py "subject, course (CL: 門|门[mén])";
      py "class, lesson (CL: 堂[táng], 節|节[jié])";
      py "to levy, tax" ].
Proof. vm_compute. reflexivity. Qed.

Example ke_meaning_bullets :
  format_meaning bullets
    (py "/subject/course/CL:門|门[mén]/class/lesson/CL:堂[táng],節|节[jié]/to levy/tax/")
  = [ py "subject"; py "course"; py "CL: 門|门[mén]"; py "class";
      py "lesson"; py "CL: 堂[táng], 節|节[jié]"; py "to levy"; py "tax" ].
Proof. vm_compute. reflexivity. Qed.

(** C6.  In default mode the classifier is a suffix in parentheses, in
    bullet mode the normalised classifier is a gloss of its own: this
    fails on the code for a classifier that is the last segment of the
    meaning.  Line 100 removes the closing slash of the meaning before
    the pattern of lines 104 and 108, which ends with a slash, is
    searched: the last classifier is not matched.  In default mode it is
    joined to the definitions by ", ", without parentheses; in bullet
    mode it is a gloss of its own, but not normalised.  A classifier
    followed by another definition is treated as the claim says
    ([format_glosses_default], [format_glosses_separate]). *)
Theorem C6_last_classifier_not_formatted :
  create_entries decoder defaults shu_line 1%N
  = Ok [ mkEntry (py "書") (py "shū") [] [] 2%N
           [py "book, CL:本[běn],冊|册[cè]"] 1%N [];
         mkEntry (py "书") (py "shū") [] [] 2%N
           [py "book, CL:本[běn],冊|册[cè]"] 1%N [] ]
  /\ create_entries decoder bullets shu_line 1%N
     = Ok [ mkEntry (py "書") (py "shū") [] [] 2%N
              [py "book"; py "CL:本[běn],冊|册[cè]"] 1%N [];
            mkEntry (py "书") (py "shū") [] [] 2%N
              [py "book"; py "CL:本[běn],冊|册[cè]"] 1%N [] ].
Proof. split; vm_compute; reflexivity. Qed.

(* ================================================================= *)
(** ** Further properties of the generator *)

Section Generator.

Variable decode_pinyin : str -> str.
Variable args : Args.

Local Abbreviation create_entries := (create_entries decode_pinyin args).
Local Abbreviation create_termbank_loop :=
  (create_termbank_loop decode_pinyin args).
Local Abbreviation create_termbank := (create_termbank decode_pinyin args).
Local Abbreviation create_termbanks_fuel :=
  (create_termbanks_fuel decode_pinyin args).
Local Abbreviation create_termbanks := (create_termbanks decode_pinyin args).
Local Abbreviation entries_from := (entries_from decode_pinyin args).

(** A term bank is yielded for at least one line taken from the file. *)
Lemma create_termbanks_fuel_count (fuel : nat) :
  forall lines index banks e,
    create_termbanks_fuel fuel lines index = Some (banks, e) ->
    length banks <= length lines /\ Forall (fun b => b <> []) banks.
Proof.
  induction fuel as [|fuel IH]; intros lines index banks e H;
    [discriminate|].
  cbn [Main.create_termbanks_fuel] in H.
  destruct (create_termbank lines index) as [[[tb rest] index']|e'] eqn:Hc.
  - destruct tb as [|x tb].
    + injection H as <- <-. split; [simpl; lia | constructor].
    + destruct (create_termbanks_fuel fuel rest index') as [[bs e'']|] eqn:Hr;
        try discriminate.
      injection H as <- <-. destruct (IH _ _ _ _ Hr) as [Hlen Hne].
      unfold Main.create_termbank in Hc.
      destruct lines as [|l lines]; [simpl in Hc; discriminate|].
      apply loop_rest in Hc. destruct Hc as [_ Hc].
      specialize (Hc ltac:(discriminate)).
      split; [simpl in *; lia|]. constructor; [discriminate | exact Hne].
  - injection H as <- <-. split; [simpl; lia | constructor].
Qed.

(** The sequence numbers of the entries of one line. *)
Lemma create_entries_indices (line : str) (index : N) (es : list Entry) :
  create_entries line index = Ok es ->
  map sequence_index es = repeat index (length es) /\ 0 < length es.
Proof.
  intros H. pose proof (create_entries_nonempty _ _ _ _ _ H) as Hne.
  apply create_entries_inv in H.
  destruct H as (chars & pron & meaning & ms & _ & _ & ->).
  split.
  - rewrite map_map, length_map. cbn [sequence_index].
    clear Hne. induction ms as [|m ms IH]; [reflexivity|].
    simpl. now rewrite IH.
  - destruct ms; [simpl in Hne; congruence | simpl; lia].
Qed.

Lemma runs_app (i j k : N) (l1 l2 : list N) :
  runs i l1 j -> runs j l2 k -> runs i (l1 ++ l2) k.
Proof.
  intros H1 H2. induction H1 as [i|i j n l Hn H1 IH]; [exact H2|].
  rewrite <- app_assoc. apply runs_cons; auto.
Qed.

(** What a call of [create_termbank] adds to the term bank is numbered
    from the index it starts with up to the index it leaves. *)
Lemma loop_runs (lines : list str) :
  forall tb index tb' rest index',
    create_termbank_loop lines tb index = Ok (tb', rest, index') ->
    exists added,
      tb' = tb ++ added /\ runs index (map sequence_index added) index'.
Proof.
  induction lines as [|line lines IH]; intros tb index tb' rest index' H;
    cbn [Main.create_termbank_loop] in H.
  - injection H as <- <- <-. exists []. rewrite app_nil_r.
    split; [reflexivity | constructor].
  - destruct (TERM_BANK_SIZE <=? length tb).
    + injection H as <- <- <-. exists []. rewrite app_nil_r.
      split; [reflexivity | constructor].
    + destruct (create_entries line index) as [es|e] eqn:Hes;
        try discriminate.
      apply IH in H. destruct H as (added & -> & Hruns).
      exists (es ++ added). rewrite <- app_assoc. split; [reflexivity|].
      destruct (create_entries_indices _ _ _ Hes) as [Hidx Hpos].
      rewrite map_app, Hidx. now apply runs_cons.
Qed.

Lemma create_termbanks_fuel_runs (fuel : nat) :
  forall lines index banks e,
    create_termbanks_fuel fuel lines index = Some (banks, e) ->
    exists j, runs index (map sequence_index (concat banks)) j.
Proof.
  induction fuel as [|fuel IH]; intros lines index banks e H;
    [discriminate|].
  cbn [Main.create_termbanks_fuel] in H.
  destruct (create_termbank lines index) as [[[tb rest] index']|e'] eqn:Hc.
  - destruct tb as [|x tb].
    + injection H as <- <-. exists index. constructor.
    + destruct (create_termbanks_fuel fuel rest index') as [[bs e'']|] eqn:Hr;
        try discriminate.
      injection H as <- <-. destruct (IH _ _ _ _ Hr) as [j Hj].
      unfold Main.create_termbank in Hc. apply loop_runs in Hc.
      destruct Hc as (added & Hadd & Hruns). cbn [app] in Hadd.
      exists j. cbn [concat]. rewrite map_app, Hadd.
      eapply runs_app; eauto.
  - injection H as <- <-. exists index. constructor.
Qed.

End Generator.

(** X1.  The generator comes to an end on every input, whatever the
    lines hold: it yields at most one term bank per line of the file, and
    never an empty one. *)
Theorem generator_terminates (decode_pinyin : str -> str) (args : Args)
  (lines : list str) :
  exists banks e,
    create_termbanks decode_pinyin args lines = Some (banks, e)
    /\ length banks <= length lines
    /\ Forall (fun b => b <> []) banks.
Proof.
  destruct (create_termbanks_total decode_pinyin args lines) as (banks & e & H).
  exists banks, e. split; [exact H|].
  unfold create_termbanks in H.
  now apply create_termbanks_fuel_count in H.
Qed.

Lemma create_termbanks_fits (decode_pinyin : str -> str) (args : Args)
  (lines : list str) (es : list Entry) :
  entries_from decode_pinyin args lines 1%N = Ok es ->
  length es <= TERM_BANK_SIZE ->
  create_termbanks decode_pinyin args lines
  = Some (match lines with [] => [] | _ :: _ => [es] end, None).
Proof.
  intros H Hlen. destruct lines as [|l lines]; [reflexivity|].
  apply create_termbanks_small; [discriminate | exact H | exact Hlen].
Qed.

(** X2.  When the lines are all accepted and their entries number at
    most [TERM_BANK_SIZE], the generator yields them in one term bank, in
    the order of the lines, numbered from 1, and ends without exception;
    a file without lines yields no term bank. *)
Theorem small_input_one_term_bank (decode_pinyin : str -> str) (args : Args)
  (lines : list str) (es : list Entry) :
  entries_from decode_pinyin args lines 1%N = Ok es ->
  length es <= TERM_BANK_SIZE ->
  create_termbanks decode_pinyin args lines
  = Some (match lines with [] => [] | _ :: _ => [es] end, None).
Proof. apply create_termbanks_fits. Qed.

Lemma small_input_one_term_bank_witness :
  create_termbanks decoder defaults [ke_line; yi_line]
  = Some ([[ke_entry (py "課") 1%N; ke_entry (py "课") 1%N; yi_entry 2%N]],
          None).
Proof.
  apply (small_input_one_term_bank decoder defaults [ke_line; yi_line]
           [ke_entry (py "課") 1%N; ke_entry (py "课") 1%N; yi_entry 2%N]).
  - vm_compute. reflexivity.
  - vm_compute. lia.
Defined.

(** X3.  When the entries of a line bring the term bank to
    [TERM_BANK_SIZE] entries or more and the file has a further line,
    the call of [create_termbank] takes that further line from the file
    and returns without processing it, whatever it holds: its entries
    are in no term bank, it raises nothing, and the index is not
    advanced for it. *)
Theorem full_term_bank_drops_next_line (decode_pinyin : str -> str)
  (args : Args) (pre rest : list str) (last line : str)
  (es el : list Entry) (index : N) :
  entries_from decode_pinyin args pre index = Ok es ->
  length es < TERM_BANK_SIZE ->
  create_entries decode_pinyin args last (index + N.of_nat (length pre))%N
  = Ok el ->
  TERM_BANK_SIZE <= length es + length el ->
  create_termbank decode_pinyin args (pre ++ last :: line :: rest) index
  = Ok (es ++ el, rest, (index + N.of_nat (length pre) + 1)%N).
Proof.
  intros Hpre Hlen Hlast Hfull. unfold create_termbank.
  now rewrite (loop_drops_line decode_pinyin args pre rest last line
                 [] es el index Hpre Hlen Hlast Hfull).
Qed.

Lemma full_term_bank_drops_next_line_witness :
  create_termbank decoder defaults
    (repeat yi_line 3999 ++ ke_line :: no_bracket_line :: [er_line]) 1%N
  = Ok (map yi_entry (indices 3999)
          ++ [ke_entry (py "課") 4000%N; ke_entry (py "课") 4000%N],
        [er_line], (1 + N.of_nat (length (repeat yi_line 3999)) + 1)%N).
Proof.
  apply (full_term_bank_drops_next_line decoder defaults
           (repeat yi_line 3999) [er_line] ke_line no_bracket_line
           (map yi_entry (indices 3999))
           [ke_entry (py "課") 4000%N; ke_entry (py "课") 4000%N] 1%N).
  - vm_compute. reflexivity.
  - vm_compute. lia.
  - vm_compute. reflexivity.
  - vm_compute. lia.
Defined.

(** X4.  The sequence numbers of the entries handed over, read through
    all the term banks in order, are non-empty runs of 1, 2, 3, ...
    without gap: a line that is dropped leaves no hole in the numbering,
    and the entries of one line are never apart. *)
Theorem sequence_numbers_run_from_one (decode_pinyin : str -> str)
  (args : Args) (lines : list str) (banks : list TermBank)
  (e : option exn) :
  create_termbanks decode_pinyin args lines = Some (banks, e) ->
  exists j, runs 1%N (map sequence_index (concat banks)) j.
Proof.
  unfold create_termbanks. apply create_termbanks_fuel_runs.
Qed.

Lemma sequence_numbers_run_from_one_witness :
  exists j,
    runs 1%N
      (map sequence_index
         (concat [[ke_entry (py "課") 1%N; ke_entry (py "课") 1%N;
                   yi_entry 2%N]]))
      j.
Proof.
  apply (sequence_numbers_run_from_one decoder defaults [ke_line; yi_line]
           [[ke_entry (py "課") 1%N; ke_entry (py "课") 1%N; yi_entry 2%N]]
           None).
  vm_compute. reflexivity.
Defined.

(* ================================================================= *)
(** ** Further properties of the loop body *)

(** X5.  With [--pinyin-numbers] the decoder plays no part: a line of
    the documented shape, with a pronunciation of [latin1] text, gives
    one entry per distinct character form, whose pronunciation is the
    content of the brackets in lower case with "u:" replaced by "ü". *)
Theorem numbered_pinyin_entries (decode_pinyin : str -> str)
  (separate : bool) (trad simp pron defs : str) (index : N) :
  character_form trad -> character_form simp ->
  segment_body pron -> ~ In 91%N pron -> latin1 pron = true ->
  exists meanings,
    create_entries decode_pinyin (mkArgs separate true)
                   (raw_line trad simp pron defs) index
    = Ok (map (fun m =>
                 mkEntry m (replace (lower pron) (py "u:") (py "ü"))
                         [] [] 2%N meanings index [])
              (if eqs trad simp then [trad] else [trad; simp])).
Proof.
  intros Ht Hs Hp Hl _.
  destruct (pinyin_of_segment_numbered decode_pinyin (mkArgs separate true)
              pron eq_refl Hp Hl) as (Hq & Hq1 & Hq2).
  eexists.
  exact (create_entries_raw_line decode_pinyin (mkArgs separate true)
           trad simp pron defs (format_body pron) index
           Ht Hs Hp Hq Hq1 Hq2).
Qed.

Lemma numbered_pinyin_entries_witness :
  exists meanings,
    create_entries decoder (mkArgs false true)
                   (raw_line (py "綠") (py "绿") (py "LU:4") (py "green")) 3%N
    = Ok (map (fun m =>
                 mkEntry m (replace (lower (py "LU:4")) (py "u:") (py "ü"))
                         [] [] 2%N meanings 3%N [])
              (if eqs (py "綠") (py "绿") then [py "綠"]
               else [py "綠"; py "绿"])).
Proof.
  apply (numbered_pinyin_entries decoder false
           (py "綠") (py "绿") (py "LU:4") (py "green") 3%N).
  - split; [vm_compute; discriminate|].
    intros c [<-|[]]. vm_compute. repeat split; discriminate.
  - split; [vm_compute; discriminate|].
    intros c [<-|[]]. vm_compute. repeat split; discriminate.
  - vm_compute. repeat split; [discriminate | |]; intuition discriminate.
  - vm_compute. intuition discriminate.
  - vm_compute. reflexivity.
Defined.

Section OneForm.

Variable decode_pinyin : str -> str.
Variable args : Args.

(** The three parts of a line whose part before the pronunciation is
    [forms], a text without brackets that starts with something else
    than white space. *)
Lemma split_forms_line (c : char) (forms pron defs q : str) :
  is_space c = false ->
  ~ In 91%N (c :: forms) -> ~ In 93%N (c :: forms) ->
  segment_body pron ->
  pinyin_of_segment decode_pinyin args (bracketed pron) = bracketed q ->
  ~ In 91%N q -> ~ In 93%N q ->
  Re.split [lit_space_lbracket; lit_rbracket_space]
           (convert_pinyin decode_pinyin args
              ((c :: forms) ++ [32%N] ++ bracketed pron
                 ++ [32%N; 47%N] ++ defs ++ [47%N])) 2
  = [ c :: forms; q;
      47%N :: pinyin_of_text decode_pinyin args (defs ++ [47%N]) ].
Proof.
  intros Hc Hl Hr Hp Hq Hq1 Hq2.
  change (convert_pinyin decode_pinyin args ?l)
    with (pinyin_of_text decode_pinyin args (strip l)).
  replace ([32%N] ++ bracketed pron ++ [32%N; 47%N] ++ defs ++ [47%N])
    with (([32%N] ++ bracketed pron ++ [32%N; 47%N] ++ defs) ++ [47%N])
    by (now rewrite <- !app_assoc).
  rewrite strip_ends by (assumption || reflexivity).
  rewrite <- !app_assoc. rewrite (app_assoc (c :: forms) [32%N]).
  rewrite pinyin_of_text_segment; [|
    intros H; apply in_app_or in H; destruct H as [H|[H|[]]];
    [now apply Hl | discriminate] | assumption].
  rewrite Hq, pinyin_of_text_plain
    by (intros [H|[H|[]]]; discriminate).
  unfold Re.split, bracketed, lit_lbracket. rewrite <- !app_assoc.
  change ([32%N] ++ [91%N] ++ q ++ [rbracket] ++ [32%N; 47%N]
            ++ pinyin_of_text decode_pinyin args (defs ++ [47%N]))
    with (lit_space_lbracket ++ q ++ lit_rbracket_space
            ++ 47%N :: pinyin_of_text decode_pinyin args (defs ++ [47%N])).
  rewrite split_go_part; auto.
  rewrite split_go_part; auto.
Qed.

Lemma split_ws_one (form : str) :
  character_form form -> split_ws form = [form].
Proof.
  intros [Hne Hf]. unfold split_ws.
  rewrite <- (app_nil_r form) at 1.
  rewrite split_ws_go_run by (intros x Hx; now apply Hf).
  rewrite app_nil_r. cbn [split_ws_go].
  destruct (rev form) eqn:Hrev.
  - apply (f_equal (@rev char)) in Hrev. rewrite rev_involutive in Hrev.
    simpl in Hrev. congruence.
  - now rewrite <- Hrev, rev_involutive.
Qed.

Lemma create_entries_one_form (form pron defs q : str) (index : N) :
  character_form form -> segment_body pron ->
  pinyin_of_segment decode_pinyin args (bracketed pron) = bracketed q ->
  ~ In 91%N q -> ~ In 93%N q ->
  create_entries decode_pinyin args (one_form_line form pron defs) index
  = Raise IndexError.
Proof.
  intros Hf Hp Hq Hq1 Hq2. pose proof Hf as [Hne Hch].
  destruct form as [|c form]; [congruence|].
  unfold create_entries, one_form_line.
  rewrite (split_forms_line c form pron defs q); try assumption.
  - unfold character_forms. now rewrite split_ws_one.
  - apply Hch. now left.
  - intros H. now destruct (Hch _ H) as (_ & E & _).
  - intros H. now destruct (Hch _ H) as (_ & _ & E).
Qed.

End OneForm.

(** X6.  A line with one character form only before the pronunciation,
    [form [pron] /defs/], makes the loop body raise [IndexError] at
    [matches[1]]: no entry is made for it. *)
Theorem one_form_raises_IndexError (decode_pinyin : str -> str)
  (args : Args) (form pron defs q : str) (index : N) :
  character_form form -> segment_body pron ->
  pinyin_of_segment decode_pinyin args (bracketed pron) = bracketed q ->
  ~ In 91%N q -> ~ In 93%N q ->
  create_entries decode_pinyin args (one_form_line form pron defs) index
  = Raise IndexError.
Proof. apply create_entries_one_form. Qed.

Lemma one_form_raises_IndexError_witness :
  create_entries decoder defaults
    (one_form_line (py "課") (py "ke4") (py "subject")) 1%N
  = Raise IndexError.
Proof.
  apply (one_form_raises_IndexError decoder defaults
           (py "課") (py "ke4") (py "subject") (py "kè") 1%N).
  - split; [vm_compute; discriminate|].
    intros c [<-|[]]. vm_compute. repeat split; discriminate.
  - vm_compute. repeat split; [discriminate | |]; intuition discriminate.
  - vm_compute. reflexivity.
  - vm_compute. intuition discriminate.
  - vm_compute. intuition discriminate.
Defined.

(* ================================================================= *)
(** ** Meanings without classifier *)

(** Without an occurrence of the opening literal nothing is
    substituted. *)
Lemma sub_not_contains (open : str) (close : char) (f : str -> str) :
  forall s, contains s open = false -> Re.sub open close f s = s.
Proof.
  induction s as [|c s IH]; intros H; [reflexivity|].
  apply contains_cons in H. destruct H as [Hst Hrest].
  rewrite sub_no_match; [now rewrite IH|].
  unfold Re.match_at. unfold startswith in Hst.
  now destruct (strip_prefix open (c :: s)).
Qed.

Lemma remove_slashes (m : str) :
  removesuffix (removeprefix (47%N :: m ++ [47%N]) lit_slash) lit_slash = m.
Proof.
  unfold removeprefix, removesuffix, lit_slash. cbn [strip_prefix].
  rewrite eqc_refl, rev_unit. cbn [rev app strip_prefix].
  rewrite eqc_refl. apply rev_involutive.
Qed.

(** X7.  A meaning without "/CL:" and without line feed: in default
    mode it makes one gloss, the definitions joined by ", "; with
    [--separate] every definition is a gloss of its own. *)
Theorem meaning_without_classifier (number : bool) (m : str) :
  contains m lit_CL = false -> ~ In Re.newline m ->
  format_meaning (mkArgs false number) (47%N :: m ++ [47%N])
  = [replace m lit_slash lit_comma_space]
  /\ format_meaning (mkArgs true number) (47%N :: m ++ [47%N])
     = split_on slash m.
Proof.
  intros Hc Hn. unfold format_meaning. rewrite remove_slashes.
  unfold format_glosses, sub_CL. cbn [is_separate].
  rewrite !sub_not_contains by assumption. split.
  - apply split_on_absent. unfold lit_slash. rewrite replace_char.
    intros H. apply in_flat_map in H. destruct H as (c & Hc' & H).
    destruct (eqc 47%N c).
    + simpl in H. intuition discriminate.
    + destruct H as [->|[]]. auto.
  - unfold lit_slash, lit_newline. now apply split_on_replace.
Qed.

Lemma meaning_without_classifier_witness :
  format_meaning (mkArgs false false)
                 (47%N :: py "to levy/tax/form of divination" ++ [47%N])
  = [replace (py "to levy/tax/form of divination") lit_slash lit_comma_space]
  /\ format_meaning (mkArgs true false)
                    (47%N :: py "to levy/tax/form of divination" ++ [47%N])
     = split_on slash (py "to levy/tax/form of divination").
Proof.
  apply (meaning_without_classifier false
           (py "to levy/tax/form of divination")).
  - vm_compute. reflexivity.
  - vm_compute. intuition discriminate.
Defined.

(* ================================================================= *)
(** ** The spacing of a classifier *)

Lemma replace_filter_eq (x : char) (old new s : str) (p : char -> bool) :
  filter p (x :: old) = filter p new ->
  filter p (replace s (x :: old) new) = filter p s.
Proof.
  intros Ho. pattern s, (replace s (x :: old) new). apply replace_ind.
  - reflexivity.
  - intros r out IH. rewrite !filter_app, Ho, IH. reflexivity.
  - intros c s' out _ IH. simpl. rewrite IH. reflexivity.
Qed.

Lemma eqc_sym (a b : char) : eqc a b = eqc b a.
Proof. unfold eqc. apply N.eqb_sym. Qed.

(** After [replace(c, c + " ")] every [c] is followed by a space. *)
Lemma spaced_after_insert (c : char) (s : str) :
  c <> 32%N ->
  spaced_after c (replace s [c] [c; 32%N]) = true.
Proof.
  intros Hc. rewrite replace_char.
  induction s as [|x s IH]; [reflexivity|].
  cbn [flat_map]. destruct (eqc c x) eqn:Hx.
  - cbn [app spaced_after]. rewrite eqc_refl, IH.
    replace (eqc 32%N c) with false
      by (symmetry; apply eqc_false; congruence).
    reflexivity.
  - cbn [app spaced_after]. rewrite (eqc_sym x c), Hx, IH. reflexivity.
Qed.

(** Inserting a space after another character keeps the spaces that
    follow [c]. *)
Lemma spaced_after_keep (c d : char) (s : str) :
  c <> d -> d <> 32%N -> c <> 32%N ->
  spaced_after c s = true ->
  spaced_after c (replace s [d] [d; 32%N]) = true.
Proof.
  intros Hcd Hd Hc. rewrite replace_char.
  induction s as [|x s IH]; intros H; [reflexivity|].
  cbn [spaced_after] in H. apply andb_true_iff in H. destruct H as [Hx Hs].
  cbn [flat_map]. destruct (eqc d x) eqn:Hdx.
  - apply eqc_true in Hdx. subst x. cbn [app spaced_after].
    rewrite (IH Hs).
    replace (eqc d c) with false
      by (symmetry; apply eqc_false; congruence).
    replace (eqc 32%N c) with false
      by (symmetry; apply eqc_false; congruence).
    reflexivity.
  - cbn [app spaced_after]. rewrite (IH Hs), andb_true_r.
    destruct (eqc x c) eqn:Hxc; [|reflexivity]. cbn [negb orb] in *.
    destruct s as [|y s]; [discriminate|].
    apply eqc_true in Hx. subst y. cbn [flat_map].
    replace (eqc d 32%N) with false
      by (symmetry; apply eqc_false; congruence).
    reflexivity.
Qed.

(** X8.  [format_CL] changes nothing but spaces: without its spaces the
    result is the text without its spaces; and in the result every comma
    and every colon is followed by a space. *)
Theorem format_CL_spacing (m : str) :
  filter not_space (format_CL m) = filter not_space m
  /\ spaced_after 44%N (format_CL m) = true
  /\ spaced_after 58%N (format_CL m) = true.
Proof.
  unfold format_CL, lit_comma_space, lit_comma, lit_colon, lit_colon_space.
  split; [|split].
  - now rewrite !replace_filter_eq by reflexivity.
  - apply spaced_after_keep; try discriminate.
    apply spaced_after_insert. discriminate.
  - apply spaced_after_insert. discriminate.
Qed.

(* ================================================================= *)
(** ** The segment after [format_pinyin] *)

Lemma lower_char_not_upper (c : char) : is_upper (lower_char c) = false.
Proof.
  unfold lower_char, is_upper.
  destruct ((65 <=? c) && (c <=? 90))%N eqn:H.
  { apply andb_true_iff in H. rewrite !N.leb_le in H.
    apply andb_false_iff. rewrite !N.leb_gt. lia. }
  destruct ((192 <=? c) && (c <=? 222) && negb (c =? 215))%N eqn:H'.
  { rewrite !andb_true_iff, !N.leb_le in H'.
    apply andb_false_iff. rewrite !N.leb_gt. lia. }
  exact H.
Qed.

Lemma lower_char_range (c : char) :
  ((lower_char c < 65 \/ 90 < lower_char c)
   /\ (lower_char c < 192 \/ 222 < lower_char c \/ lower_char c = 215))%N.
Proof.
  unfold lower_char.
  destruct ((65 <=? c) && (c <=? 90))%N eqn:H.
  { apply andb_true_iff in H. rewrite !N.leb_le in H. lia. }
  destruct ((192 <=? c) && (c <=? 222) && negb (c =? 215))%N eqn:H'.
  { rewrite !andb_true_iff, !N.leb_le in H'. lia. }
  rewrite andb_false_iff, !N.leb_gt in H.
  rewrite !andb_false_iff, !N.leb_gt, negb_false_iff, N.eqb_eq in H'.
  lia.
Qed.

Lemma lower_char_fix (y : char) :
  (y < 65 \/ 90 < y)%N -> (y < 192 \/ 222 < y \/ y = 215)%N ->
  lower_char y = y.
Proof.
  intros H1 H2. unfold lower_char.
  replace ((65 <=? y) && (y <=? 90))%N with false
    by (symmetry; rewrite andb_false_iff, !N.leb_gt; lia).
  replace ((192 <=? y) && (y <=? 222) && negb (y =? 215))%N with false;
    [reflexivity|].
  symmetry. rewrite !andb_false_iff, !N.leb_gt, negb_false_iff, N.eqb_eq.
  lia.
Qed.

Lemma lower_char_idem (c : char) : lower_char (lower_char c) = lower_char c.
Proof.
  destruct (lower_char_range c) as [H1 H2]. now apply lower_char_fix.
Qed.

Lemma lower_fixed (s : str) :
  (forall c, In c s -> lower_char c = c) -> lower s = s.
Proof.
  induction s as [|c s IH]; intros H; [reflexivity|].
  simpl. rewrite (H c) by now left. f_equal.
  apply IH. intros x Hx. apply H. now right.
Qed.

(** Nothing is replaced where [old] does not occur. *)
Lemma replace_not_contains (x : char) (old new : str) :
  forall s, contains s (x :: old) = false -> replace s (x :: old) new = s.
Proof.
  induction s as [|c s IH]; intros H; [reflexivity|].
  apply contains_cons in H. destruct H as [Hst Hrest].
  rewrite replace_no_match by assumption. now rewrite IH.
Qed.

(** After the replacement no "u:" is left. *)
Lemma replace_u_colon_gone (s : str) :
  contains (replace s [117%N; 58%N] [252%N]) [117%N; 58%N] = false
  /\ (forall t, replace s [117%N; 58%N] [252%N] = 58%N :: t ->
                exists t', s = 58%N :: t').
Proof.
  pattern s, (replace s [117%N; 58%N] [252%N]). apply replace_ind.
  - split; [reflexivity | discriminate].
  - intros r out [IH _]. split; [|discriminate].
    cbn [app contains]. rewrite IH. reflexivity.
  - intros c s' out Hst [IH Hhead]. split.
    + cbn [contains]. rewrite IH, orb_false_r.
      unfold startswith in *. cbn [strip_prefix] in *.
      destruct (eqc 117%N c); [|reflexivity].
      destruct out as [|y out]; [reflexivity|].
      destruct (eqc 58%N y) eqn:Hy; [|reflexivity].
      apply eqc_true in Hy. subst y.
      destruct (Hhead out eq_refl) as [t' ->].
      now rewrite eqc_refl in Hst.
    + intros t E. injection E as -> _. eauto.
Qed.

(** X9.  After [format_pinyin] a segment of [latin1] text is [latin1]
    text still, has no capital letter from "A" to "Z" and no "u:" any
    more, and a second pass changes nothing. *)
Theorem format_pinyin_normal (m : str) :
  latin1 m = true ->
  latin1 (format_pinyin m) = true
  /\ forallb (fun c => negb (is_upper c)) (format_pinyin m) = true
  /\ contains (format_pinyin m) (py "u:") = false
  /\ format_pinyin (format_pinyin m) = format_pinyin m.
Proof.
  intros Hm. split; [now apply format_pinyin_latin1|].
  assert (Hchars : forall c, In c (format_pinyin m) ->
                             exists x, c = lower_char x).
  { intros c Hc. unfold format_pinyin, PinyinToneDecoder.lit_u_colon in Hc.
    apply replace_In in Hc. destruct Hc as [Hc|[<-|[]]].
    - apply in_map_iff in Hc. destruct Hc as (x & <- & _). eauto.
    - exists 252%N. reflexivity. }
  assert (Hgone : contains (format_pinyin m) [117%N; 58%N] = false)
    by exact (proj1 (replace_u_colon_gone (lower m))).
  split; [|split].
  - apply forallb_forall. intros c Hc. destruct (Hchars c Hc) as [x ->].
    now rewrite lower_char_not_upper.
  - exact Hgone.
  - unfold format_pinyin at 1. rewrite lower_fixed.
    + now apply replace_not_contains.
    + intros c Hc. destruct (Hchars c Hc) as [x ->]. apply lower_char_idem.
Qed.

Lemma format_pinyin_normal_witness :
  latin1 (format_pinyin (py "[LU:4 Ke4]")) = true
  /\ forallb (fun c => negb (is_upper c)) (format_pinyin (py "[LU:4 Ke4]")) = true
  /\ contains (format_pinyin (py "[LU:4 Ke4]")) (py "u:") = false
  /\ format_pinyin (format_pinyin (py "[LU:4 Ke4]"))
     = format_pinyin (py "[LU:4 Ke4]").
Proof.
  apply (format_pinyin_normal (py "[LU:4 Ke4]")). vm_compute. reflexivity.
Defined.

(* ================================================================= *)
(** ** [get_date] *)

Section GetDate.

Variable is_decimal : char -> bool.

Local Abbreviation digits := (digits is_decimal).
Local Abbreviation match_date := (match_date is_decimal).
Local Abbreviation search_date := (search_date is_decimal).
Local Abbreviation get_date := (get_date is_decimal).

Lemma digits_Some (n : nat) :
  forall s r, digits n s = Some r ->
              exists d, s = d ++ r /\ length d = n
                        /\ forallb is_decimal d = true.
Proof.
  induction n as [|n IH]; intros s r H; cbn [Program.digits] in H.
  - injection H as <-. exists []. auto.
  - destruct s as [|c s]; [discriminate|].
    destruct (is_decimal c) eqn:Hc; [|discriminate].
    destruct (IH _ _ H) as (d & -> & Hlen & Hd).
    exists (c :: d). simpl. rewrite Hc, Hd, Hlen. auto.
Qed.

Lemma hyphen_Some (s r : str) : hyphen s = Some r -> s = 45%N :: r.
Proof.
  unfold hyphen. destruct s as [|c s]; [discriminate|].
  destruct (eqc c 45%N) eqn:Hc; [|discriminate].
  apply eqc_true in Hc. intros H. injection H as <-. now subst.
Qed.

Lemma firstn_exact (n : nat) (l r : str) :
  length l = n -> firstn n (l ++ r) = l.
Proof.
  intros <-. induction l as [|x l IH]; simpl; [now destruct r|].
  now rewrite IH.
Qed.

Lemma first_ten (y mo d r : str) :
  length y = 4 -> length mo = 2 -> length d = 2 ->
  firstn 10 (y ++ 45%N :: mo ++ 45%N :: d ++ r)
  = y ++ [45%N] ++ mo ++ [45%N] ++ d.
Proof.
  intros Ly Lm Ld.
  replace (y ++ 45%N :: mo ++ 45%N :: d ++ r)
    with ((y ++ [45%N] ++ mo ++ [45%N] ++ d) ++ r)
    by (rewrite <- !app_assoc; reflexivity).
  apply firstn_exact. rewrite !length_app. simpl.
  unfold str, char in *. lia.
Qed.

Lemma match_date_Some (s m : str) :
  match_date s = Some m ->
  date_shape is_decimal m /\ exists r, s = m ++ r.
Proof.
  unfold Program.match_date.
  destruct (digits 4 s) as [s1|] eqn:H1; [|discriminate].
  destruct (hyphen s1) as [s2|] eqn:H2; [|discriminate].
  destruct (digits 2 s2) as [s3|] eqn:H3; [|discriminate].
  destruct (hyphen s3) as [s4|] eqn:H4; [|discriminate].
  destruct (digits 2 s4) as [s5|] eqn:H5; [|discriminate].
  intros H. injection H as <-.
  apply digits_Some in H1, H3, H5. apply hyphen_Some in H2, H4.
  destruct H1 as (y & -> & Ly & Dy). destruct H3 as (mo & -> & Lm & Dm).
  destruct H5 as (d & -> & Ld & Dd). subst s1 s3.
  change (date_shape is_decimal
            (firstn 10 (y ++ 45%N :: mo ++ 45%N :: d ++ s5))
          /\ (exists r, y ++ 45%N :: mo ++ 45%N :: d ++ s5
                        = firstn 10 (y ++ 45%N :: mo ++ 45%N :: d ++ s5)
                            ++ r)).
  rewrite first_ten by assumption. split.
  - exists y, mo, d. repeat split; try assumption.
    rewrite !forallb_app. apply andb_true_iff. split; [assumption|].
    apply andb_true_iff. split; assumption.
  - exists s5. rewrite <- !app_assoc. reflexivity.
Qed.

Lemma search_date_Some (s : str) :
  forall m, search_date s = Some m ->
            date_shape is_decimal m /\ exists a b, s = a ++ m ++ b.
Proof.
  induction s as [|c s IH]; intros m H; cbn [Program.search_date] in H.
  - destruct (match_date []) eqn:Hm; [|discriminate].
    injection H as <-. apply match_date_Some in Hm.
    destruct Hm as [Hs [r Hr]]. split; [exact Hs|]. exists [], r. exact Hr.
  - destruct (match_date (c :: s)) eqn:Hm.
    + injection H as <-. apply match_date_Some in Hm.
      destruct Hm as [Hs [r Hr]]. split; [exact Hs|]. exists [], r. exact Hr.
    + destruct (IH _ H) as [Hs (a & b & ->)]. split; [exact Hs|].
      exists (c :: a), b. reflexivity.
Qed.

(** Without hyphen there is no date. *)
Lemma search_date_no_hyphen (s : str) :
  ~ In 45%N s -> search_date s = None.
Proof.
  intros Hn. destruct (search_date s) as [m|] eqn:H; [|reflexivity].
  exfalso. apply search_date_Some in H.
  destruct H as [(y & mo & d & -> & _) (a & b & ->)].
  apply Hn. apply in_or_app. right. apply in_or_app. left.
  apply in_or_app. right. now left.
Qed.

(** The lines before the line of the date are passed over. *)
Lemma get_date_skip (skipped lines : list str) :
  Forall not_date_line skipped ->
  get_date (skipped ++ lines) = get_date lines.
Proof.
  induction 1 as [|l skipped Hl _ IH]; [reflexivity|].
  cbn [app Program.get_date]. unfold not_date_line in Hl. now rewrite Hl.
Qed.

End GetDate.

(** X10.  [get_date] passes over the lines up to the first one that
    starts with "#! date=", returns the leftmost date of that line, a
    text of ten characters of the shape dddd-dd-dd taken from the line,
    and leaves the file just after that line. *)
Theorem get_date_first_date_line (is_decimal : char -> bool)
  (skipped rest : list str) (line date : str) :
  Forall not_date_line skipped ->
  startswith line lit_date_prefix = true ->
  search_date is_decimal line = Some date ->
  get_date is_decimal (skipped ++ line :: rest) = (Returns (Some date), rest)
  /\ date_shape is_decimal date
  /\ length date = 10
  /\ exists a b, line = a ++ date ++ b.
Proof.
  intros Hskip Hline Hdate.
  rewrite get_date_skip by assumption. cbn [get_date].
  rewrite Hline, Hdate. split; [reflexivity|].
  destruct (search_date_Some is_decimal line date Hdate) as [Hshape Hin].
  split; [exact Hshape|]. split; [|exact Hin].
  destruct Hshape as (y & mo & d & -> & Ly & Lm & Ld & _).
  rewrite !length_app. simpl. lia.
Qed.

Lemma get_date_first_date_line_witness :
  get_date ascii_decimal
    ([py "# CC-CEDICT"; py "#! version=1"]
       ++ py "#! date=2024-05-20T05:46:25Z" :: [py "#! charset=UTF-8"])
  = (Returns (Some (py "2024-05-20")), [py "#! charset=UTF-8"])
  /\ date_shape ascii_decimal (py "2024-05-20")
  /\ length (py "2024-05-20") = 10
  /\ exists a b, py "#! date=2024-05-20T05:46:25Z" = a ++ py "2024-05-20" ++ b.
Proof.
  apply (get_date_first_date_line ascii_decimal
           [py "# CC-CEDICT"; py "#! version=1"] [py "#! charset=UTF-8"]
           (py "#! date=2024-05-20T05:46:25Z") (py "2024-05-20")).
  - repeat constructor.
  - vm_compute. reflexivity.
  - vm_compute. reflexivity.
Defined.

(** X11.  Without a line that starts with "#! date=", [get_date] reads
    the file to its end and returns [None].  When the first such line
    has no hyphen, hence no date, [get_date] raises [TypeError], the
    result of the search being [None]. *)
Theorem get_date_without_date (is_decimal : char -> bool)
  (skipped rest : list str) (line : str) :
  Forall not_date_line skipped ->
  startswith line lit_date_prefix = true ->
  ~ In 45%N line ->
  get_date is_decimal skipped = (Returns None, [])
  /\ get_date is_decimal (skipped ++ line :: rest) = (Raises TypeError, rest).
Proof.
  intros Hskip Hline Hn. split.
  - rewrite <- (app_nil_r skipped). now rewrite get_date_skip.
  - rewrite get_date_skip by assumption. cbn [get_date].
    now rewrite Hline, search_date_no_hyphen.
Qed.

Lemma get_date_without_date_witness :
  get_date ascii_decimal [py "# CC-CEDICT"; yi_line] = (Returns None, [])
  /\ get_date ascii_decimal
       ([py "# CC-CEDICT"; yi_line] ++ py "#! date=today" :: [er_line])
     = (Raises TypeError, [er_line]).
Proof.
  apply (get_date_without_date ascii_decimal [py "# CC-CEDICT"; yi_line]
           [er_line] (py "#! date=today")).
  - repeat constructor.
  - vm_compute. reflexivity.
  - vm_compute. intuition discriminate.
Defined.

(* ================================================================= *)
(** ** [format_obj] *)

Lemma hex_value_digit (n : N) : (n < 16)%N -> hex_value (hex_digit n) = n.
Proof.
  intros H. unfold hex_value, hex_digit.
  destruct (n <? 10)%N eqn:Hn.
  - apply N.ltb_lt in Hn.
    replace (48 + n <? 58)%N with true by (symmetry; apply N.ltb_lt; lia).
    lia.
  - apply N.ltb_ge in Hn.
    replace (87 + n <? 58)%N with false by (symmetry; apply N.ltb_ge; lia).
    lia.
Qed.

(** One escaped character is read back as the character. *)
Lemma unescape_escape_char (c : char) (rest : str) :
  unescape (escape_char c ++ rest) = c :: unescape rest.
Proof.
  unfold escape_char.
  destruct (eqc c 92%N) eqn:E1; [apply eqc_true in E1; now subst|].
  destruct (eqc c 34%N) eqn:E2; [apply eqc_true in E2; now subst|].
  destruct (eqc c 8%N) eqn:E3; [apply eqc_true in E3; now subst|].
  destruct (eqc c 12%N) eqn:E4; [apply eqc_true in E4; now subst|].
  destruct (eqc c 10%N) eqn:E5; [apply eqc_true in E5; now subst|].
  destruct (eqc c 13%N) eqn:E6; [apply eqc_true in E6; now subst|].
  destruct (eqc c 9%N) eqn:E7; [apply eqc_true in E7; now subst|].
  destruct (c <? 32)%N eqn:E8.
  - apply N.ltb_lt in E8. cbn [app unescape].
    change (eqc 92%N 92%N) with true. change (eqc 117%N 117%N) with true.
    cbn match. f_equal.
    rewrite !hex_value_digit.
    + rewrite N.mul_comm. symmetry. apply N.div_mod. discriminate.
    + apply N.mod_lt. discriminate.
    + apply N.Div0.div_lt_upper_bound. lia.
  - cbn [app unescape]. now rewrite E1.
Qed.

Lemma unescape_escape (s : str) : unescape (flat_map escape_char s) = s.
Proof.
  induction s as [|c s IH]; [reflexivity|].
  cbn [flat_map]. now rewrite unescape_escape_char, IH.
Qed.

(** X12.  The string literal that [json.dumps] writes loses nothing: the
    text between its quotes, read back escape by escape, is the string.
    So two strings with the same literal are the same string. *)
Theorem json_string_round_trip (s : str) :
  unescape (removelast (tl (encode_basestring s))) = s
  /\ (forall s', encode_basestring s = encode_basestring s' -> s = s').
Proof.
  assert (H : forall t, unescape (removelast (tl (encode_basestring t))) = t).
  { intros t. unfold encode_basestring. cbn [tl].
    now rewrite removelast_last, unescape_escape. }
  split; [apply H|].
  intros s' E. rewrite <- (H s), <- (H s'). now rewrite E.
Qed.

Lemma escape_char_printable (c : char) : printable (escape_char c) = true.
Proof.
  unfold escape_char.
  repeat match goal with
         | |- context [if eqc c ?k then _ else _] =>
             destruct (eqc c k); [reflexivity|]
         end.
  destruct (c <? 32)%N eqn:E.
  - assert (Hh : forall n, (32 <=? hex_digit n)%N = true).
    { intros n. unfold hex_digit.
      destruct (n <? 10)%N; apply N.leb_le; lia. }
    unfold printable. cbn [forallb]. rewrite !Hh. reflexivity.
  - apply N.ltb_ge in E. unfold printable. cbn [forallb].
    rewrite andb_true_r. now apply N.leb_le.
Qed.

Lemma printable_app (a b : str) :
  printable (a ++ b) = printable a && printable b.
Proof. apply forallb_app. Qed.

Lemma encode_basestring_printable (s : str) :
  printable (encode_basestring s) = true.
Proof.
  unfold encode_basestring.
  change (34%N :: flat_map escape_char s ++ [34%N])
    with ([34%N] ++ flat_map escape_char s ++ [34%N]).
  rewrite !printable_app. cbn [printable forallb].
  change (32 <=? 34)%N with true. cbn [andb]. rewrite andb_true_r.
  induction s as [|c s IH]; [reflexivity|].
  cbn [flat_map]. fold (printable (escape_char c ++ flat_map escape_char s)).
  rewrite printable_app, escape_char_printable. exact IH.
Qed.

Lemma uint_chars_printable (d : Decimal.uint) : printable (uint_chars d) = true.
Proof. induction d; simpl; auto. Qed.

Lemma join_printable (sep : str) (l : list str) :
  printable sep = true -> Forall (fun x => printable x = true) l ->
  printable (join sep l) = true.
Proof.
  intros Hsep. induction 1 as [|x l Hx Hl IH]; [reflexivity|].
  cbn [join]. destruct l as [|y l]; [exact Hx|].
  rewrite !printable_app, Hx, Hsep. exact IH.
Qed.

(** Induction on the objects, through their lists. *)
Lemma json_induction (P : json -> Prop) :
  (forall s, P (JStr s)) -> (forall n, P (JInt n)) ->
  (forall b, P (JBool b)) ->
  (forall l, Forall P l -> P (JList l)) ->
  (forall l, Forall (fun kv => P (snd kv)) l -> P (JDict l)) ->
  forall j, P j.
Proof.
  intros Hs Hn Hb Hl Hd. fix IH 1. intros [s|n|b|l|l].
  - apply Hs.
  - apply Hn.
  - apply Hb.
  - apply Hl. induction l as [|x l IHl]; constructor; [apply IH | exact IHl].
  - apply Hd. induction l as [|[k v] l IHl]; constructor;
      [apply IH | exact IHl].
Qed.

(** X13.  Whatever the object, the text that [format_obj] returns has no
    control character, hence no line feed: it is one line. *)
Theorem format_obj_one_line (obj : json) :
  forallb (fun c => (32 <=? c)%N) (format_obj obj) = true.
Proof.
  unfold format_obj. fold (printable (dumps obj)).
  induction obj as [s|n|b|l IH|l IH] using json_induction; cbn [dumps].
  - apply encode_basestring_printable.
  - apply uint_chars_printable.
  - destruct b; reflexivity.
  - rewrite !printable_app, join_printable; [reflexivity | reflexivity|].
    apply Forall_map. exact IH.
  - rewrite !printable_app, join_printable; [reflexivity | reflexivity|].
    apply Forall_map. revert IH. apply Forall_impl. intros [k v] Hv.
    cbn [fst snd] in *.
    now rewrite !printable_app, encode_basestring_printable, Hv.
Qed.

Lemma escape_plain (s : str) :
  forallb plain_char s = true -> flat_map escape_char s = s.
Proof.
  induction s as [|c s IH]; [reflexivity|].
  cbn [forallb flat_map]. rewrite andb_true_iff. intros [Hc Hs].
  rewrite (IH Hs). unfold plain_char in Hc.
  rewrite !andb_true_iff, !negb_true_iff, N.leb_le in Hc.
  destruct Hc as [[H32 H34] H92]. unfold escape_char.
  rewrite H92, H34.
  replace (eqc c 8%N) with false by (symmetry; apply eqc_false; lia).
  replace (eqc c 12%N) with false by (symmetry; apply eqc_false; lia).
  replace (eqc c 10%N) with false by (symmetry; apply eqc_false; lia).
  replace (eqc c 13%N) with false by (symmetry; apply eqc_false; lia).
  replace (eqc c 9%N) with false by (symmetry; apply eqc_false; lia).
  replace (c <? 32)%N with false by (symmetry; apply N.ltb_ge; lia).
  reflexivity.
Qed.

(** X14.  For a date without quote, backslash and control character,
    [index.json] is the object with the four keys in the order title,
    format, revision, sequenced, without any space, the revision being
    "cc_cedict_" followed by the date. *)
Theorem index_json_text (date : str) :
  forallb plain_char date = true ->
  format_obj (create_index (Some date))
  = py "{" ++ quoted (py "title") ++ py ":" ++ quoted (py "CC-CEDICT")
      ++ py "," ++ quoted (py "format") ++ py ":3,"
      ++ quoted (py "revision") ++ py ":"
      ++ quoted (py "cc_cedict_" ++ date)
      ++ py "," ++ quoted (py "sequenced") ++ py ":true}".
Proof.
  intros H. unfold format_obj, create_index.
  cbn [dumps map join fst snd format_date]. unfold encode_basestring.
  rewrite flat_map_app, (escape_plain date H).
  unfold quoted. rewrite <- ?app_assoc. cbn. reflexivity.
Qed.

Lemma index_json_text_witness :
  format_obj (create_index (Some (py "2024-05-20")))
  = py "{" ++ quoted (py "title") ++ py ":" ++ quoted (py "CC-CEDICT")
      ++ py "," ++ quoted (py "format") ++ py ":3,"
      ++ quoted (py "revision") ++ py ":"
      ++ quoted (py "cc_cedict_" ++ py "2024-05-20")
      ++ py "," ++ quoted (py "sequenced") ++ py ":true}".
Proof.
  apply (index_json_text (py "2024-05-20")). vm_compute. reflexivity.
Defined.

(* ================================================================= *)
(** ** [main] *)

Lemma uint_chars_inj (d : Decimal.uint) :
  forall d', uint_chars d = uint_chars d' -> d = d'.
Proof.
  induction d; intros [] H; simpl in H; try discriminate;
    try reflexivity; injection H as H; f_equal; auto.
Qed.

Lemma str_of_N_inj (a b : N) : str_of_N a = str_of_N b -> a = b.
Proof.
  unfold str_of_N. intros H. apply uint_chars_inj in H.
  now apply DecimalN.Unsigned.to_uint_inj.
Qed.

(** The name of the member written for the term bank of count [k]. *)
Lemma term_bank_names (banks : list TermBank) :
  forall i name,
    In name (map fst (term_bank_members i banks)) ->
    exists k, (i < k)%N /\ name = lit_term_bank ++ str_of_N k ++ lit_json.
Proof.
  induction banks as [|b banks IH]; intros i name H; [contradiction|].
  cbn [term_bank_members map fst] in H. destruct H as [<-|H].
  - exists (i + 1)%N. split; [lia | reflexivity].
  - destruct (IH _ _ H) as (k & Hk & ->). exists k. split; [lia | reflexivity].
Qed.

Lemma term_bank_names_NoDup (banks : list TermBank) :
  forall i, NoDup (map fst (term_bank_members i banks)).
Proof.
  induction banks as [|b banks IH]; intros i; [constructor|].
  cbn [term_bank_members map fst]. constructor; [|apply IH].
  intros H. apply term_bank_names in H. destruct H as (k & Hk & E).
  apply app_inv_head in E. apply app_inv_tail in E.
  apply str_of_N_inj in E. lia.
Qed.

Lemma index_json_not_term_bank (banks : list TermBank) (i : N) :
  ~ In lit_index_json (map fst (term_bank_members i banks)).
Proof.
  intros H. apply term_bank_names in H. destruct H as (k & _ & E).
  discriminate.
Qed.

Lemma members_NoDup (text : str) (banks : list TermBank) :
  NoDup (map fst ((lit_index_json, text) :: term_bank_members 0%N banks)).
Proof.
  cbn [map fst]. constructor.
  - apply index_json_not_term_bank.
  - apply term_bank_names_NoDup.
Qed.

(** X15.  A run of [main] always comes to an end.  Unless [get_date]
    raised, an archive is made whose first member is [index.json] and
    whose members all have different names; the two lines are printed
    exactly when nothing was raised. *)
Theorem main_archive_members (is_decimal : char -> bool)
  (decode_pinyin : str -> str) (args : Args) (dict_file : list str) :
  exists r,
    main is_decimal decode_pinyin args dict_file = Some r
    /\ match archive r with
       | None => raised r = Some TypeError
       | Some (_, members) =>
           hd_error (map fst members) = Some lit_index_json
           /\ NoDup (map fst members)
       end
    /\ match raised r with
       | None => length (printed r) = 2
       | Some _ => printed r = []
       end.
Proof.
  unfold main.
  destruct (get_date is_decimal dict_file) as [[date|e] rest] eqn:Hd.
  - destruct rest as [|skip body].
    + eexists. split; [reflexivity|]. cbn. repeat split.
      constructor; [intros [] | constructor].
    + destruct (create_termbanks_total decode_pinyin args body)
        as (banks & e & ->).
      destruct e as [e|]; eexists; (split; [reflexivity|]);
        cbn [archive raised printed]; (split; [|reflexivity]);
        (split; [reflexivity | apply members_NoDup]).
  - eexists. split; [reflexivity|]. cbn [archive raised printed].
    split; [|reflexivity].
    revert Hd. clear. induction dict_file as [|l ls IH]; cbn [get_date].
    + discriminate.
    + destruct (startswith l lit_date_prefix); [|exact IH].
      destruct (search_date is_decimal l); intros H; [discriminate|].
      now injection H as <- _.
Qed.

(** X16.  The name of the archive tells the flags apart: for one date,
    two runs write to the same file only if they have the same flags. *)
Theorem archive_name_flags (date : option str) (a1 a2 : Args) :
  archive_name a1 date = archive_name a2 date <-> a1 = a2.
Proof.
  split; [|now intros ->].
  destruct a1 as [s1 n1], a2 as [s2 n2]. unfold archive_name.
  cbn [is_separate is_number]. rewrite <- !app_assoc.
  intros H. apply app_inv_head in H. apply app_inv_head in H.
  destruct s1, n1, s2, n2; try reflexivity; discriminate.
Qed.

(** X17.  When a line raises before the first term bank is full, [main]
    ends with that exception: the archive has been created and holds
    [index.json] only, and nothing is printed. *)
Theorem main_line_error (is_decimal : char -> bool)
  (decode_pinyin : str -> str) (args : Args)
  (dict_file pre post : list str) (skip line : str)
  (date : option str) (es : list Entry) (e : exn) :
  get_date is_decimal dict_file
  = (Returns date, skip :: pre ++ line :: post) ->
  entries_from decode_pinyin args pre 1%N = Ok es ->
  length es < TERM_BANK_SIZE ->
  create_entries decode_pinyin args line (1 + N.of_nat (length pre))%N
  = Raise e ->
  main is_decimal decode_pinyin args dict_file
  = Some (mkRun (Some (archive_name args date,
                       [(lit_index_json, format_obj (create_index date))]))
                [] (Some (LineError e))).
Proof.
  intros Hd Hpre Hlen Hline. unfold main. rewrite Hd.
  now rewrite (create_termbanks_raises decode_pinyin args pre post line
                 es e Hpre Hlen Hline).
Qed.

Lemma main_line_error_witness :
  main ascii_decimal decoder defaults
       (header ++ [ke_line; no_bracket_line; yi_line])
  = Some (mkRun (Some (archive_name defaults (Some (py "2024-05-20")),
                       [(lit_index_json,
                         format_obj (create_index (Some (py "2024-05-20"))))]))
                [] (Some (LineError ValueError))).
Proof.
  apply (main_line_error ascii_decimal decoder defaults
           (header ++ [ke_line; no_bracket_line; yi_line])
           [ke_line] [yi_line] (py "#! charset=UTF-8" ++ [Re.newline])
           no_bracket_line (Some (py "2024-05-20"))
           [ke_entry (py "課") 1%N; ke_entry (py "课") 1%N] ValueError).
  - vm_compute. reflexivity.
  - vm_compute. reflexivity.
  - vm_compute. lia.
  - vm_compute. reflexivity.
Defined.

(** X18.  When no line starts with "#! date=", [main] creates the
    archive named after [None], writes [index.json] with the revision
    "cc_cedict_None" and ends with [StopIteration], the file being
    exhausted; the same exception ends the run when the line of the date
    is the last line of the file. *)
Theorem main_without_line_to_skip (is_decimal : char -> bool)
  (decode_pinyin : str -> str) (args : Args)
  (skipped : list str) (line date : str) :
  Forall not_date_line skipped ->
  startswith line lit_date_prefix = true ->
  search_date is_decimal line = Some date ->
  main is_decimal decode_pinyin args skipped
  = Some (mkRun (Some (archive_name args None,
                       [(lit_index_json, format_obj (create_index None))]))
                [] (Some StopIteration))
  /\ main is_decimal decode_pinyin args (skipped ++ [line])
     = Some (mkRun (Some (archive_name args (Some date),
                          [(lit_index_json,
                            format_obj (create_index (Some date)))]))
                   [] (Some StopIteration)).
Proof.
  intros Hskip Hline Hdate. unfold main. split.
  - rewrite <- (app_nil_r skipped) at 1.
    now rewrite get_date_skip.
  - rewrite get_date_skip by assumption. cbn [get_date].
    now rewrite Hline, Hdate.
Qed.

Lemma main_without_line_to_skip_witness :
  main ascii_decimal decoder defaults [py "# CC-CEDICT"; yi_line]
  = Some (mkRun (Some (archive_name defaults None,
                       [(lit_index_json, format_obj (create_index None))]))
                [] (Some StopIteration))
  /\ main ascii_decimal decoder defaults
          ([py "# CC-CEDICT"; yi_line] ++ [py "#! date=2024-05-20"])
     = Some (mkRun (Some (archive_name defaults (Some (py "2024-05-20")),
                          [(lit_index_json,
                            format_obj
                              (create_index (Some (py "2024-05-20"))))]))
                   [] (Some StopIteration)).
Proof.
  apply (main_without_line_to_skip ascii_decimal decoder defaults
           [py "# CC-CEDICT"; yi_line] (py "#! date=2024-05-20")
           (py "2024-05-20")).
  - repeat constructor.
  - vm_compute. reflexivity.
  - vm_compute. reflexivity.
Defined.

(** X19.  When the lines after the one passed over are all accepted and
    their entries number at most [TERM_BANK_SIZE], [main] writes
    [index.json] and then [term_bank_1.json], which holds all the
    entries, prints the date and "Done" and raises nothing; without such
    lines the archive holds [index.json] alone. *)
Theorem main_small_dictionary (is_decimal : char -> bool)
  (decode_pinyin : str -> str) (args : Args)
  (dict_file body : list str) (skip : str)
  (date : option str) (es : list Entry) :
  get_date is_decimal dict_file = (Returns date, skip :: body) ->
  entries_from decode_pinyin args body 1%N = Ok es ->
  length es <= TERM_BANK_SIZE ->
  main is_decimal decode_pinyin args dict_file
  = Some (mkRun
            (Some (archive_name args date,
                   (lit_index_json, format_obj (create_index date))
                     :: match body with
                        | [] => []
                        | _ :: _ =>
                            [(py "term_bank_1.json",
                              format_obj (term_bank_obj es))]
                        end))
            [py "::set-output name=date::" ++ format_date date; py "Done"]
            None).
Proof.
  intros Hd Hbody Hlen. unfold main. rewrite Hd.
  rewrite (create_termbanks_fits decode_pinyin args body es Hbody Hlen).
  destruct body; reflexivity.
Qed.

Lemma main_small_dictionary_witness :
  main ascii_decimal decoder defaults (header ++ [ke_line; yi_line])
  = Some (mkRun
            (Some (archive_name defaults (Some (py "2024-05-20")),
                   (lit_index_json,
                    format_obj (create_index (Some (py "2024-05-20"))))
                     :: match [ke_line; yi_line] with
                        | [] => []
                        | _ :: _ =>
                            [(py "term_bank_1.json",
                              format_obj
                                (term_bank_obj
                                   [ke_entry (py "課") 1%N;
                                    ke_entry (py "课") 1%N;
                                    yi_entry 2%N]))]
                        end))
            [py "::set-output name=date::"
                ++ format_date (Some (py "2024-05-20")); py "Done"]
            None).
Proof.
  apply (main_small_dictionary ascii_decimal decoder defaults
           (header ++ [ke_line; yi_line]) [ke_line; yi_line]
           (py "#! charset=UTF-8" ++ [Re.newline])
           (Some (py "2024-05-20"))
           [ke_entry (py "課") 1%N; ke_entry (py "课") 1%N; yi_entry 2%N]).
  - vm_compute. reflexivity.
  - vm_compute. reflexivity.
  - vm_compute. lia.
Defined.

(* ================================================================= *)
(** ** A line that ends with its pronunciation *)

Section NoMeaning.

Variable decode_pinyin : str -> str.
Variable args : Args.

(** Text without brackets that ends with "]" is not split. *)
Lemma split_go_closing (q : str) (m : nat) :
  ~ In 91%N q -> ~ In 93%N q ->
  Re.split_go [lit_space_lbracket; lit_rbracket_space] m 0 (q ++ [93%N])
  = [q ++ [93%N]].
Proof.
  destruct m as [|m]; [intros _ _; apply split_go_last|].
  induction q as [|c q IH]; intros Hl Hr; [reflexivity|].
  cbn [app Re.split_go]. rewrite first_alt_plain.
  - rewrite IH; [reflexivity | |]; intros H; [apply Hl | apply Hr];
      now right.
  - intros ->. apply Hr. now left.
  - intros y s' E. destruct q as [|z q].
    + cbn in E. injection E as <- _. discriminate.
    + cbn in E. injection E as <- _. intros ->. apply Hl. right. now left.
Qed.

Lemma create_entries_no_meaning (trad simp pron q : str) (index : N) :
  character_form trad -> character_form simp -> segment_body pron ->
  pinyin_of_segment decode_pinyin args (bracketed pron) = bracketed q ->
  ~ In 91%N q -> ~ In 93%N q ->
  create_entries decode_pinyin args (no_meaning_line trad simp pron) index
  = Raise ValueError.
Proof.
  intros Ht Hs Hp Hq Hq1 Hq2. pose proof Ht as [Hne Hch].
  unfold create_entries, no_meaning_line.
  change (convert_pinyin decode_pinyin args ?l)
    with (pinyin_of_text decode_pinyin args (strip l)).
  destruct trad as [|c trad]; [congruence|].
  assert (Hforms : forall x, x = 91%N \/ x = 93%N ->
                             ~ In x ((c :: trad) ++ [32%N] ++ simp)).
  { intros x Hx H. apply in_app_or in H. destruct H as [H|H].
    - now apply (character_form_plain (c :: trad) x Ht Hx).
    - apply in_app_or in H. destruct H as [[H|[]]|H].
      + destruct Hx; subst; discriminate.
      + now apply (character_form_plain simp x Hs Hx). }
  unfold bracketed at 1.
  replace ((c :: trad) ++ [32%N] ++ simp ++ [32%N]
             ++ lit_lbracket ++ pron ++ [rbracket])
    with ((c :: trad) ++ ([32%N] ++ simp ++ [32%N] ++ lit_lbracket ++ pron)
             ++ [rbracket])
    by (now rewrite <- !app_assoc).
  rewrite strip_ends by (try reflexivity; apply Hch; now left).
  rewrite <- !app_assoc.
  rewrite (app_assoc [32%N] simp), (app_assoc (c :: trad)), app_assoc.
  change (lit_lbracket ++ pron ++ [rbracket]) with (bracketed pron).
  rewrite <- (app_nil_r (bracketed pron)).
  rewrite pinyin_of_text_segment; [|
    intros H; apply in_app_or in H; destruct H as [H|[H|[]]];
    [exact (Hforms 91%N (or_introl eq_refl) H) | discriminate] | assumption].
  assert (Hnil : pinyin_of_text decode_pinyin args [] = [])
    by (unfold pinyin_of_text; destruct (is_number args); reflexivity).
  rewrite Hq, Hnil.
  rewrite app_nil_r. unfold Re.split, bracketed, lit_lbracket.
  rewrite <- !app_assoc.
  change ([32%N] ++ [91%N] ++ q ++ [rbracket])
    with (lit_space_lbracket ++ q ++ [93%N]).
  rewrite (app_assoc [32%N] simp), (app_assoc (c :: trad)).
  rewrite split_go_part; auto.
  now rewrite split_go_closing.
Qed.

End NoMeaning.

(** X20.  A line that ends with its pronunciation, [trad simp [pron]]
    without meaning, cannot be split in three: the loop body raises
    [ValueError]. *)
Theorem no_meaning_raises_ValueError (decode_pinyin : str -> str)
  (args : Args) (trad simp pron q : str) (index : N) :
  character_form trad -> character_form simp -> segment_body pron ->
  pinyin_of_segment decode_pinyin args (bracketed pron) = bracketed q ->
  ~ In 91%N q -> ~ In 93%N q ->
  create_entries decode_pinyin args (no_meaning_line trad simp pron) index
  = Raise ValueError.
Proof. apply create_entries_no_meaning. Qed.

Lemma no_meaning_raises_ValueError_witness :
  create_entries decoder defaults
    (no_meaning_line (py "課") (py "课") (py "ke4")) 1%N
  = Raise ValueError.
Proof.
  apply (no_meaning_raises_ValueError decoder defaults
           (py "課") (py "课") (py "ke4") (py "kè") 1%N).
  - split; [vm_compute; discriminate|].
    intros c [<-|[]]. vm_compute. repeat split; discriminate.
  - split; [vm_compute; discriminate|].
    intros c [<-|[]]. vm_compute. repeat split; discriminate.
  - vm_compute. repeat split; [discriminate | |]; intuition discriminate.
  - vm_compute. reflexivity.
  - vm_compute. intuition discriminate.
  - vm_compute. intuition discriminate.
Defined.

(* ================================================================= *)
(** ** The text of an entry *)

Lemma dumps_plain_strings (l : list str) :
  Forall (fun g => forallb plain_char g = true) l ->
  map dumps (map JStr l) = map quoted l.
Proof.
  induction 1 as [|g l Hg _ IH]; [reflexivity|].
  cbn [map dumps]. rewrite IH. f_equal.
  unfold encode_basestring, quoted. now rewrite escape_plain.
Qed.

(** X21.  An entry made by the loop body, when its strings have no
    quote, backslash and control character, is written as the list of
    its eight fields in the order headword, pronunciation, two empty
    strings, the score 2, the list of the glosses, the sequence number
    and an empty string, without any space. *)
Theorem entry_json_text (form pron : str) (meanings : list str) (index : N) :
  forallb plain_char form = true ->
  forallb plain_char pron = true ->
  Forall (fun g => forallb plain_char g = true) meanings ->
  format_obj (entry_obj (mkEntry form pron [] [] 2%N meanings index []))
  = py "[" ++ quoted form ++ py "," ++ quoted pron ++ py ","
      ++ quoted [] ++ py "," ++ quoted [] ++ py ",2,["
      ++ join (py ",") (map quoted meanings)
      ++ py "]," ++ str_of_N index ++ py "," ++ quoted [] ++ py "]".
Proof.
  intros Hf Hp Hm. unfold format_obj, entry_obj.
  cbn [dumps map join headword pronunciation part_of_speech
         inflection_marker score glosses sequence_index extra].
  rewrite (dumps_plain_strings meanings Hm).
  unfold encode_basestring. rewrite (escape_plain form Hf), (escape_plain pron Hp).
  unfold quoted. rewrite <- ?app_assoc. reflexivity.
Qed.

Lemma entry_json_text_witness :
  format_obj (entry_obj (mkEntry (py "課") (py "kè") [] [] 2%N
                                 [py "subject"; py "tax"] 7%N []))
  = py "[" ++ quoted (py "課") ++ py "," ++ quoted (py "kè") ++ py ","
      ++ quoted [] ++ py "," ++ quoted [] ++ py ",2,["
      ++ join (py ",") (map quoted [py "subject"; py "tax"])
      ++ py "]," ++ str_of_N 7%N ++ py "," ++ quoted [] ++ py "]".
Proof.
  apply (entry_json_text (py "課") (py "kè") [py "subject"; py "tax"] 7%N).
  - vm_compute. reflexivity.
  - vm_compute. reflexivity.
  - repeat constructor.
Defined.
